(** * Nexus landing page: a model of [script.js] and of the page's inline script

    The scripts are event handlers over the browser's DOM.  Each controller is
    embedded as a function over the part of the DOM it reads and writes; a
    handler that can throw runs in a small state-and-exception monad, so that
    a throw keeps the state reached at the throwing statement. *)

From Stdlib Require Import QArith.
From stdpp Require Import base strings list gmap.

Open Scope Z_scope.
Open Scope string_scope.
Close Scope Q_scope.

(** ** Completions: a state monad with JavaScript exceptions *)

Inductive JsError := TypeError | SyntaxError | NotFoundError.

Inductive Completion (S A : Type) :=
| Normal (a : A) (s : S)
| Throw (e : JsError) (s : S).
Arguments Normal {S A} a s.
Arguments Throw {S A} e s.

Definition M (S A : Type) : Type := S → Completion S A.

Definition throw {S A} (e : JsError) : M S A := fun s => Throw e s.
Definition modify {S} (f : S → S) : M S unit := fun s => Normal tt (f s).
Definition gets {S A} (f : S → A) : M S A := fun s => Normal (f s) s.

#[global] Instance M_ret {S} : MRet (M S) := fun A a s => Normal a s.
#[global] Instance M_bind {S} : MBind (M S) :=
  fun A B k m s => match m s with
                   | Normal a s' => k a s'
                   | Throw e s' => Throw e s'
                   end.

(** The state a completion ends in, and whether it ended normally. *)
Definition final {S A} (c : Completion S A) : S :=
  match c with Normal _ s => s | Throw _ s => s end.
Definition threw {S A} (c : Completion S A) : bool :=
  match c with Normal _ _ => false | Throw _ _ => true end.

(** ** Inline styles

    The properties of [element.style] that the scripts assign.  A property
    never assigned reads as the empty string. *)

Record Style := mkStyle {
  display : string;
  opacity : string;
  transform : string;
  transition : string;
  padding : string;
  boxShadow : string
}.

Definition noStyle : Style := mkStyle "" "" "" "" "" "".

Definition set_display (v : string) (s : Style) : Style :=
  mkStyle v (opacity s) (transform s) (transition s) (padding s) (boxShadow s).
Definition set_opacity (v : string) (s : Style) : Style :=
  mkStyle (display s) v (transform s) (transition s) (padding s) (boxShadow s).
Definition set_transform (v : string) (s : Style) : Style :=
  mkStyle (display s) (opacity s) v (transition s) (padding s) (boxShadow s).
Definition set_transition (v : string) (s : Style) : Style :=
  mkStyle (display s) (opacity s) (transform s) v (padding s) (boxShadow s).
Definition set_padding (v : string) (s : Style) : Style :=
  mkStyle (display s) (opacity s) (transform s) (transition s) v (boxShadow s).
Definition set_boxShadow (v : string) (s : Style) : Style :=
  mkStyle (display s) (opacity s) (transform s) (transition s) (padding s) v.

(** [a > b] on JavaScript numbers that are finite (scroll offsets, client
    rectangles): rationals cover every finite double. *)
Definition Qgtb (a b : Q) : bool := negb (Qle_bool a b).
Definition Qltb (a b : Q) : bool := negb (Qle_bool b a).

(** ** Sticky header ([initStickyHeader]) *)

Module StickyHeader.

(** [header] is what [document.querySelector('header')] returned when the
    controller was set up: [None] is JavaScript's [null].  The listener closes
    over it; the state is the header's inline style. *)
Record State := mkState { header : option Style }.

(** [header.style.<prop> = v]: a [TypeError] when [header] is [null]. *)
Definition assign (set : string → Style → Style) (v : string) : M State unit :=
  fun st => match header st with
            | None => Throw TypeError st
            | Some s => Normal tt (mkState (Some (set v s)))
            end.

(** The scroll listener, run with the current [window.scrollY]. *)
Definition onScroll (scrollY : Q) : M State unit :=
  if Qgtb scrollY (100 # 1) then
    assign set_padding "10px 0" ;;
    assign set_boxShadow "0 5px 20px rgba(0, 0, 0, 0.1)"
  else
    assign set_padding "20px 0" ;;
    assign set_boxShadow "0 2px 10px rgba(0, 0, 0, 0.1)".

End StickyHeader.

(** ** Mobile menu ([initMobileMenu]) *)

Module MobileMenu.

(** The elements focus can rest on, as far as this controller tells them
    apart. *)
Inductive Elem := Toggle | Elsewhere.

(** What the handlers read and write: [navLinks.style.display], the toggle's
    [aria-expanded] attribute ([None] when the attribute is absent), and
    [document.activeElement]; and what [focus()] depends on: whether the
    toggle is an element that takes the focus (a button, or one with a
    [tabindex], rendered and not disabled).  No handler changes that. *)
Record State := mkState {
  navDisplay : string;
  ariaExpanded : option string;
  activeElement : option Elem;
  toggleFocusable : bool
}.

(** A click is seen by the handlers only through
    [navLinks.contains(event.target)] and [mobileMenu.contains(event.target)]. *)
Record ClickTarget := mkTarget { inNav : bool; inToggle : bool }.

Inductive Event :=
| Click (t : ClickTarget)
| KeyDown (key : string).

(** The listener on the toggle. *)
Definition onToggleClick (st : State) : State :=
  let isExpanded := bool_decide (ariaExpanded st = Some "true") in
  if String.eqb (navDisplay st) "flex" then
    mkState "none" (Some "false") (activeElement st) (toggleFocusable st)
  else
    mkState "flex" (Some "true") (activeElement st) (toggleFocusable st).

(** The click listener on the document. *)
Definition onDocumentClick (t : ClickTarget) (st : State) : State :=
  if negb (inNav t) && negb (inToggle t) then
    mkState "none" (Some "false") (activeElement st) (toggleFocusable st)
  else st.

(** [mobileMenu.focus()]: the focus moves to the toggle when the toggle
    takes the focus, and stays where it is otherwise. *)
Definition focusToggle (st : State) : State :=
  mkState (navDisplay st) (ariaExpanded st)
    (if toggleFocusable st then Some Toggle else activeElement st)
    (toggleFocusable st).

(** The keydown listener on the document. *)
Definition onKeyDown (key : string) (st : State) : State :=
  if String.eqb key "Escape" && String.eqb (navDisplay st) "flex" then
    focusToggle
      (mkState "none" (Some "false") (activeElement st) (toggleFocusable st))
  else st.

(** Dispatch of one event to the controller's listeners: a click whose target
    lies in the toggle reaches the toggle's listener and then, bubbling, the
    document's. *)
Definition dispatch (e : Event) (st : State) : State :=
  match e with
  | Click t =>
      onDocumentClick t (if inToggle t then onToggleClick st else st)
  | KeyDown key => onKeyDown key st
  end.

Definition closed (st : State) : Prop :=
  navDisplay st = "none" ∧ ariaExpanded st = Some "false".

(** The visual state and the ARIA state agree. *)
Definition consistent (st : State) : Prop :=
  ariaExpanded st = Some "true" ↔ navDisplay st = "flex".

(** The events the claim about consistency speaks of: a click on the toggle,
    a click outside both elements, Escape while the panel is shown. *)
Definition acts (e : Event) (st : State) : bool :=
  match e with
  | Click t => inToggle t || (negb (inNav t) && negb (inToggle t))
  | KeyDown key => String.eqb key "Escape" && String.eqb (navDisplay st) "flex"
  end.

End MobileMenu.

(** ** The cards of the page

    The elements the rotator and the scroll animations work on.  A document
    is the list of its elements in document order; a node is named by its
    position, so two names are the same element exactly when they are equal,
    and a [NodeList] is a list of positions. *)

Module Cards.

Record Element := mkElement {
  classList : list string;
  style : Style;
  ariaHidden : option string      (* the [aria-hidden] attribute *)
}.

Abbreviation Document := (list Element).

Definition set_style (f : Style → Style) (e : Element) : Element :=
  mkElement (classList e) (f (style e)) (ariaHidden e).
Definition set_ariaHidden (v : string) (e : Element) : Element :=
  mkElement (classList e) (style e) (Some v).

(** A selector list of class selectors ['.a, .b, ...'], given by its class
    names. *)
Definition matches (sel : list string) (e : Element) : bool :=
  existsb (fun c => bool_decide (c ∈ classList e)) sel.

Fixpoint queryFrom (sel : list string) (i : nat) (d : Document) : list nat :=
  match d with
  | [] => []
  | e :: rest =>
      ((if matches sel e then [i] else []) ++ queryFrom sel (S i) rest)%list
  end.

(** [document.querySelectorAll(sel)]: the matching elements in document
    order. *)
Definition querySelectorAll (sel : list string) (d : Document) : list nat :=
  queryFrom sel 0 d.

(** [nodes.forEach((node, i) => body)], where [body] mutates the document. *)
Fixpoint forEachFrom (i : nat) (nodes : list nat)
    (body : nat → nat → Document → Document) (d : Document) : Document :=
  match nodes with
  | [] => d
  | node :: rest => forEachFrom (S i) rest body (body node i d)
  end.
Definition forEach := forEachFrom 0.

Inductive Callback := RotateTestimonials | AnimateOnScroll.

Record Timer := mkTimer { callback : Callback; delay : Z }.

(** The variables [initTestimonialsSlider] leaves to its closures. *)
Record Slider := mkSlider {
  testimonials : list nat;
  currentTestimonial : nat
}.

Record Page := mkPage {
  doc : Document;
  slider : option Slider;          (* [None] until the rotator is set up *)
  timers : list Timer;             (* [setInterval] registrations *)
  scrollListeners : list Callback  (* [window.addEventListener('scroll', _)] *)
}.

(** What the browser reports when a handler asks: each element's
    [getBoundingClientRect().top] and [window.innerHeight]. *)
Record Viewport := mkViewport { rectTop : nat → Q; innerHeight : Z }.

Definition boolString (b : bool) : string := if b then "true" else "false".

(** *** Testimonial rotator ([initTestimonialsSlider]) *)

Definition showTestimonial (index : nat) (s : Slider) (d : Document)
  : Slider * Document :=
  let d' :=
    forEach (testimonials s)
      (fun testimonial i d =>
         let d1 := alter (set_style (set_display
                     (if Nat.eqb i index then "block" else "none"))) testimonial d in
         alter (set_ariaHidden (boolString (negb (Nat.eqb i index)))) testimonial d1)
      d in
  (mkSlider (testimonials s) index, d').

(** The [setInterval] callback. *)
Definition tick (p : Page) : Page :=
  match slider p with
  | None => p
  | Some s =>
      let nextIndex := ((currentTestimonial s + 1) mod length (testimonials s))%nat in
      let '(s', d') := showTestimonial nextIndex s (doc p) in
      mkPage d' (Some s') (timers p) (scrollListeners p)
  end.

Definition initTestimonialsSlider (p : Page) : Page :=
  let testimonials := querySelectorAll ["testimonial-card"] (doc p) in
  if (length testimonials <=? 1)%nat then p
  else
    let s := mkSlider testimonials 0 in
    let timers' := (timers p ++ [mkTimer RotateTestimonials 5000])%list in
    let '(s', d') := showTestimonial 0 s (doc p) in
    mkPage d' (Some s') timers' (scrollListeners p).

(** *** Scroll animations ([initScrollAnimations]) *)

Definition animated : list string :=
  ["feature-card"; "pricing-card"; "testimonial-card"].

Definition animateOnScroll (v : Viewport) (d : Document) : Document :=
  let elements := querySelectorAll animated d in
  forEach elements
    (fun element _ d =>
       let elementTop := rectTop v element in
       let elementVisible := 150 in
       if Qltb elementTop (inject_Z (innerHeight v - elementVisible)) then
         alter (set_style (set_transform "translateY(0)"))
           element (alter (set_style (set_opacity "1")) element d)
       else d)
    d.

Definition initScrollAnimations (v : Viewport) (p : Page) : Page :=
  let animatedElements := querySelectorAll animated (doc p) in
  let d1 :=
    forEach animatedElements
      (fun element _ d =>
         alter (set_style (set_transition "opacity 0.6s ease, transform 0.6s ease"))
           element
           (alter (set_style (set_transform "translateY(20px)")) element
              (alter (set_style (set_opacity "0")) element d)))
      (doc p) in
  mkPage (animateOnScroll v d1) (slider p) (timers p)
    (scrollListeners p ++ [AnimateOnScroll])%list.

(** A scroll event reaching this controller's listener. *)
Definition onScroll (v : Viewport) (p : Page) : Page :=
  mkPage (animateOnScroll v (doc p)) (slider p) (timers p) (scrollListeners p).

(** [init], as far as it touches the cards, the timers and the scroll
    listeners of this page: the other six initializers neither read nor write
    them, and none of the eight throws while it is set up. *)
Definition init (v : Viewport) (p : Page) : Page :=
  initScrollAnimations v (initTestimonialsSlider p).

(** An element the visitor can see: it is laid out and not transparent. *)
Definition visible (e : Element) : bool :=
  negb (String.eqb (display (style e)) "none")
  && negb (String.eqb (opacity (style e)) "0").

Definition revealed (e : Element) : Prop :=
  opacity (style e) = "1" ∧ transform (style e) = "translateY(0)".

End Cards.

(** ** Smooth scrolling ([initSmoothScrolling]) *)

Module SmoothScroll.

(** What [document.querySelector(selector)] answers for a selector computed
    at run time: a [SyntaxError] for a string that is no selector, [null], or
    an element. *)
Inductive QueryResult := BadSelector | Missing | Found (node : nat).

(** The page as a click finds it.  [query] answers
    [document.querySelector(targetId)]; the three selectors the handler
    writes out ('header', '.nav-links', '.mobile-menu') are well formed, so
    each is answered by an element or by [null].  The layout figures are the
    browser's at that moment. *)
Record Env := mkEnv {
  query : string → QueryResult;
  header : option nat;
  navLinks : option nat;
  mobileMenu : option nat;
  offsetTop : nat → Z;
  offsetHeight : nat → Z;
  innerWidth : Z
}.

(** An element's inline style and attributes.  An element the store does not
    hold has no inline style and none of the attributes. *)
Record Element := mkElement {
  style : Style;
  attributes : gmap string string
}.

Definition blank : Element := mkElement noStyle ∅.

Record ScrollToOptions := mkScrollTo { top : Z; behavior : string }.

Record State := mkState {
  elements : gmap nat Element;
  scrollRequests : list ScrollToOptions;  (* calls of [window.scrollTo], oldest first *)
  history : list string;                  (* URLs given to [history.pushState], newest first *)
  activeElement : option nat;
  defaultPrevented : bool
}.

Definition element (st : State) (n : nat) : Element :=
  default blank (elements st !! n).

Definition update (n : nat) (f : Element → Element) : M State unit :=
  modify (fun st =>
    mkState (<[n := f (element st n)]> (elements st)) (scrollRequests st)
      (history st) (activeElement st) (defaultPrevented st)).

Definition preventDefault : M State unit :=
  modify (fun st =>
    mkState (elements st) (scrollRequests st) (history st) (activeElement st) true).

Definition querySelector (env : Env) (selector : string) : M State (option nat) :=
  match query env selector with
  | BadSelector => throw SyntaxError
  | Missing => mret None
  | Found n => mret (Some n)
  end.

(** [node.offsetHeight]: a [TypeError] on [null]. *)
Definition offsetHeightOf (env : Env) (node : option nat) : M State Z :=
  match node with
  | None => throw TypeError
  | Some n => mret (offsetHeight env n)
  end.

Definition scrollTo (o : ScrollToOptions) : M State unit :=
  modify (fun st =>
    mkState (elements st) (scrollRequests st ++ [o])%list (history st)
      (activeElement st) (defaultPrevented st)).

Definition pushState (url : string) : M State unit :=
  modify (fun st =>
    mkState (elements st) (scrollRequests st) (url :: history st)
      (activeElement st) (defaultPrevented st)).

Definition setDisplay (n : nat) (v : string) : M State unit :=
  update n (fun e => mkElement (set_display v (style e)) (attributes e)).

Definition setAttribute (n : nat) (name v : string) : M State unit :=
  update n (fun e => mkElement (style e) (<[name := v]> (attributes e))).

Definition removeAttribute (n : nat) (name : string) : M State unit :=
  update n (fun e => mkElement (style e) (delete name (attributes e))).

Definition focus (n : nat) : M State unit :=
  modify (fun st =>
    mkState (elements st) (scrollRequests st) (history st) (Some n)
      (defaultPrevented st)).

(** The click listener of an anchor; [href] is [this.getAttribute('href')]. *)
Definition onAnchorClick (env : Env) (href : string) : M State unit :=
  preventDefault ;;
  let targetId := href in
  if String.eqb targetId "#" then mret tt
  else
    targetElement ← querySelector env targetId;
    match targetElement with
    | None => mret tt
    | Some targetElement =>
        headerHeight ← offsetHeightOf env (header env);
        let targetPosition := offsetTop env targetElement - headerHeight in
        scrollTo (mkScrollTo targetPosition "smooth") ;;
        pushState targetId ;;
        (if (innerWidth env <=? 768)%Z then
           match navLinks env, mobileMenu env with
           | Some navLinks, Some mobileMenu =>
               setDisplay navLinks "none" ;;
               setAttribute mobileMenu "aria-expanded" "false"
           | _, _ => mret tt
           end
         else mret tt) ;;
        setAttribute targetElement "tabindex" "-1" ;;
        focus targetElement ;;
        removeAttribute targetElement "tabindex"
    end.

(** The state a click leaves when the handler returns at once. *)
Definition onlyPrevented (st : State) : State :=
  mkState (elements st) (scrollRequests st) (history st) (activeElement st) true.

End SmoothScroll.

(** ** The page's inline script (the second source file)

    The second source file registers handlers of its own at the top level of
    its script.  Its anchor listener closes over the [navLinks] found when
    the script ran. *)

Module InlineScript.
Import SmoothScroll.

(** [navLinks.style.display = v] with the captured [navLinks]. *)
Definition setNavDisplay (navLinks : option nat) (v : string) : M State unit :=
  match navLinks with
  | None => throw TypeError
  | Some n => setDisplay n v
  end.

Definition onAnchorClick (env : Env) (navLinks : option nat) (href : string)
  : M State unit :=
  preventDefault ;;
  let targetId := href in
  if String.eqb targetId "#" then mret tt
  else
    targetElement ← querySelector env targetId;
    match targetElement with
    | None => mret tt
    | Some targetElement =>
        scrollTo (mkScrollTo (offsetTop env targetElement - 80) "smooth") ;;
        if (innerWidth env <=? 768)%Z then setNavDisplay navLinks "none"
        else mret tt
    end.

End InlineScript.

(** ** Form validation ([initFormValidation], [window.validateForm])

    The validator walks a tree and edits it: it inserts and removes nodes
    beside the fields it visits.  The document is a heap of nodes, each with
    its parent and the list of its children. *)

Module Form.

(** A JavaScript string as its UTF-16 code units. *)
Abbreviation jsstring := (list N).

Record Node := mkNode {
  isElement : bool;             (* [false] for text and comment nodes *)
  tagName : string;
  required : bool;              (* the [required] attribute is present *)
  classList : list string;
  value : jsstring;
  textContent : string;
  cssText : string;             (* [style.cssText] *)
  parentNode : option nat;
  childNodes : list nat
}.

Abbreviation Dom := (gmap nat Node).

(** A node the heap does not hold reads as a detached, empty text node. *)
Definition orphan : Node := mkNode false "" false [] [] "" "" None [].
Definition node (d : Dom) (n : nat) : Node := default orphan (d !! n).

Definition set_classList (l : list string) (x : Node) : Node :=
  mkNode (isElement x) (tagName x) (required x) l (value x) (textContent x)
    (cssText x) (parentNode x) (childNodes x).
Definition set_value (v : jsstring) (x : Node) : Node :=
  mkNode (isElement x) (tagName x) (required x) (classList x) v (textContent x)
    (cssText x) (parentNode x) (childNodes x).
Definition set_parentNode (p : option nat) (x : Node) : Node :=
  mkNode (isElement x) (tagName x) (required x) (classList x) (value x)
    (textContent x) (cssText x) p (childNodes x).
Definition set_childNodes (l : list nat) (x : Node) : Node :=
  mkNode (isElement x) (tagName x) (required x) (classList x) (value x)
    (textContent x) (cssText x) (parentNode x) l.

(** *** Strings: [String.prototype.trim] *)

(** ECMAScript's WhiteSpace and LineTerminator code points; all lie in the
    basic plane, so the test is on single code units. *)
Definition isWhiteSpace (c : N) : bool :=
  ((c =? 0x09) || (c =? 0x0A) || (c =? 0x0B) || (c =? 0x0C) || (c =? 0x0D)
   || (c =? 0x20) || (c =? 0xA0) || (c =? 0x1680)
   || ((0x2000 <=? c) && (c <=? 0x200A))
   || (c =? 0x2028) || (c =? 0x2029) || (c =? 0x202F) || (c =? 0x205F)
   || (c =? 0x3000) || (c =? 0xFEFF))%N.

Fixpoint trimStart (s : jsstring) : jsstring :=
  match s with
  | [] => []
  | c :: rest => if isWhiteSpace c then trimStart rest else s
  end.

Definition trim (s : jsstring) : jsstring :=
  rev (trimStart (rev (trimStart s))).

(** [!s]: the empty string is the only falsy one. *)
Definition isEmpty (s : jsstring) : bool :=
  match s with [] => true | _ => false end.

(** *** The DOM calls the validator makes *)

Definition contains (c : string) (d : Dom) (n : nat) : bool :=
  bool_decide (c ∈ classList (node d n)).

(** [n.classList.add(c)] and [n.classList.remove(c)]. *)
Definition classList_add (c : string) (n : nat) (d : Dom) : Dom :=
  alter (fun x => if bool_decide (c ∈ classList x) then x
                  else set_classList (classList x ++ [c]) x) n d.
Definition classList_remove (c : string) (n : nat) (d : Dom) : Dom :=
  alter (fun x => set_classList (filter (fun c' => c' ≠ c) (classList x)) x) n d.

(** The siblings that follow [n] in a list of children. *)
Fixpoint after (n : nat) (l : list nat) : list nat :=
  match l with
  | [] => []
  | x :: rest => if Nat.eqb x n then rest else after n rest
  end.

Definition followingSiblings (d : Dom) (n : nat) : list nat :=
  match parentNode (node d n) with
  | None => []
  | Some p => after n (childNodes (node d p))
  end.

Definition nextSibling (d : Dom) (n : nat) : option nat :=
  head (followingSiblings d n).

Definition nextElementSibling (d : Dom) (n : nat) : option nat :=
  List.find (fun k => isElement (node d k)) (followingSiblings d n).

(** [document.createElement(tag)]: a new, detached element. *)
Definition createElement (tag : string) (d : Dom) : nat * Dom :=
  let n := fresh (dom d) in
  (n, <[n := mkNode true tag false [] [] "" "" None []]> d).

(** The child list with [new] put before [ref]; [None] when [ref] is not in
    the list. *)
Fixpoint putBefore (new ref : nat) (l : list nat) : option (list nat) :=
  match l with
  | [] => None
  | x :: rest =>
      if Nat.eqb x ref then Some (new :: x :: rest)
      else cons x <$> putBefore new ref rest
  end.

(** [parent.insertBefore(new, ref)] for a detached [new]: at the end when
    [ref] is [null], a [NotFoundError] when [ref] is not a child of
    [parent]. *)
Definition insertBefore (parent new : nat) (ref : option nat) : M Dom unit :=
  fun d =>
    let kids := childNodes (node d parent) in
    match (match ref with
           | None => Some (kids ++ [new])%list
           | Some r => putBefore new r kids
           end) with
    | None => Throw NotFoundError d
    | Some kids' =>
        Normal tt (alter (set_parentNode (Some parent)) new
                     (alter (set_childNodes kids') parent d))
    end.

(** [n.remove()]. *)
Definition remove (n : nat) (d : Dom) : Dom :=
  match parentNode (node d n) with
  | None => d
  | Some p =>
      alter (set_parentNode None) n
        (alter (fun x => set_childNodes
                           (filter (fun k => k ≠ n) (childNodes x)) x) p d)
  end.

(** *** [form.querySelectorAll('input[required], textarea[required]')] *)

Definition isRequiredField (x : Node) : bool :=
  isElement x
  && (String.eqb (tagName x) "input" || String.eqb (tagName x) "textarea")
  && required x.

(** The descendants of [n] in tree order, to the given depth. *)
Fixpoint descendants (depth : nat) (d : Dom) (n : nat) : list nat :=
  match depth with
  | O => []
  | S depth' =>
      flat_map (fun k => k :: descendants depth' d k) (childNodes (node d n))
  end.

(** No path of a tree is longer than the tree has nodes. *)
Definition querySelectorAll (d : Dom) (form : nat) : list nat :=
  filter (fun k => isRequiredField (node d k) = true) (descendants (size d) d form).

(** *** The validator *)

(** The validator's frame: the document and its local [isValid]. *)
Record State := mkState { document : Dom; isValid : bool }.

Definition onDocument (f : Dom → Dom) : M State unit :=
  modify (fun st => mkState (f (document st)) (isValid st)).

Definition inDocument {A} (m : M Dom A) : M State A :=
  fun st => match m (document st) with
            | Normal a d => Normal a (mkState d (isValid st))
            | Throw e d => Throw e (mkState d (isValid st))
            end.

Definition errorMessageText : string := "This field is required".
Definition errorMessageCss : string :=
  "color: red; font-size: 0.8rem; display: block; margin-top: 5px;".

(** The new [span], with its class name, text and inline style set. *)
Definition createErrorMessage : M Dom nat :=
  fun d =>
    let '(n, d') := createElement "span" d in
    Normal n (alter (fun x =>
      mkNode (isElement x) (tagName x) (required x) ["error-message"] (value x)
        errorMessageText errorMessageCss (parentNode x) (childNodes x)) n d').

(** [!n || !n.classList.contains(c)] for a node or [null]. *)
Definition lacks (c : string) (d : Dom) (n : option nat) : bool :=
  match n with
  | None => true
  | Some n => negb (contains c d n)
  end.

(** [input.parentNode.insertBefore(new, input.nextSibling)]. *)
Definition insertAfter (input new : nat) : M Dom unit :=
  fun d =>
    match parentNode (node d input) with
    | None => Throw TypeError d
    | Some parent => insertBefore parent new (nextSibling d input) d
    end.

(** The body of [inputs.forEach(input => ...)]. *)
Definition validateField (input : nat) : M State unit :=
  d ← gets document;
  if isEmpty (trim (value (node d input))) then
    modify (fun st => mkState (document st) false) ;;
    onDocument (classList_add "error" input) ;;
    d ← gets document;
    if lacks "error-message" d (nextElementSibling d input) then
      errorMessage ← inDocument createErrorMessage;
      inDocument (insertAfter input errorMessage)
    else mret tt
  else
    onDocument (classList_remove "error" input) ;;
    d ← gets document;
    let errorMessage := nextElementSibling d input in
    if negb (lacks "error-message" d errorMessage) then
      match errorMessage with
      | Some errorMessage => onDocument (remove errorMessage)
      | None => mret tt
      end
    else mret tt.

Fixpoint forEach (nodes : list nat) (body : nat → M State unit) : M State unit :=
  match nodes with
  | [] => mret tt
  | n :: rest => body n ;; forEach rest body
  end.

(** [window.validateForm(form)], run on the document [d]. *)
Definition validateForm (form : nat) (d : Dom) : Completion State bool :=
  (let inputs := querySelectorAll d form in
   forEach inputs validateField ;;
   gets isValid) (mkState d true).

(** *** Notions the properties of the validator are stated with *)

Definition kids (d : Dom) (n : nat) : list nat := childNodes (node d n).
Definition parent (d : Dom) (n : nat) : option nat := parentNode (node d n).

(** [n] is one of the fields the validator selects. *)
Definition isField (d : Dom) (n : nat) : bool := isRequiredField (node d n).

(** The field's trimmed value is not empty. *)
Definition filled (d : Dom) (n : nat) : bool :=
  negb (isEmpty (trim (value (node d n)))).

Definition isErrorMessage (d : Dom) (n : nat) : bool :=
  isElement (node d n) && contains "error-message" d n.

(** The validator's own test for a message beside [n]: the next element
    sibling exists and carries the class. *)
Definition hasErrorMessage (d : Dom) (n : nat) : bool :=
  negb (lacks "error-message" d (nextElementSibling d n)).

(** The heap is a forest: children and parents point at each other, and no
    child is listed twice. *)
Definition wellFormed (d : Dom) : Prop :=
  (∀ p k, k ∈ kids d p → parent d k = Some p)
  ∧ (∀ k p, parent d k = Some p → k ∈ kids d p)
  ∧ (∀ p, NoDup (kids d p)).

(** The class 'error-message' is the validator's own: an element that
    carries it neither is nor holds a required field, and is not followed by
    a second such element. *)
Definition tidy (d : Dom) : Prop :=
  ∀ e, isErrorMessage d e = true →
    isField d e = false
    ∧ (∀ depth k, k ∈ descendants depth d e → isField d k = false)
    ∧ hasErrorMessage d e = false.

(** The visitor types [v] into the field [n]. *)
Definition typeInto (d : Dom) (edit : nat * jsstring) : Dom :=
  alter (set_value edit.2) edit.1 d.
Definition fill (edits : list (nat * jsstring)) (d : Dom) : Dom :=
  foldl typeInto d edits.

(** *** Notions the proofs about the validator are organised with *)

(** [d'] has the tree, the fields and the error messages of [d]. *)
Definition sameTree (d d' : gmap nat Node) : Prop :=
  dom d' = dom d
  ∧ ∀ n, childNodes (node d' n) = childNodes (node d n)
       ∧ parentNode (node d' n) = parentNode (node d n)
       ∧ isElement (node d' n) = isElement (node d n)
       ∧ isRequiredField (node d' n) = isRequiredField (node d n)
       ∧ contains "error-message" d' n = contains "error-message" d n.

Definition messageNode (p : option nat) : Node :=
  mkNode true "span" false ["error-message"] [] errorMessageText errorMessageCss p [].

(** [d'] is [d] with the new message [s] put after the element [i], a child
    of [p]. *)
Definition inserted (d d' : gmap nat Node) (i p s : nat) (pre post : list nat)
  : Prop :=
  wellFormed d
  ∧ parent d i = Some p
  ∧ isElement (node d i) = true
  ∧ kids d p = (pre ++ i :: post)%list
  ∧ node d s = orphan
  ∧ NoDup (pre ++ i :: s :: post)
  ∧ ∀ n, node d' n
         = if decide (n = s) then messageNode (Some p)
           else if decide (n = p)
                then set_childNodes (pre ++ i :: s :: post) (node d p)
                else node d n.

(** [d'] is [d] with the message [e], the next element after [i] among the
    children of [p], taken out. *)
Definition removed (d d' : gmap nat Node) (i p e : nat) (pre texts post : list nat)
  : Prop :=
  wellFormed d
  ∧ parent d i = Some p
  ∧ isElement (node d i) = true
  ∧ isElement (node d e) = true
  ∧ e ≠ p
  ∧ kids d p = (pre ++ i :: texts ++ e :: post)%list
  ∧ List.find (fun k => isElement (node d k)) texts = None
  ∧ ∀ n, node d' n
         = if decide (n = e) then set_parentNode None (node d e)
           else if decide (n = p)
                then set_childNodes (filter (fun k => k ≠ e) (kids d p)) (node d p)
                else node d n.

Definition keeps (d d' : gmap nat Node) : Prop :=
  dom d ⊆ dom d'
  ∧ (∀ n, isField d' n = isField d n)
  ∧ (∀ n, value (node d' n) = value (node d n))
  ∧ (∀ n, n ∈ dom d → isElement (node d' n) = isElement (node d n))
  ∧ (∀ n, n ∈ dom d →
       contains "error-message" d' n = contains "error-message" d n)
  ∧ (∀ q k, k ∈ kids d q → isErrorMessage d k = false → k ∈ kids d' q)
  ∧ (∀ n, n ∈ dom d → isErrorMessage d n = false → parent d' n = parent d n)
  ∧ (∀ n, n ∈ dom d → parent d n = None → parent d' n = None).

(** The result of a step on the field [i], seen from the document [d] the
    step found. *)
Definition stepped (d d' : gmap nat Node) (i : nat) : Prop :=
  wellFormed d' ∧ tidy d' ∧ keeps d d'
  ∧ (∀ n c, n ∈ dom d → contains c d' n = contains c d n)
  ∧ (∀ j, isField d j = true → j ≠ i →
       nextElementSibling d' j = nextElementSibling d j).

(** What the loop body leaves behind for the field [i] it visited, for the
    other fields, and for the document as a whole. *)
Definition visited (d d' : gmap nat Node) (i : nat) : Prop :=
  wellFormed d' ∧ tidy d' ∧ keeps d d'
  ∧ contains "error" d' i = negb (filled d i)
  ∧ hasErrorMessage d' i = negb (filled d i)
  ∧ (∀ j, isField d j = true → j ≠ i →
       contains "error" d' j = contains "error" d j
       ∧ nextElementSibling d' j = nextElementSibling d j)
  ∧ (filled d i = true → ∀ e, nextElementSibling d i = Some e →
       isErrorMessage d e = true → parent d' e = None).

(** What [inputs.forEach] leaves behind. *)
Definition validated (d d' : gmap nat Node) (l : list nat) : Prop :=
  wellFormed d' ∧ tidy d' ∧ keeps d d'
  ∧ (∀ i, i ∈ l →
       contains "error" d' i = negb (filled d i)
       ∧ hasErrorMessage d' i = negb (filled d i))
  ∧ (∀ j, isField d j = true → j ∉ l →
       contains "error" d' j = contains "error" d j
       ∧ nextElementSibling d' j = nextElementSibling d j)
  ∧ (∀ i e, i ∈ l → filled d i = true → nextElementSibling d i = Some e →
       isErrorMessage d e = true → parent d' e = None).

Definition wellFormedb (d : gmap nat Node) : bool :=
  forallb (fun '(p, x) =>
      forallb (fun k => bool_decide (parent d k = Some p)) (childNodes x)
      && match parentNode x with
         | Some q => bool_decide (p ∈ kids d q)
         | None => true
         end
      && bool_decide (NoDup (childNodes x)))
    (map_to_list d).

Definition tidyb (d : gmap nat Node) : bool :=
  forallb (fun '(e, x) =>
      negb (isErrorMessage d e)
      || (negb (isField d e) && bool_decide (childNodes x = [])
          && negb (hasErrorMessage d e)))
    (map_to_list d).

End Form.

(** *** Sample pages *)

Module Samples.
Import Cards.

Definition card (class : string) : Element :=
  mkElement [class] (mkStyle "block" "1" "" "" "" "") None.

(** A feature card followed by three testimonials. *)
Definition threeTestimonials : Page :=
  mkPage [card "feature-card"; card "testimonial-card";
          card "testimonial-card"; card "testimonial-card"] None [] [].

(** A page whose only card is one testimonial, shown. *)
Definition loneTestimonial : Page :=
  mkPage [card "testimonial-card"] None [] [].

(** The testimonial lies 2000 pixels down a window 800 pixels high. *)
Definition belowTheFold : Viewport := mkViewport (fun _ => 2000 # 1)%Q 800.

(** A card already revealed by the scroll animations. *)
Definition revealedCard : Element :=
  mkElement ["pricing-card"]
    (mkStyle "" "1" "translateY(0)" "opacity 0.6s ease, transform 0.6s ease" "" "")
    None.

(** A page with a header (node 0), a navigation panel (1), a toggle (2) and
    a section with id 'pricing' (3) lying 500 pixels down; the header is
    [headerHeight] pixels high and the window 1024 pixels wide. *)
Definition pricingPage (headerHeight : Z) : SmoothScroll.Env :=
  SmoothScroll.mkEnv
    (fun selector =>
       if String.eqb selector "#pricing" then SmoothScroll.Found 3
       else SmoothScroll.Missing)
    (Some 0%nat) (Some 1%nat) (Some 2%nat)
    (fun n => if Nat.eqb n 3 then 500 else 0)
    (fun n => if Nat.eqb n 0 then headerHeight else 0)
    1024.

(** The same page without its header element. *)
Definition headlessPage : SmoothScroll.Env :=
  SmoothScroll.mkEnv
    (fun selector =>
       if String.eqb selector "#pricing" then SmoothScroll.Found 3
       else SmoothScroll.Missing)
    None (Some 1%nat) (Some 2%nat)
    (fun n => if Nat.eqb n 3 then 500 else 0)
    (fun _ => 0)
    1024.

Definition untouched : SmoothScroll.State :=
  SmoothScroll.mkState ∅ [] [] None false.

(** *** Sample forms *)

Definition element (tag : string) (required : bool) (classes : list string)
    (value : list N) (parent : option nat) (children : list nat) : Form.Node :=
  Form.mkNode true tag required classes value "" "" parent children.

Definition text (parent : option nat) : Form.Node :=
  Form.mkNode false "" false [] [] "" "" parent [].

(** A form (node 0) holding a required input with the value ' ' (1), a text
    node (2) and a required textarea with the value 'hi' (3). *)
Definition contactForm : gmap nat Form.Node :=
  list_to_map
    [(0, element "form" false [] [] None [1; 2; 3]);
     (1, element "input" true [] [32%N] (Some 0) []);
     (2, text (Some 0));
     (3, element "textarea" true [] [104%N; 105%N] (Some 0) [])]%nat.

(** A form whose required input, with the value 'x', is followed by two
    elements of class 'error-message'. *)
Definition staleMessages : gmap nat Form.Node :=
  list_to_map
    [(0, element "form" false [] [] None [1; 2; 3]);
     (1, element "input" true [] [120%N] (Some 0) []);
     (2, element "span" false ["error-message"] [] (Some 0) []);
     (3, element "span" false ["error-message"] [] (Some 0) [])]%nat.

(** A form whose second required input, empty, itself carries the class
    'error-message', after a first one with the value 'x'. *)
Definition classedField : gmap nat Form.Node :=
  list_to_map
    [(0, element "form" false [] [] None [1; 2]);
     (1, element "input" true [] [120%N] (Some 0) []);
     (2, element "input" true ["error-message"] [] (Some 0) [])]%nat.

(** A form whose second required input, empty, lies inside an element of
    class 'error-message' that follows the first one, with the value 'x'. *)
Definition wrappedField : gmap nat Form.Node :=
  list_to_map
    [(0, element "form" false [] [] None [1; 2]);
     (1, element "input" true [] [120%N] (Some 0) []);
     (2, element "div" false ["error-message"] [] (Some 0) [3]);
     (3, element "input" true [] [] (Some 2) [])]%nat.

End Samples.

(** ** Lazy loading ([initPerformanceOptimizations]) *)

Module LazyLoad.

(** An [img] element: its [src] attribute, its [data-src] attribute as
    [dataset.src] reads it ([None] is [undefined]) and its class list. *)
Record Image := mkImage {
  src : option string;
  dataSrc : option string;
  classList : list string
}.

(** An [IntersectionObserverEntry]. *)
Record Entry := mkEntry { target : nat; isIntersecting : bool }.

(** The images of the document, in document order and named by position,
    and the targets [imageObserver] observes. *)
Record State := mkState {
  images : list Image;
  observed : gset nat
}.

(** [img.src = v]: [undefined] is written as the string 'undefined'. *)
Definition set_src (v : option string) (img : Image) : Image :=
  mkImage (Some (default "undefined" v)) (dataSrc img) (classList img).

Definition classList_remove (c : string) (img : Image) : Image :=
  mkImage (src img) (dataSrc img) (filter (fun c' => c' ≠ c) (classList img)).

(** The three statements run for an intersecting entry. *)
Definition swap (st : State) (img : nat) : State :=
  let images1 := alter (fun i => set_src (dataSrc i) i) img (images st) in
  let images2 := alter (classList_remove "lazy") img images1 in
  mkState images2 (observed st ∖ {[img]}).

(** The observer's callback. *)
Definition onIntersection (entries : list Entry) (st : State) : State :=
  foldl (fun st entry =>
           if isIntersecting entry then swap st (target entry) else st)
        st entries.

Fixpoint queryFrom (i : nat) (imgs : list Image) : list nat :=
  match imgs with
  | [] => []
  | img :: rest =>
      ((if dataSrc img is Some _ then [i] else []) ++ queryFrom (S i) rest)%list
  end.

(** [document.querySelectorAll('img[data-src]')]. *)
Definition querySelectorAll (imgs : list Image) : list nat := queryFrom 0 imgs.

(** [initPerformanceOptimizations]; the flag is ['IntersectionObserver' in
    window]. *)
Definition initPerformanceOptimizations (hasIntersectionObserver : bool)
    (imgs : list Image) : State :=
  if hasIntersectionObserver then
    foldl (fun st img => mkState (images st) (observed st ∪ {[img]}))
          (mkState imgs ∅) (querySelectorAll imgs)
  else mkState imgs ∅.

(** The targets of the intersecting entries of a batch. *)
Definition intersecting (entries : list Entry) : list nat :=
  target <$> filter (fun e => isIntersecting e = true) entries.

(** What [swap] makes of an image. *)
Definition loaded (img : Image) : Image :=
  classList_remove "lazy" (set_src (dataSrc img) img).

End LazyLoad.

(** ** Keyboard and pointer modes ([initAccessibilityFeatures]) *)

Module Accessibility.

Inductive Event := KeyUp (key : string) | MouseDown.

(** [classList.add(c)] and [classList.remove(c)] on the class list of
    [document.documentElement]. *)
Definition classList_add (c : string) (l : list string) : list string :=
  if bool_decide (c ∈ l) then l else (l ++ [c])%list.
Definition classList_remove (c : string) (l : list string) : list string :=
  filter (fun c' => c' ≠ c) l.

(** The keyup and the mousedown listener on the document. *)
Definition handle (e : Event) (classes : list string) : list string :=
  match e with
  | KeyUp key =>
      if String.eqb key "Tab" then classList_add "keyboard-navigation" classes
      else classes
  | MouseDown => classList_remove "keyboard-navigation" classes
  end.

(** Whether the last Tab keyup or mousedown of a run of events was a Tab
    keyup; [start] when there was neither. *)
Definition keyboardMode (start : bool) (events : list Event) : bool :=
  foldl (fun mode e =>
           match e with
           | KeyUp key => if String.eqb key "Tab" then true else mode
           | MouseDown => false
           end) start events.

(** *** [trapFocus] *)

Record KeyEvent := mkKeyEvent { key : string; shiftKey : bool }.

(** [focusable] is what [focus()] depends on: whether an element takes the
    focus when asked (it is rendered and not disabled).  The selector of
    [trapFocus] also picks controls that do not, and no handler changes it. *)
Record State := mkState {
  activeElement : option nat;     (* [document.activeElement], [None] is [null] *)
  defaultPrevented : bool;
  focusable : nat → bool
}.

(** What [trapFocus] leaves to its listener: [focusableElements[0]] and
    [focusableElements[length - 1]], each [undefined] ([None]) when the list
    is empty. *)
Record Trap := mkTrap { firstElement : option nat; lastElement : option nat }.


(** [document.activeElement === x]: [null] is not [undefined]. *)
Definition same (active x : option nat) : bool :=
  match active, x with
  | Some a, Some b => Nat.eqb a b
  | _, _ => false
  end.

Definition preventDefault : M State unit :=
  modify (fun st => mkState (activeElement st) true (focusable st)).

(** [x.focus()]: a [TypeError] on [undefined]; the focus moves to [x] when
    [x] takes the focus and stays where it is otherwise. *)
Definition focus (x : option nat) : M State unit :=
  match x with
  | None => throw TypeError
  | Some n =>
      modify (fun st =>
        mkState (if focusable st n then Some n else activeElement st)
          (defaultPrevented st) (focusable st))
  end.

(** The keydown listener [trapFocus] puts on its element. *)
Definition onKeyDown (t : Trap) (e : KeyEvent) : M State unit :=
  if String.eqb (key e) "Tab" then
    active ← gets activeElement;
    if shiftKey e then
      if same active (firstElement t) then
        preventDefault ;; focus (lastElement t)
      else mret tt
    else
      if same active (lastElement t) then
        preventDefault ;; focus (firstElement t)
      else mret tt
  else mret tt.

End Accessibility.

(** ** The inline script's menu toggle and [showTestimonial] *)

Module InlineMenu.

(** The click listener the inline script puts on the toggle. *)
Definition onToggleClick (st : MobileMenu.State) : MobileMenu.State :=
  MobileMenu.mkState
    (if String.eqb (MobileMenu.navDisplay st) "flex" then "none" else "flex")
    (MobileMenu.ariaExpanded st) (MobileMenu.activeElement st)
    (MobileMenu.toggleFocusable st).

End InlineMenu.

Module InlineTestimonials.
Import Cards.

(** The inline script's [showTestimonial], over its top-level
    [testimonials]. *)
Definition showTestimonial (testimonials : list nat) (index : nat)
    (d : list Element) : list Element :=
  forEach testimonials
    (fun testimonial i d =>
       alter (set_style (set_display
                (if Nat.eqb i index then "block" else "none"))) testimonial d)
    d.

End InlineTestimonials.

(** ** Layout-shift monitoring (the second [PerformanceObserver]) *)

Module Monitoring.

Section Numbers.

(** JavaScript's numbers and their addition, left as they are. *)
Variable number : Type.
Variable plus : number → number → number.
Variable zero : number.

Record LayoutShift := mkLayoutShift { value : number; hadRecentInput : bool }.

(** The [clsValue] the callback logs for one list of entries. *)
Definition clsValue (entries : list LayoutShift) : number :=
  fold_left (fun clsValue entry =>
               if negb (hadRecentInput entry) then plus clsValue (value entry)
               else clsValue)
            entries zero.

End Numbers.

End Monitoring.

(** *** More sample pages *)

Module MoreSamples.

(** The page of [Samples.pricingPage] with one more anchor, whose href
    '#/pricing' is no selector. *)
Definition routedPage : SmoothScroll.Env :=
  SmoothScroll.mkEnv
    (fun selector =>
       if String.eqb selector "#pricing" then SmoothScroll.Found 3
       else if String.eqb selector "#/pricing" then SmoothScroll.BadSelector
       else SmoothScroll.Missing)
    (Some 0%nat) (Some 1%nat) (Some 2%nat)
    (fun n => if Nat.eqb n 3 then 500 else 0)
    (fun n => if Nat.eqb n 0 then 60 else 0)
    1024.

(** The same page in a window 600 pixels wide. *)
Definition narrowPage : SmoothScroll.Env :=
  SmoothScroll.mkEnv
    (fun selector =>
       if String.eqb selector "#pricing" then SmoothScroll.Found 3
       else SmoothScroll.Missing)
    (Some 0%nat) (Some 1%nat) (Some 2%nat)
    (fun n => if Nat.eqb n 3 then 500 else 0)
    (fun n => if Nat.eqb n 0 then 60 else 0)
    600.

(** Three images: one loaded from the start, two deferred. *)
Definition gallery : list LazyLoad.Image :=
  [LazyLoad.mkImage (Some "logo.png") None [];
   LazyLoad.mkImage None (Some "hero.jpg") ["lazy"];
   LazyLoad.mkImage None (Some "team.jpg") ["lazy"; "wide"]].

End MoreSamples.

(** * Properties *)

(** ** Sticky header *)

Lemma Qgtb_true (a b : Q) : Qgtb a b = true ↔ (b < a)%Q.
Proof.
  unfold Qgtb. rewrite negb_true_iff, <- not_true_iff_false, Qle_bool_iff.
  split; [apply Qnot_le_lt | apply Qlt_not_le].
Qed.

Lemma Qgtb_false (a b : Q) : Qgtb a b = false ↔ (a <= b)%Q.
Proof. unfold Qgtb. by rewrite negb_false_iff, Qle_bool_iff. Qed.

(** Without a header element the listener throws at its first assignment. *)
Lemma sticky_header_absent (y : Q) :
  StickyHeader.onScroll y (StickyHeader.mkState None)
  = Throw TypeError (StickyHeader.mkState None).
Proof. unfold StickyHeader.onScroll. by destruct (Qgtb y _). Qed.

(** C7: a scroll event at offset [y] leaves the header's padding at '10px 0'
    when [y] exceeds 100 and at '20px 0' otherwise, and the same event again
    changes nothing. *)
Theorem sticky_header_padding_by_offset (h : Style) (y : Q) :
  ∃ h', StickyHeader.onScroll y (StickyHeader.mkState (Some h))
        = Normal tt (StickyHeader.mkState (Some h'))
    ∧ ((100 # 1 < y)%Q → padding h' = "10px 0")
    ∧ ((y <= 100 # 1)%Q → padding h' = "20px 0")
    ∧ StickyHeader.onScroll y (StickyHeader.mkState (Some h'))
      = Normal tt (StickyHeader.mkState (Some h')).
Proof.
  unfold StickyHeader.onScroll.
  destruct (Qgtb y (100 # 1)) eqn:E; eexists; (split; [reflexivity|]).
  - apply Qgtb_true in E. repeat split; try done.
    intros L. exfalso. by apply (Qlt_not_le _ _ E).
  - apply Qgtb_false in E. repeat split; try done.
    intros L. exfalso. by apply (Qlt_not_le _ _ L).
Qed.

Example sticky_header_at_threshold :
  StickyHeader.onScroll (100 # 1) (StickyHeader.mkState (Some noStyle))
  = Normal tt (StickyHeader.mkState (Some
      (mkStyle "" "" "" "" "20px 0" "0 2px 10px rgba(0, 0, 0, 0.1)"))).
Proof. reflexivity. Qed.

Example sticky_header_just_above :
  StickyHeader.onScroll (201 # 2) (StickyHeader.mkState (Some noStyle))
  = Normal tt (StickyHeader.mkState (Some
      (mkStyle "" "" "" "" "10px 0" "0 5px 20px rgba(0, 0, 0, 0.1)"))).
Proof. reflexivity. Qed.

(** ** Mobile menu *)

Lemma onToggleClick_consistent st :
  MobileMenu.consistent (MobileMenu.onToggleClick st).
Proof.
  unfold MobileMenu.onToggleClick, MobileMenu.consistent.
  destruct (String.eqb _ _); simpl; split; congruence.
Qed.

Lemma onDocumentClick_consistent t st :
  MobileMenu.consistent st → MobileMenu.consistent (MobileMenu.onDocumentClick t st).
Proof.
  unfold MobileMenu.onDocumentClick, MobileMenu.consistent.
  destruct (_ && _); simpl; [split; congruence | done].
Qed.

Lemma onKeyDown_consistent key st :
  MobileMenu.consistent st → MobileMenu.consistent (MobileMenu.onKeyDown key st).
Proof.
  unfold MobileMenu.onKeyDown, MobileMenu.consistent.
  destruct (_ && _); simpl; [split; congruence | done].
Qed.

(** Every event keeps an agreement that already holds. *)
Lemma dispatch_consistent e st :
  MobileMenu.consistent st → MobileMenu.consistent (MobileMenu.dispatch e st).
Proof.
  destruct e as [t|key]; simpl; intros H.
  - apply onDocumentClick_consistent. destruct (MobileMenu.inToggle t); [|done].
    apply onToggleClick_consistent.
  - by apply onKeyDown_consistent.
Qed.

Lemma dispatch_all_consistent es st :
  MobileMenu.consistent st →
  MobileMenu.consistent (foldl (fun s e => MobileMenu.dispatch e s) st es).
Proof.
  revert st. induction es as [|e es IH]; simpl; [done|].
  intros st H. by apply IH, dispatch_consistent.
Qed.

(** C5: from the closed state a click on the toggle opens the menu and a
    second click returns exactly the closed state. *)
Theorem toggle_twice_returns_closed (st : MobileMenu.State) (n1 n2 : bool) :
  MobileMenu.closed st →
  let click n := MobileMenu.dispatch (MobileMenu.Click (MobileMenu.mkTarget n true)) in
  MobileMenu.navDisplay (click n1 st) = "flex"
  ∧ MobileMenu.ariaExpanded (click n1 st) = Some "true"
  ∧ MobileMenu.closed (click n2 (click n1 st))
  ∧ click n2 (click n1 st) = st.
Proof.
  destruct st as [d a f t]. intros [Hd Ha]; simpl in *; subst.
  by destruct n1, n2.
Qed.

Lemma toggle_twice_returns_closed_witness :
  let st := MobileMenu.mkState "none" (Some "false") None true in
  let click n := MobileMenu.dispatch (MobileMenu.Click (MobileMenu.mkTarget n true)) in
  MobileMenu.closed st ∧ MobileMenu.closed (click false (click false st)).
Proof.
  split; [by split|].
  apply (toggle_twice_returns_closed
           (MobileMenu.mkState "none" (Some "false") None true) false false).
  by split.
Defined.

(** The toggle is an involution on the open state as well. *)
Lemma toggle_twice_returns_open (f : option MobileMenu.Elem) (t n1 n2 : bool) :
  let click n := MobileMenu.dispatch (MobileMenu.Click (MobileMenu.mkTarget n true)) in
  let st := MobileMenu.mkState "flex" (Some "true") f t in
  click n2 (click n1 st) = st.
Proof. by destruct n1, n2. Qed.

(** C9: once a click on the toggle, a click outside or Escape on the open
    menu has been handled, [aria-expanded] is 'true' exactly when the panel's
    display is 'flex', and every later event keeps it so. *)
Theorem menu_aria_agrees_with_display
  (e : MobileMenu.Event) (later : list MobileMenu.Event) (st : MobileMenu.State) :
  MobileMenu.acts e st = true →
  MobileMenu.consistent (MobileMenu.dispatch e st)
  ∧ MobileMenu.consistent
      (foldl (fun s e' => MobileMenu.dispatch e' s) (MobileMenu.dispatch e st) later).
Proof.
  intros Hacts.
  assert (MobileMenu.consistent (MobileMenu.dispatch e st)) as H.
  { destruct e as [[n t]|key]; simpl in *.
    - destruct t; simpl in *.
      + apply onDocumentClick_consistent, onToggleClick_consistent.
      + unfold MobileMenu.onDocumentClick. simpl.
        rewrite Hacts. split; simpl; congruence.
    - unfold MobileMenu.onKeyDown. rewrite Hacts. split; simpl; congruence. }
  split; [done|]. by apply dispatch_all_consistent.
Qed.

Lemma menu_aria_agrees_with_display_witness :
  let st := MobileMenu.mkState "" (Some "true") None true in
  let e := MobileMenu.Click (MobileMenu.mkTarget false true) in
  MobileMenu.consistent (MobileMenu.dispatch e st)
  ∧ MobileMenu.consistent
      (foldl (fun s e' => MobileMenu.dispatch e' s) (MobileMenu.dispatch e st)
         [MobileMenu.KeyDown "Escape"; MobileMenu.Click (MobileMenu.mkTarget true false)]).
Proof.
  apply (menu_aria_agrees_with_display
           (MobileMenu.Click (MobileMenu.mkTarget false true))
           [MobileMenu.KeyDown "Escape"; MobileMenu.Click (MobileMenu.mkTarget true false)]
           (MobileMenu.mkState "" (Some "true") None true)).
  reflexivity.
Defined.

(** ** Node lists and [forEach] *)

Section NodeLists.
Import Cards.

Lemma elem_of_queryFrom sel i d id :
  id ∈ queryFrom sel i d ↔
  (i ≤ id)%nat ∧ ∃ e, d !! (id - i)%nat = Some e ∧ matches sel e = true.
Proof.
  revert i. induction d as [|e d IH]; intros i; simpl.
  - split; [by intros ?%elem_of_nil | by intros (_ & ? & ? & _)].
  - rewrite elem_of_app, IH. split.
    + intros [H | (Hle & e' & Hl & Hm)].
      * destruct (matches sel e) eqn:E; [|by apply elem_of_nil in H].
        apply list_elem_of_singleton in H as ->. split; [lia|].
        exists e. by rewrite Nat.sub_diag.
      * split; [lia|]. exists e'. split; [|done].
        by replace (id - i)%nat with (S (id - S i)) by lia.
    + intros (Hle & e' & Hl & Hm).
      destruct (decide (id = i)) as [->|Hne].
      * left. rewrite Nat.sub_diag in Hl. simpl in Hl. simplify_eq.
        rewrite Hm. by apply list_elem_of_singleton.
      * right. split; [lia|]. exists e'. split; [|done].
        by replace (id - i)%nat with (S (id - S i)) in Hl by lia.
Qed.

Lemma queryFrom_NoDup sel i d : NoDup (queryFrom sel i d).
Proof.
  revert i. induction d as [|e d IH]; intros i; simpl; [constructor|].
  apply NoDup_app. split_and!; [|  | apply IH].
  - destruct (matches sel e); [apply NoDup_singleton | constructor].
  - intros x Hx Hx'. apply elem_of_queryFrom in Hx' as [? _].
    destruct (matches sel e); [|by apply elem_of_nil in Hx].
    apply list_elem_of_singleton in Hx. lia.
Qed.

Lemma querySelectorAll_NoDup sel d : NoDup (querySelectorAll sel d).
Proof. apply queryFrom_NoDup. Qed.

Lemma elem_of_querySelectorAll sel d id :
  id ∈ querySelectorAll sel d ↔ ∃ e, d !! id = Some e ∧ matches sel e = true.
Proof.
  unfold querySelectorAll. rewrite elem_of_queryFrom, Nat.sub_0_r.
  split; [by intros [_ ?] | intros ?; split; [lia | done]].
Qed.

Lemma querySelectorAll_lt sel d id :
  id ∈ querySelectorAll sel d → (id < length d)%nat.
Proof.
  intros (e & Hl & _)%elem_of_querySelectorAll. by apply lookup_lt_Some in Hl.
Qed.

(** Altering elements leaves a query by class as it was, as long as the
    class lists are kept. *)
Lemma queryFrom_alter sel i d f k :
  (∀ e, classList (f e) = classList e) →
  queryFrom sel i (alter f k d) = queryFrom sel i d.
Proof.
  intros Hf. revert i k. induction d as [|e d IH]; intros i k; [done|].
  destruct k as [|k]; simpl.
  - unfold matches. by rewrite Hf.
  - f_equal. apply IH.
Qed.

(** A loop whose body alters the visited node only. *)
Lemma forEachFrom_alter_length i nodes (g : nat → nat → Element → Element) d :
  length (forEachFrom i nodes (fun node j => alter (g node j) node) d) = length d.
Proof.
  revert i d. induction nodes as [|n nodes IH]; intros i d; cbn [forEachFrom]; [done|].
  by rewrite IH, length_alter.
Qed.

Lemma forEachFrom_alter_other i nodes (g : nat → nat → Element → Element) d k :
  k ∉ nodes →
  forEachFrom i nodes (fun node j => alter (g node j) node) d !! k = d !! k.
Proof.
  revert i d. induction nodes as [|n nodes IH]; intros i d Hk; cbn [forEachFrom]; [done|].
  apply not_elem_of_cons in Hk as [Hne Hk].
  rewrite IH by done. by apply list_lookup_alter_ne.
Qed.

Lemma forEachFrom_alter_at i nodes (g : nat → nat → Element → Element) d j k :
  NoDup nodes → nodes !! j = Some k →
  forEachFrom i nodes (fun node j => alter (g node j) node) d !! k
  = g k (i + j)%nat <$> d !! k.
Proof.
  revert i d j. induction nodes as [|n nodes IH]; intros i d j Hnd Hj; [done|].
  apply NoDup_cons in Hnd as [Hn Hnd]. destruct j as [|j]; cbn [forEachFrom]; simpl in Hj.
  - simplify_eq. rewrite forEachFrom_alter_other by done.
    by rewrite Nat.add_0_r, list_lookup_alter_eq.
  - rewrite (IH _ _ j) by done.
    assert (n ≠ k) by (intros ->; apply Hn; by eapply list_elem_of_lookup_2).
    rewrite list_lookup_alter_ne by done. f_equal. f_equal. lia.
Qed.

(** Such a loop keeps every query by class, when the class lists are kept. *)
Lemma forEachFrom_alter_query sel i nodes (g : nat → nat → Element → Element) d :
  (∀ n j e, classList (g n j e) = classList e) →
  querySelectorAll sel (forEachFrom i nodes (fun node j => alter (g node j) node) d)
  = querySelectorAll sel d.
Proof.
  intros Hg. revert i d.
  induction nodes as [|n nodes IH]; intros i d; cbn [forEachFrom]; [done|].
  rewrite IH. by apply queryFrom_alter.
Qed.

Lemma forEachFrom_ext i nodes body1 body2 d :
  (∀ n j d, body1 n j d = body2 n j d) →
  forEachFrom i nodes body1 d = forEachFrom i nodes body2 d.
Proof.
  intros H. revert i d. induction nodes as [|n nodes IH]; intros i d; simpl; [done|].
  by rewrite H, IH.
Qed.

End NodeLists.

(** ** Testimonial rotator *)

Section Rotator.
Import Cards.

(** What one run of [showTestimonial] leaves on the cards. *)
Lemma showTestimonial_spec index s d :
  NoDup (testimonials s) →
  (∀ id, id ∈ testimonials s → (id < length d)%nat) →
  let '(s', d') := showTestimonial index s d in
  s' = mkSlider (testimonials s) index
  ∧ length d' = length d
  ∧ (∀ k, k ∉ testimonials s → d' !! k = d !! k)
  ∧ (∀ j id, testimonials s !! j = Some id →
       ∃ e, d' !! id = Some e
         ∧ display (style e) = (if Nat.eqb j index then "block" else "none")
         ∧ ariaHidden e = Some (boolString (negb (Nat.eqb j index)))).
Proof.
  intros Hnd Hlt. unfold showTestimonial, forEach.
  set (g := fun (_ : nat) (i : nat) =>
    set_ariaHidden (boolString (negb (Nat.eqb i index)))
    ∘ set_style (set_display (if Nat.eqb i index then "block" else "none"))).
  rewrite (forEachFrom_ext _ _ _ (fun node j => alter (g node j) node))
    by (intros; unfold g; by rewrite list_alter_alter_eq).
  split_and!; [done | apply forEachFrom_alter_length | | ].
  - intros k Hk. by apply forEachFrom_alter_other.
  - intros j id Hj.
    rewrite (forEachFrom_alter_at _ _ g _ j) by done.
    destruct (lookup_lt_is_Some_2 d id) as [e He].
    { apply Hlt. by eapply list_elem_of_lookup_2. }
    rewrite He. by eexists.
Qed.

(** C1: with at least two testimonial cards, after the initial call and any
    number [k] of timer ticks the card at position [k mod N] has display
    'block' and every other card has display 'none' (the cards are distinct
    elements, so exactly one is shown), and the next tick moves the shown
    position from [c] to [(c + 1) mod N]. *)
Theorem testimonial_rotation (p0 : Page) (k : nat) :
  let ts := querySelectorAll ["testimonial-card"] (doc p0) in
  let N := length ts in
  (2 ≤ N)%nat →
  let p := Nat.iter k tick (initTestimonialsSlider p0) in
  NoDup ts
  ∧ (k mod N < N)%nat
  ∧ slider p = Some (mkSlider ts (k mod N))
  ∧ (∀ j id, ts !! j = Some id →
       ∃ e, doc p !! id = Some e
         ∧ display (style e) = (if Nat.eqb j (k mod N) then "block" else "none"))
  ∧ slider (tick p) = Some (mkSlider ts ((k mod N + 1) mod N))
  ∧ timers p = (timers p0 ++ [mkTimer RotateTestimonials 5000])%list.
Proof.
  intros ts N HN.
  assert (NoDup ts) as Hnd by apply querySelectorAll_NoDup.
  assert (∀ d : list Element,
    length d = length (doc p0) → ∀ id, id ∈ ts → (id < length d)%nat)
    as Hlt by (intros d -> id Hid; by eapply querySelectorAll_lt).
  assert (∀ p c,
    slider p = Some (mkSlider ts c) → length (doc p) = length (doc p0) →
    slider (tick p) = Some (mkSlider ts ((c + 1) mod N))
    ∧ length (doc (tick p)) = length (doc p0)
    ∧ timers (tick p) = timers p
    ∧ (∀ j id, ts !! j = Some id →
         ∃ e, doc (tick p) !! id = Some e
           ∧ display (style e)
             = (if Nat.eqb j ((c + 1) mod N) then "block" else "none")))
    as Htick.
  { intros p c Hs Hlen. unfold tick. rewrite Hs. cbn [testimonials currentTestimonial].
    pose proof (showTestimonial_spec ((c + 1) mod N) (mkSlider ts c) (doc p)
                  Hnd (Hlt _ Hlen)) as Hshow.
    fold N. destruct (showTestimonial _ _ _) as [s' d'].
    destruct Hshow as (-> & Hl & _ & Hd). cbn. split_and!; [done | congruence | done |].
    intros j id Hj. destruct (Hd j id Hj) as (e & ? & ? & _). eauto. }
  intros p.
  cut (slider p = Some (mkSlider ts (k mod N))
       ∧ length (doc p) = length (doc p0)
       ∧ timers p = (timers p0 ++ [mkTimer RotateTestimonials 5000])%list
       ∧ (∀ j id, ts !! j = Some id →
            ∃ e, doc p !! id = Some e
              ∧ display (style e) = (if Nat.eqb j (k mod N) then "block" else "none"))).
  { intros (Hs & Hl & Ht & Hd).
    destruct (Htick p _ Hs Hl) as (Hs' & _).
    split_and!; try done. apply Nat.mod_upper_bound. lia. }
  subst p. induction k as [|k IH].
  - cbn [Nat.iter]. unfold initTestimonialsSlider. fold ts. fold N.
    destruct (Nat.leb_spec N 1) as [|_]; [lia|].
    pose proof (showTestimonial_spec 0 (mkSlider ts 0) (doc p0)
                  Hnd (Hlt _ eq_refl)) as Hshow.
    destruct (showTestimonial _ _ _) as [s' d'].
    destruct Hshow as (-> & Hl & _ & Hd). cbn.
    rewrite Nat.Div0.mod_0_l. split_and!; try done.
    intros j id Hj. destruct (Hd j id Hj) as (e & ? & ? & _). eauto.
  - rewrite Nat.iter_succ. destruct IH as (Hs & Hl & Ht & Hd).
    destruct (Htick _ _ Hs Hl) as (Hs' & Hl' & Ht' & Hd').
    replace (S k mod N)%nat with ((k mod N + 1) mod N)%nat
      by (rewrite Nat.Div0.add_mod_idemp_l; f_equal; lia).
    split_and!; [done | done | congruence | done].
Qed.

End Rotator.

Lemma testimonial_rotation_witness :
  (2 ≤ 3)%nat
  ∧ Cards.slider (Nat.iter 4 Cards.tick
                    (Cards.initTestimonialsSlider Samples.threeTestimonials))
    = Some (Cards.mkSlider [1; 2; 3]%nat 1).
Proof.
  split; [lia|].
  assert (2 ≤ length (Cards.querySelectorAll ["testimonial-card"]
                        (Cards.doc Samples.threeTestimonials)))%nat as H
    by (vm_compute; lia).
  exact (proj1 (proj2 (proj2 (testimonial_rotation Samples.threeTestimonials 4 H)))).
Defined.

(** ** Scroll animations *)

Section ScrollAnimations.
Import Cards.

(** What [animateOnScroll] does to one matching element. *)
Lemma animateOnScroll_lookup v d k :
  animateOnScroll v d !! k
  = (fun e =>
       if matches animated e
          && Qltb (rectTop v k) (inject_Z (innerHeight v - 150))
       then set_style (set_transform "translateY(0)")
              (set_style (set_opacity "1") e)
       else e) <$> d !! k.
Proof.
  unfold animateOnScroll, forEach.
  set (g := fun (node _ : nat) =>
    if Qltb (rectTop v node) (inject_Z (innerHeight v - 150))
    then set_style (set_transform "translateY(0)") ∘ set_style (set_opacity "1")
    else id).
  rewrite (forEachFrom_ext _ _ _ (fun node j => alter (g node j) node)).
  2:{ intros n j d'. unfold g. destruct (Qltb _ _).
      - by rewrite list_alter_alter_eq.
      - by rewrite list_alter_id. }
  destruct (d !! k) as [e|] eqn:He.
  - destruct (matches animated e) eqn:Hm.
    + assert (k ∈ querySelectorAll animated d) as Hin
        by (apply elem_of_querySelectorAll; eauto).
      apply list_elem_of_lookup_1 in Hin as [j Hj].
      rewrite (forEachFrom_alter_at _ _ g _ j _ (querySelectorAll_NoDup _ _) Hj).
      rewrite He. unfold g. cbn -[matches animated Qltb]. rewrite Hm.
      by destruct (Qltb _ _).
    + rewrite forEachFrom_alter_other, He; [cbn -[matches animated]; by rewrite Hm|].
      intros (e' & He' & Hm')%elem_of_querySelectorAll. congruence.
  - apply lookup_ge_None. rewrite forEachFrom_alter_length.
    by apply lookup_ge_None.
Qed.

Lemma matches_set_style sel f e : matches sel (set_style f e) = matches sel e.
Proof. done. Qed.

Lemma doc_onScroll_events (p : Page) (events : list Viewport) :
  doc (foldl (fun p v => onScroll v p) p events)
  = foldl (fun d v => animateOnScroll v d) (doc p) events
  ∧ slider (foldl (fun p v => onScroll v p) p events) = slider p
  ∧ timers (foldl (fun p v => onScroll v p) p events) = timers p
  ∧ scrollListeners (foldl (fun p v => onScroll v p) p events) = scrollListeners p.
Proof.
  revert p. induction events as [|v events IH]; intros p; [done|].
  cbn [foldl]. destruct (IH (onScroll v p)) as (-> & -> & -> & ->). done.
Qed.

(** What a run of [animateOnScroll] calls does to one element. *)
Lemma animateOnScroll_events_lookup (d : list Element) (events : list Viewport) (id : nat) :
  foldl (fun d v => animateOnScroll v d) d events !! id
  = (fun e =>
       if matches animated e
          && existsb (fun v => Qltb (rectTop v id) (inject_Z (innerHeight v - 150)))
               events
       then set_style (set_transform "translateY(0)") (set_style (set_opacity "1") e)
       else e) <$> d !! id.
Proof.
  revert d. induction events as [|v events IH]; intros d; cbn [foldl existsb].
  - destruct (d !! id); [|done]. cbn. by rewrite andb_false_r.
  - rewrite IH, animateOnScroll_lookup. destruct (d !! id) as [e|]; [|done].
    cbn -[matches animated Qltb]. f_equal.
    destruct (matches animated e) eqn:Hm; cbn -[matches animated Qltb].
    + destruct (Qltb (rectTop v id) _); cbn -[matches animated Qltb].
      * rewrite !matches_set_style, Hm. cbn -[matches animated Qltb].
        by destruct (existsb _ _), e as [c [] a].
      * by rewrite Hm.
    + by rewrite Hm.
Qed.

Lemma animateOnScroll_keeps_revealed v d id e :
  d !! id = Some e → revealed e → animateOnScroll v d !! id = Some e.
Proof.
  intros He [Ho Ht]. rewrite animateOnScroll_lookup, He. simpl. f_equal.
  destruct (_ && _); [|done].
  destruct e as [c [] a]; simpl in *. by subst.
Qed.

(** C8: an element with opacity 1 and offset 0 is left exactly as it is by
    every later scroll event of this controller, wherever the viewport then
    stands. *)
Theorem reveal_is_one_way
  (p : Page) (id : nat) (e : Element) (events : list Viewport) :
  doc p !! id = Some e → revealed e →
  doc (foldl (fun p v => onScroll v p) p events) !! id = Some e.
Proof.
  revert p. induction events as [|v events IH]; intros p He Hr; simpl; [done|].
  apply IH; [|done]. by apply animateOnScroll_keeps_revealed.
Qed.

Lemma reveal_is_one_way_witness :
  let p := mkPage [Samples.revealedCard] None [] [] in
  doc (foldl (fun p v => onScroll v p) p
         [Samples.belowTheFold; mkViewport (fun _ => (-300) # 1)%Q 800;
          Samples.belowTheFold])
    !! 0%nat = Some Samples.revealedCard.
Proof.
  apply (reveal_is_one_way (mkPage [Samples.revealedCard] None [] []) 0
           Samples.revealedCard); [reflexivity | by split].
Defined.

End ScrollAnimations.

(** ** Start-up with at most one testimonial *)

Section SingleTestimonial.
Import Cards.

(** The state [initScrollAnimations] first gives an animated element. *)
Lemma initial_state_lookup (d : list Element) k :
  forEach (querySelectorAll animated d)
    (fun element _ d =>
       alter (set_style (set_transition "opacity 0.6s ease, transform 0.6s ease"))
         element
         (alter (set_style (set_transform "translateY(20px)")) element
            (alter (set_style (set_opacity "0")) element d))) d !! k
  = (fun e =>
       if matches animated e
       then set_style (set_transition "opacity 0.6s ease, transform 0.6s ease")
              (set_style (set_transform "translateY(20px)")
                 (set_style (set_opacity "0") e))
       else e) <$> d !! k.
Proof.
  unfold forEach.
  set (g := fun (_ _ : nat) =>
    set_style (set_transition "opacity 0.6s ease, transform 0.6s ease")
    ∘ (set_style (set_transform "translateY(20px)")
       ∘ set_style (set_opacity "0"))).
  rewrite (forEachFrom_ext _ _ _ (fun node j => alter (g node j) node))
    by (intros; unfold g; by rewrite !list_alter_alter_eq).
  destruct (d !! k) as [e|] eqn:He.
  - destruct (matches animated e) eqn:Hm.
    + assert (k ∈ querySelectorAll animated d) as Hin
        by (apply elem_of_querySelectorAll; eauto).
      apply list_elem_of_lookup_1 in Hin as [j Hj].
      rewrite (forEachFrom_alter_at _ _ g _ j _ (querySelectorAll_NoDup _ _) Hj).
      rewrite He. cbn -[matches animated]. by rewrite Hm.
    + rewrite forEachFrom_alter_other, He; [cbn -[matches animated]; by rewrite Hm|].
      intros (e' & He' & Hm')%elem_of_querySelectorAll. congruence.
  - apply lookup_ge_None. rewrite forEachFrom_alter_length.
    by apply lookup_ge_None.
Qed.

Lemma testimonial_is_animated e :
  matches ["testimonial-card"] e = true → matches animated e = true.
Proof.
  unfold matches, animated. simpl. rewrite !orb_false_r.
  intros ->. by rewrite !orb_true_r.
Qed.

(** With at most one testimonial the rotator returns at its guard. *)
Lemma rotator_is_a_no_op p :
  (length (querySelectorAll ["testimonial-card"] (doc p)) ≤ 1)%nat →
  initTestimonialsSlider p = p.
Proof.
  intros H. unfold initTestimonialsSlider.
  by destruct (Nat.leb_spec (length (querySelectorAll ["testimonial-card"] (doc p))) 1);
    [|lia].
Qed.

(** The state [initScrollAnimations] gives an element before its first
    check. *)
Lemma initScrollAnimations_lookup (v : Viewport) (p : Page) (id : nat) :
  doc (initScrollAnimations v p) !! id
  = (fun e =>
       if matches animated e then
         let seen := Qltb (rectTop v id) (inject_Z (innerHeight v - 150)) in
         set_style (fun s =>
           mkStyle (display s) (if seen then "1" else "0")
             (if seen then "translateY(0)" else "translateY(20px)")
             "opacity 0.6s ease, transform 0.6s ease" (padding s) (boxShadow s)) e
       else e) <$> doc p !! id.
Proof.
  unfold initScrollAnimations. cbn [doc]. rewrite animateOnScroll_lookup.
  pose proof (initial_state_lookup (doc p) id) as Hinit.
  unfold forEach in *. rewrite Hinit. destruct (doc p !! id) as [e|]; [|done].
  cbn -[matches animated Qltb]. f_equal.
  destruct (matches animated e) eqn:Hm.
  - rewrite !matches_set_style, Hm. cbn -[matches animated Qltb].
    by destruct (Qltb _ _).
  - by rewrite Hm.
Qed.

(** C4, as the code has it: with at most one testimonial card, none
    included, the rotator registers no timer and changes nothing.  The
    scroll animations set up next register no timer either; they leave the
    card, if there is one, with its display and its [aria-hidden], through
    start-up and every later scroll event, and give it opacity 0: it has
    opacity 1 after start-up only when its top edge is less than the window
    height minus 150 at that moment, and later only once a scroll event has
    found it so. *)
Theorem lone_testimonial_left_to_scroll_animations
  (v : Viewport) (later : list Viewport) (p : Page) :
  let ts := querySelectorAll ["testimonial-card"] (doc p) in
  (length ts ≤ 1)%nat →
  let p' := foldl (fun p w => onScroll w p) (init v p) later in
  initTestimonialsSlider p = p
  ∧ timers (init v p) = timers p ∧ slider (init v p) = slider p
  ∧ timers p' = timers p ∧ slider p' = slider p
  ∧ ∀ id, id ∈ ts →
      ∃ e e' e'',
        doc p !! id = Some e
        ∧ doc (init v p) !! id = Some e' ∧ doc p' !! id = Some e''
        ∧ display (style e') = display (style e) ∧ ariaHidden e' = ariaHidden e
        ∧ display (style e'') = display (style e) ∧ ariaHidden e'' = ariaHidden e
        ∧ opacity (style e')
          = (if Qltb (rectTop v id) (inject_Z (innerHeight v - 150))
             then "1" else "0")
        ∧ opacity (style e'')
          = (if Qltb (rectTop v id) (inject_Z (innerHeight v - 150))
                || existsb (fun w => Qltb (rectTop w id) (inject_Z (innerHeight w - 150)))
                     later
             then "1" else "0").
Proof.
  intros ts HN p'. pose proof (rotator_is_a_no_op p HN) as Hno.
  destruct (doc_onScroll_events (init v p) later) as (Hdoc & Hs & Ht & _).
  fold p' in Hdoc, Hs, Ht. unfold init in *. rewrite Hno in *.
  split_and!; [done | done | done | by rewrite Ht | by rewrite Hs |].
  intros id Hin.
  apply elem_of_querySelectorAll in Hin as (e & He & Hm).
  apply testimonial_is_animated in Hm.
  exists e. rewrite Hdoc, animateOnScroll_events_lookup, initScrollAnimations_lookup, He.
  cbn -[matches animated Qltb existsb]. rewrite Hm.
  eexists _, _. split_and!; [done | reflexivity | reflexivity | .. ].
  - done.
  - done.
  - rewrite matches_set_style, Hm. by destruct (_ && _), e as [c [] a].
  - rewrite matches_set_style, Hm. by destruct (_ && _), e as [c [] a].
  - cbn -[Qltb]. done.
  - rewrite matches_set_style, Hm. cbn -[Qltb existsb].
    by destruct (Qltb (rectTop v id) _), (existsb _ _), e as [c [] a].
Qed.

(** The lone testimonial of the sample page, 2000 pixels down at start-up
    and 100 pixels down at the second of two later scroll events. *)
Lemma lone_testimonial_left_to_scroll_animations_witness :
  let p := Samples.loneTestimonial in
  let v := Samples.belowTheFold in
  let later := [Samples.belowTheFold; mkViewport (fun _ => 100 # 1)%Q 800] in
  let p' := foldl (fun p w => onScroll w p) (init v p) later in
  initTestimonialsSlider p = p
  ∧ timers (init v p) = timers p ∧ slider (init v p) = slider p
  ∧ timers p' = timers p ∧ slider p' = slider p
  ∧ ∀ id, id ∈ querySelectorAll ["testimonial-card"] (doc p) →
      ∃ e e' e'',
        doc p !! id = Some e
        ∧ doc (init v p) !! id = Some e' ∧ doc p' !! id = Some e''
        ∧ display (style e') = display (style e) ∧ ariaHidden e' = ariaHidden e
        ∧ display (style e'') = display (style e) ∧ ariaHidden e'' = ariaHidden e
        ∧ opacity (style e')
          = (if Qltb (rectTop v id) (inject_Z (innerHeight v - 150))
             then "1" else "0")
        ∧ opacity (style e'')
          = (if Qltb (rectTop v id) (inject_Z (innerHeight v - 150))
                || existsb (fun w => Qltb (rectTop w id) (inject_Z (innerHeight w - 150)))
                     later
             then "1" else "0").
Proof.
  apply (lone_testimonial_left_to_scroll_animations Samples.belowTheFold
           [Samples.belowTheFold; mkViewport (fun _ => 100 # 1)%Q 800]
           Samples.loneTestimonial).
  vm_compute. lia.
Defined.

(** C4 as the specification words it does not hold: a page whose single
    testimonial is shown has it transparent once [init] has run, because the
    card lies below the reveal line. *)
Lemma lone_testimonial_hidden_after_init :
  length (querySelectorAll ["testimonial-card"] (doc Samples.loneTestimonial)) = 1%nat
  ∧ visible <$> doc Samples.loneTestimonial !! 0%nat = Some true
  ∧ timers (init Samples.belowTheFold Samples.loneTestimonial) = []
  ∧ visible <$> doc (init Samples.belowTheFold Samples.loneTestimonial) !! 0%nat
    = Some false.
Proof. by vm_compute. Qed.

End SingleTestimonial.

(** ** Smooth scrolling *)

Section SmoothScrolling.
Import SmoothScroll.

Lemma eqb_hash_false (href : string) : href ≠ "#" → String.eqb href "#" = false.
Proof. intros H. by apply String.eqb_neq. Qed.

(** The handler of [script.js]: the position asked for is the target's
    [offsetTop] minus the header's [offsetHeight], both as the page has them
    at this click, and the fragment is pushed onto the history. *)
Lemma smooth_scroll_request (env : Env) (st : State) (href : string) (target h : nat) :
  href ≠ "#" → query env href = Found target → header env = Some h →
  ∃ st', onAnchorClick env href st = Normal tt st'
    ∧ scrollRequests st'
      = (scrollRequests st
           ++ [mkScrollTo (offsetTop env target - offsetHeight env h) "smooth"])%list
    ∧ history st' = href :: history st
    ∧ activeElement st' = Some target
    ∧ defaultPrevented st' = true.
Proof.
  intros Hne Hq Hh. unfold onAnchorClick, querySelector, offsetHeightOf.
  cbn -[String.eqb Z.leb insert delete element].
  rewrite (eqb_hash_false _ Hne), Hq, Hh.
  destruct (innerWidth env <=? 768)%Z, (navLinks env), (mobileMenu env);
    cbn -[insert delete element]; eexists; (split; [reflexivity|]);
    cbn [scrollRequests history activeElement defaultPrevented];
    repeat split.
Qed.

(** C6, as the code has it: a click on an anchor whose href is a selector
    that finds no element ([document.querySelector] answers [null]) returns
    normally and leaves the scroll requests, the history, the focus and
    every element as they were; only the default navigation is prevented. *)
Theorem anchor_without_target_is_inert (env : Env) (st : State) (href : string) :
  query env href = Missing →
  onAnchorClick env href st = Normal tt (onlyPrevented st).
Proof.
  intros Hq. unfold onAnchorClick, querySelector. cbn -[String.eqb].
  destruct (String.eqb href "#"); [done|]. by rewrite Hq.
Qed.

Lemma anchor_without_target_is_inert_witness :
  onAnchorClick (Samples.pricingPage 60) "#nonexistent" Samples.untouched
  = Normal tt (onlyPrevented Samples.untouched).
Proof.
  apply (anchor_without_target_is_inert (Samples.pricingPage 60)
           Samples.untouched "#nonexistent").
  reflexivity.
Defined.

(** C6 as the specification words it does not hold: the href '#/pricing'
    starts with '#' and selects no element, since it is no selector at all;
    the lookup throws a SyntaxError, and the click ends with it. *)
Lemma anchor_with_unparsable_href_throws :
  String.prefix "#" "#/pricing" = true
  ∧ query MoreSamples.routedPage "#/pricing" = BadSelector
  ∧ onAnchorClick MoreSamples.routedPage "#/pricing" Samples.untouched
    = Throw SyntaxError (onlyPrevented Samples.untouched)
  ∧ threw (onAnchorClick MoreSamples.routedPage "#/pricing" Samples.untouched) = true.
Proof. by vm_compute. Qed.

(** The bare '#' never reaches the lookup. *)
Lemma bare_hash_is_inert (env : Env) (st : State) :
  onAnchorClick env "#" st = Normal tt (onlyPrevented st).
Proof. reflexivity. Qed.

(** A href that is no selector makes the lookup itself throw. *)
Lemma bad_selector_throws (env : Env) (st : State) (href : string) :
  href ≠ "#" → query env href = BadSelector →
  onAnchorClick env href st = Throw SyntaxError (onlyPrevented st).
Proof.
  intros Hne Hq. unfold onAnchorClick, querySelector. cbn -[String.eqb].
  by rewrite (eqb_hash_false _ Hne), Hq.
Qed.

(** C10: once the target is found the handler reads the header's height
    before anything else: with a header the click completes and the scroll
    request carries that height; without one the handler throws a TypeError
    having scrolled, pushed, closed and focused nothing. *)
Theorem smooth_scroll_needs_header
  (env : Env) (st : State) (href : string) (target : nat) :
  href ≠ "#" → query env href = Found target →
  match header env with
  | Some h =>
      ∃ st', onAnchorClick env href st = Normal tt st'
        ∧ scrollRequests st'
          = (scrollRequests st
               ++ [mkScrollTo (offsetTop env target - offsetHeight env h) "smooth"])%list
  | None => onAnchorClick env href st = Throw TypeError (onlyPrevented st)
  end.
Proof.
  intros Hne Hq. destruct (header env) as [h|] eqn:Hh.
  - destruct (smooth_scroll_request env st href target h Hne Hq Hh)
      as (st' & ? & ? & _). eauto.
  - unfold onAnchorClick, querySelector. cbn -[String.eqb].
    by rewrite (eqb_hash_false _ Hne), Hq, Hh.
Qed.

Lemma smooth_scroll_needs_header_witness :
  onAnchorClick Samples.headlessPage "#pricing" Samples.untouched
  = Throw TypeError (onlyPrevented Samples.untouched).
Proof.
  apply (smooth_scroll_needs_header Samples.headlessPage Samples.untouched
           "#pricing" 3); [done | reflexivity].
Defined.

(** The inline script's handler asks for [offsetTop - 80] whatever the
    header's height, and pushes nothing onto the history. *)
Lemma inline_scroll_request
  (env : Env) (nav : option nat) (st : State) (href : string) (target : nat) :
  href ≠ "#" → query env href = Found target →
  let st' := final (InlineScript.onAnchorClick env nav href st) in
  scrollRequests st'
  = (scrollRequests st ++ [mkScrollTo (offsetTop env target - 80) "smooth"])%list
  ∧ history st' = history st.
Proof.
  intros Hne Hq. unfold InlineScript.onAnchorClick, querySelector.
  cbn -[String.eqb Z.leb insert delete element].
  rewrite (eqb_hash_false _ Hne), Hq.
  destruct (innerWidth env <=? 768)%Z, nav;
    cbn -[insert delete element]; split; reflexivity.
Qed.

(** C3 on the inline script: with a header 60 pixels high and the target 500
    pixels down, the handler of [script.js] asks for 440 and pushes the
    fragment, while the inline handler asks for 420 and pushes nothing. *)
Theorem inline_scroll_ignores_header_height :
  let env := Samples.pricingPage 60 in
  let st1 := final (onAnchorClick env "#pricing" Samples.untouched) in
  let st2 := final (InlineScript.onAnchorClick env (Some 1%nat) "#pricing"
                      Samples.untouched) in
  offsetTop env 3 - offsetHeight env 0 = 440
  ∧ scrollRequests st1 = [mkScrollTo 440 "smooth"] ∧ history st1 = ["#pricing"]
  ∧ scrollRequests st2 = [mkScrollTo 420 "smooth"] ∧ history st2 = [].
Proof. by vm_compute. Qed.

End SmoothScrolling.

(** ** Form validation *)

Section FormValidation.
Import Form.

Lemma trimStart_nil s : trimStart s = [] ↔ forallb isWhiteSpace s = true.
Proof.
  induction s as [|c s IH]; simpl; [done|].
  destruct (isWhiteSpace c); simpl; [done|]. split; discriminate.
Qed.

(** A string trims to nothing exactly when it is all white space. *)
Lemma trim_empty s : isEmpty (trim s) = true ↔ forallb isWhiteSpace s = true.
Proof.
  rewrite <- trimStart_nil. unfold trim.
  destruct (trimStart s) as [|c r] eqn:E; [done|].
  split; [|done]. intros H. exfalso.
  assert (isWhiteSpace c = false) as Hc.
  { clear H. revert E. induction s as [|x s IH]; simpl; [done|].
    destruct (isWhiteSpace x) eqn:Ex; [done|]. congruence. }
  assert (∀ l, trimStart (l ++ [c]) ≠ []) as Hne.
  { intros l. induction l as [|x l IH]; simpl.
    - by rewrite Hc.
    - by destruct (isWhiteSpace x). }
  simpl in H. specialize (Hne (rev r)).
  destruct (trimStart (rev r ++ [c])) as [|y t]; [done|].
  simpl in H. by destruct (rev t).
Qed.

Lemma after_cons_eq n l : after n (n :: l) = l.
Proof. simpl. by rewrite Nat.eqb_refl. Qed.

Lemma after_cons_ne n x l : x ≠ n → after n (x :: l) = after n l.
Proof. intros H. simpl. by apply Nat.eqb_neq in H as ->. Qed.

Lemma after_app_notin n pre l : n ∉ pre → after n (pre ++ l) = after n l.
Proof.
  induction pre as [|x pre IH]; [done|].
  intros [? ?]%not_elem_of_cons. simpl. rewrite IH by done.
  by destruct (Nat.eqb_spec x n).
Qed.

Lemma after_app_in n pre l : n ∈ pre → after n (pre ++ l) = (after n pre ++ l)%list.
Proof.
  induction pre as [|x pre IH]; [by intros ?%elem_of_nil|].
  intros Hin. simpl. destruct (Nat.eqb_spec x n); [done|].
  apply elem_of_cons in Hin as [->|Hin]; [done|]. by apply IH.
Qed.

Lemma after_notin n l : n ∉ l → after n l = [].
Proof.
  induction l as [|x l IH]; [done|].
  intros [? ?]%not_elem_of_cons. rewrite after_cons_ne by done. by apply IH.
Qed.

Lemma after_subseteq n l x : x ∈ after n l → x ∈ l.
Proof.
  induction l as [|y l IH]; simpl; [done|].
  destruct (Nat.eqb y n); intros H; apply elem_of_cons; auto.
Qed.

(** Where [n] stands in a duplicate-free list. *)
Lemma split_at n l :
  NoDup l → n ∈ l →
  ∃ pre post,
    l = (pre ++ n :: post)%list ∧ (n ∉ pre) ∧ (n ∉ post) ∧ after n l = post.
Proof.
  intros Hnd Hin. apply list_elem_of_split in Hin as (pre & post & ->).
  apply NoDup_app in Hnd as (_ & Hpre & Hpost).
  apply NoDup_cons in Hpost as [Hpost _].
  assert (n ∉ pre) by (intros ?; eapply Hpre; [done | apply list_elem_of_here]).
  exists pre, post. split_and!; try done.
  by rewrite after_app_notin, after_cons_eq.
Qed.

Lemma find_app_first {A} (f : A → bool) l1 l2 :
  List.find f (l1 ++ l2)
  = match List.find f l1 with Some x => Some x | None => List.find f l2 end.
Proof. induction l1 as [|x l1 IH]; simpl; [done|]. by destruct (f x). Qed.

Lemma find_ext_in {A} (f g : A → bool) l :
  (∀ x, x ∈ l → f x = g x) → List.find f l = List.find g l.
Proof.
  induction l as [|x l IH]; simpl; [done|]. intros H.
  rewrite (H x) by apply list_elem_of_here. destruct (g x); [done|].
  apply IH. intros y Hy. apply H. by apply list_elem_of_further.
Qed.

Lemma find_Some_split {A} (f : A → bool) l x :
  List.find f l = Some x →
  ∃ pre post, l = (pre ++ x :: post)%list ∧ f x = true ∧ List.find f pre = None.
Proof.
  induction l as [|y l IH]; simpl; [done|].
  destruct (f y) eqn:E.
  - intros [= ->]. by exists [], l.
  - intros (pre & post & -> & ? & ?)%IH. exists (y :: pre), post.
    split_and!; try done. simpl. by rewrite E.
Qed.

Lemma find_None_elem {A} (f : A → bool) l x :
  List.find f l = None → x ∈ l → f x = false.
Proof.
  intros H Hin. apply list_elem_of_In in Hin.
  by apply (List.find_none f l H).
Qed.

Lemma filter_ne_notin (e : nat) (l : list nat) : e ∉ l → filter (fun k => k ≠ e) l = l.
Proof.
  induction l as [|x l IH]; [done|]. intros [? ?]%not_elem_of_cons.
  rewrite filter_cons_True by done. f_equal. by apply IH.
Qed.

Lemma putBefore_at new r pre post :
  r ∉ pre → putBefore new r (pre ++ r :: post) = Some (pre ++ new :: r :: post)%list.
Proof.
  induction pre as [|x pre IH]; simpl.
  - by rewrite Nat.eqb_refl.
  - intros [? ?]%not_elem_of_cons. destruct (Nat.eqb_spec x r); [done|].
    by rewrite IH.
Qed.

(** *** Reading the heap *)

Lemma node_lookup (d : gmap nat Node) n x : d !! n = Some x → node d n = x.
Proof. unfold node. by intros ->. Qed.

Lemma node_None (d : gmap nat Node) n : d !! n = None → node d n = orphan.
Proof. unfold node. by intros ->. Qed.

Lemma node_insert (d : gmap nat Node) i x n :
  node (<[i := x]> d) n = if decide (n = i) then x else node d n.
Proof.
  unfold node. destruct (decide (n = i)) as [->|].
  - by rewrite lookup_insert_eq.
  - by rewrite lookup_insert_ne.
Qed.

Lemma node_alter (d : gmap nat Node) f i n :
  is_Some (d !! i) →
  node (alter f i d) n = if decide (n = i) then f (node d i) else node d n.
Proof.
  intros [x Hx]. unfold node. destruct (decide (n = i)) as [->|].
  - by rewrite lookup_alter_eq, Hx.
  - by rewrite lookup_alter_ne.
Qed.

Lemma node_alter_ne (d : gmap nat Node) f i n :
  n ≠ i → node (alter f i d) n = node d n.
Proof. intros. unfold node. by rewrite lookup_alter_ne. Qed.

Lemma node_fresh (d : gmap nat Node) : node d (fresh (dom d)) = orphan.
Proof. apply node_None, not_elem_of_dom, is_fresh. Qed.

(** A node that is not the orphan is held by the heap. *)
Lemma node_held (d : gmap nat Node) n : node d n ≠ orphan → is_Some (d !! n).
Proof.
  intros H. destruct (d !! n) eqn:E; [done|]. by rewrite (node_None _ _ E) in H.
Qed.

Lemma isField_held d n : isField d n = true → is_Some (d !! n).
Proof.
  intros H. apply node_held. intros E. unfold isField in H. by rewrite E in H.
Qed.

Lemma kids_held d p k : k ∈ kids d p → is_Some (d !! p).
Proof.
  intros H. apply node_held. intros E. unfold kids in H. rewrite E in H.
  by apply elem_of_nil in H.
Qed.

Lemma parent_held d k p : parent d k = Some p → is_Some (d !! k).
Proof.
  intros H. apply node_held. intros E. unfold parent in H. by rewrite E in H.
Qed.

Lemma isErrorMessage_held d n : isErrorMessage d n = true → is_Some (d !! n).
Proof.
  intros H. apply node_held. intros E. unfold isErrorMessage in H.
  by rewrite E in H.
Qed.

(** *** Edits that keep the tree *)

Lemma sameTree_followingSiblings d d' n :
  sameTree d d' → followingSiblings d' n = followingSiblings d n.
Proof.
  intros [_ H]. unfold followingSiblings.
  destruct (H n) as (_ & -> & _). destruct (parentNode (node d n)) as [p|]; [|done].
  by destruct (H p) as (-> & _).
Qed.

Lemma sameTree_nextElementSibling d d' n :
  sameTree d d' → nextElementSibling d' n = nextElementSibling d n.
Proof.
  intros H. unfold nextElementSibling. rewrite (sameTree_followingSiblings _ _ _ H).
  apply find_ext_in. intros k _. by destruct H as [_ H]; destruct (H k) as (_ & _ & -> & _).
Qed.

Lemma sameTree_isErrorMessage d d' n :
  sameTree d d' → isErrorMessage d' n = isErrorMessage d n.
Proof.
  intros [_ H]. unfold isErrorMessage. by destruct (H n) as (_ & _ & -> & _ & ->).
Qed.

Lemma sameTree_hasErrorMessage d d' n :
  sameTree d d' → hasErrorMessage d' n = hasErrorMessage d n.
Proof.
  intros H. unfold hasErrorMessage, lacks.
  rewrite (sameTree_nextElementSibling _ _ _ H).
  destruct (nextElementSibling d n) as [k|]; [|done].
  by destruct H as [_ H]; destruct (H k) as (_ & _ & _ & _ & ->).
Qed.

Lemma sameTree_isField d d' n : sameTree d d' → isField d' n = isField d n.
Proof. intros [_ H]. unfold isField. by destruct (H n) as (_ & _ & _ & -> & _). Qed.

Lemma sameTree_kids d d' n : sameTree d d' → kids d' n = kids d n.
Proof. intros [_ H]. unfold kids. by destruct (H n) as (-> & _). Qed.

Lemma sameTree_parent d d' n : sameTree d d' → parent d' n = parent d n.
Proof. intros [_ H]. unfold parent. by destruct (H n) as (_ & -> & _). Qed.

Lemma sameTree_wellFormed d d' : sameTree d d' → wellFormed d → wellFormed d'.
Proof.
  intros H (W1 & W2 & W3). split_and!.
  - intros p k. rewrite (sameTree_kids _ _ _ H), (sameTree_parent _ _ _ H). apply W1.
  - intros k p. rewrite (sameTree_kids _ _ _ H), (sameTree_parent _ _ _ H). apply W2.
  - intros p. rewrite (sameTree_kids _ _ _ H). apply W3.
Qed.

Lemma sameTree_descendants d d' depth n :
  sameTree d d' → descendants depth d' n = descendants depth d n.
Proof.
  intros H. revert n. induction depth as [|depth IH]; intros n; simpl; [done|].
  destruct H as [? H']. destruct (H' n) as (-> & _).
  induction (childNodes (node d n)) as [|k l IHl]; simpl; [done|].
  by rewrite IH, IHl.
Qed.

Lemma sameTree_tidy d d' : sameTree d d' → tidy d → tidy d'.
Proof.
  intros H T e.
  rewrite (sameTree_isErrorMessage _ _ _ H), (sameTree_isField _ _ _ H),
    (sameTree_hasErrorMessage _ _ _ H).
  intros He. destruct (T e He) as (T1 & T2 & T3). split_and!; [done| |done].
  intros depth k. rewrite (sameTree_descendants _ _ _ _ H), (sameTree_isField _ _ _ H).
  apply T2.
Qed.

(** *** Descendants *)

Lemma descendants_leaf d depth n : kids d n = [] → descendants depth d n = [].
Proof. intros H. destruct depth; simpl; [done|]. unfold kids in H. by rewrite H. Qed.

Lemma child_descendant d n k : k ∈ kids d n → k ∈ descendants 1 d n.
Proof.
  intros H. simpl. apply list_elem_of_In, in_flat_map. exists k.
  split; [by apply list_elem_of_In | by left].
Qed.

(** Fewer children, fewer descendants. *)
Lemma descendants_shrunk d d' depth n k :
  (∀ m c, c ∈ kids d' m → c ∈ kids d m) →
  k ∈ descendants depth d' n → k ∈ descendants depth d n.
Proof.
  intros Hsub. revert n. induction depth as [|depth IH]; intros n; simpl; [done|].
  intros H. apply list_elem_of_In, in_flat_map in H as (c & Hc & Hk).
  apply list_elem_of_In, in_flat_map. exists c. split.
  - apply list_elem_of_In, Hsub. by apply list_elem_of_In.
  - destruct Hk as [->|Hk]; [by left|]. right.
    apply list_elem_of_In, IH. by apply list_elem_of_In.
Qed.

(** One new leaf [s], one new descendant at most. *)
Lemma descendants_grown d d' s depth n k :
  (∀ m c, c ∈ kids d' m → c = s ∨ c ∈ kids d m) → kids d' s = [] →
  k ∈ descendants depth d' n → k = s ∨ k ∈ descendants depth d n.
Proof.
  intros Hsub Hs. revert n. induction depth as [|depth IH]; intros n; simpl.
  { by intros ?%elem_of_nil. }
  intros H. apply list_elem_of_In, in_flat_map in H as (c & Hc & Hk).
  apply list_elem_of_In, Hsub in Hc as [->|Hc].
  - destruct Hk as [->|Hk]; [by left|].
    rewrite (descendants_leaf _ _ _ Hs) in Hk. by destruct Hk.
  - destruct Hk as [->|Hk].
    + right. apply list_elem_of_In, in_flat_map. exists k.
      split; [by apply list_elem_of_In | by left].
    + apply list_elem_of_In, IH in Hk as [->|Hk]; [by left|]. right.
      apply list_elem_of_In, in_flat_map. exists c.
      split; [by apply list_elem_of_In | right; by apply list_elem_of_In].
Qed.

Lemma sameTree_querySelectorAll d d' form :
  sameTree d d' → querySelectorAll d' form = querySelectorAll d form.
Proof.
  intros H. unfold querySelectorAll.
  rewrite (sameTree_descendants _ _ _ _ H).
  replace (size d') with (size d).
  2:{ destruct H as [Hd _]. by rewrite <- !size_dom, Hd. }
  apply list_filter_iff. intros k.
  by destruct H as [_ H]; destruct (H k) as (_ & _ & _ & -> & _).
Qed.

Lemma sameTree_refl d : sameTree d d.
Proof. by split. Qed.

Lemma sameTree_trans d1 d2 d3 : sameTree d1 d2 → sameTree d2 d3 → sameTree d1 d3.
Proof.
  intros [D1 H1] [D2 H2]. split; [congruence|]. intros n.
  destruct (H1 n) as (? & ? & ? & ? & ?), (H2 n) as (? & ? & ? & ? & ?).
  split_and!; congruence.
Qed.

Lemma node_alter_any (d : gmap nat Node) f i n :
  node (alter f i d) n
  = if decide (n = i) then from_option f orphan (d !! i) else node d n.
Proof.
  unfold node. destruct (decide (n = i)) as [->|].
  - rewrite lookup_alter_eq. by destruct (d !! i).
  - by rewrite lookup_alter_ne.
Qed.

(** An edit of one node that keeps its links, its kind and whether it carries
    'error-message' keeps the tree. *)
Lemma sameTree_alter (d : gmap nat Node) f i :
  (∀ x, childNodes (f x) = childNodes x ∧ parentNode (f x) = parentNode x
        ∧ isElement (f x) = isElement x
        ∧ isRequiredField (f x) = isRequiredField x
        ∧ bool_decide ("error-message" ∈ classList (f x))
          = bool_decide ("error-message" ∈ classList x)) →
  sameTree d (alter f i d).
Proof.
  intros Hf. split; [apply dom_alter_L|]. intros n. unfold contains.
  rewrite node_alter_any. destruct (decide (n = i)) as [->|]; [|done].
  unfold node. destruct (d !! i) as [x|]; simpl; [apply Hf | done].
Qed.

Lemma sameTree_classList_add d i : sameTree d (classList_add "error" i d).
Proof.
  apply sameTree_alter. intros x. destruct (bool_decide _); [done|].
  split_and!; try done. simpl. apply bool_decide_ext.
  rewrite elem_of_app, list_elem_of_singleton.
  split; [intros [?|?]; [done | discriminate] | by left].
Qed.

Lemma sameTree_classList_remove d i : sameTree d (classList_remove "error" i d).
Proof.
  apply sameTree_alter. intros x. split_and!; try done. simpl.
  apply bool_decide_ext. rewrite list_elem_of_filter.
  split; [by intros [_ ?] | by split].
Qed.

Lemma sameTree_typeInto d edit : sameTree d (typeInto d edit).
Proof. apply sameTree_alter. intros x. by split_and!. Qed.

Lemma sameTree_fill edits d : sameTree d (fill edits d).
Proof.
  unfold fill. revert d. induction edits as [|e edits IH]; intros d; simpl.
  - apply sameTree_refl.
  - eapply sameTree_trans; [apply sameTree_typeInto | apply IH].
Qed.

Lemma classList_add_contains d i :
  is_Some (d !! i) → contains "error" (classList_add "error" i d) i = true.
Proof.
  intros H. unfold contains, classList_add. rewrite node_alter by done.
  rewrite decide_True by done. apply bool_decide_eq_true.
  destruct (bool_decide _) eqn:E.
  - by apply bool_decide_eq_true in E.
  - simpl. apply elem_of_app. right. apply list_elem_of_here.
Qed.

Lemma classList_remove_contains d i :
  contains "error" (classList_remove "error" i d) i = false.
Proof.
  unfold contains, classList_remove. rewrite node_alter_any, decide_True by done.
  apply bool_decide_eq_false. destruct (d !! i) as [x|]; simpl.
  - rewrite list_elem_of_filter. by intros [? _].
  - apply not_elem_of_nil.
Qed.

Lemma value_classList_add d i n :
  value (node (classList_add "error" i d) n) = value (node d n).
Proof.
  unfold classList_add. rewrite node_alter_any.
  destruct (decide (n = i)) as [->|]; [|done]. unfold node.
  destruct (d !! i) as [x|]; simpl; [|done]. by destruct (bool_decide _).
Qed.

Lemma value_classList_remove d i n :
  value (node (classList_remove "error" i d) n) = value (node d n).
Proof.
  unfold classList_remove. rewrite node_alter_any.
  destruct (decide (n = i)) as [->|]; [|done]. unfold node.
  by destruct (d !! i) as [x|].
Qed.

Lemma contains_classList_add_ne d i n c :
  n ≠ i → contains c (classList_add "error" i d) n = contains c d n.
Proof. intros. unfold contains, classList_add. by rewrite node_alter_ne. Qed.

Lemma contains_classList_remove_ne d i n c :
  n ≠ i → contains c (classList_remove "error" i d) n = contains c d n.
Proof. intros. unfold contains, classList_remove. by rewrite node_alter_ne. Qed.

(** *** Inserting a message *)

Lemma createErrorMessage_eq d :
  createErrorMessage d
  = Normal (fresh (dom d)) (<[fresh (dom d) := messageNode None]> d).
Proof. unfold createErrorMessage, createElement. by rewrite alter_insert_eq. Qed.

Lemma insertMessage_spec d i p :
  wellFormed d → parent d i = Some p →
  let s := fresh (dom d) in
  ∃ d' pre post,
    (createErrorMessage ≫= insertAfter i) d = Normal tt d'
    ∧ kids d p = (pre ++ i :: post)%list ∧ (i ∉ pre) ∧ (i ∉ post)
    ∧ (s ∉ pre) ∧ (s ∉ post) ∧ s ≠ i ∧ s ≠ p
    ∧ NoDup (pre ++ i :: s :: post)
    ∧ dom d' = {[s]} ∪ dom d
    ∧ ∀ n, node d' n
           = if decide (n = s) then messageNode (Some p)
             else if decide (n = p)
                  then set_childNodes (pre ++ i :: s :: post) (node d p)
                  else node d n.
Proof.
  intros (W1 & W2 & W3) Hp s.
  pose proof (W2 _ _ Hp) as Hin.
  destruct (split_at i _ (W3 p) Hin) as (pre & post & Hk & Hpre & Hpost & Haft).
  assert (s ≠ i) as Hsi.
  { intros <-. pose proof (node_fresh d) as E. fold s in E.
    unfold parent in Hp. by rewrite E in Hp. }
  assert (s ≠ p) as Hsp.
  { intros <-. pose proof (node_fresh d) as E. fold s in E.
    unfold kids in Hin. rewrite E in Hin. by apply elem_of_nil in Hin. }
  assert (s ∉ kids d p) as Hsk.
  { intros Hs. apply W1 in Hs. pose proof (node_fresh d) as E. fold s in E.
    unfold parent in Hs. by rewrite E in Hs. }
  rewrite Hk in Hsk. apply not_elem_of_app in Hsk as [Hs1 Hs2].
  apply not_elem_of_cons in Hs2 as [_ Hs2].
  set (d2 := <[s := messageNode None]> d).
  assert (node d2 i = node d i) as Ei
    by (unfold d2; rewrite node_insert; by rewrite decide_False).
  assert (node d2 p = node d p) as Ep
    by (unfold d2; rewrite node_insert; by rewrite decide_False).
  assert (NoDup (pre ++ i :: s :: post)) as Hnd.
  { pose proof (W3 p) as Hnd. rewrite Hk in Hnd.
    apply NoDup_app in Hnd as (N1 & N2 & N3). apply NoDup_cons in N3 as [N3 N4].
    apply NoDup_app. split_and!; [done| |].
    - intros x Hx Hx'. apply elem_of_cons in Hx' as [->|Hx']; [done|].
      apply elem_of_cons in Hx' as [->|Hx']; [done|].
      apply (N2 x Hx). by apply list_elem_of_further.
    - apply NoDup_cons. split.
      + intros [->|?]%elem_of_cons; done.
      + by apply NoDup_cons. }
  exists (alter (set_parentNode (Some p)) s
            (alter (set_childNodes (pre ++ i :: s :: post)) p d2)), pre, post.
  split_and!; try done.
  - unfold mbind, M_bind. rewrite createErrorMessage_eq. fold s. fold d2.
    unfold insertAfter. rewrite Ei. unfold parent in Hp. rewrite Hp.
    unfold insertBefore, nextSibling, followingSiblings. rewrite Ei, Hp, Ep.
    unfold kids in Hk, Haft. rewrite Haft, Hk.
    destruct post as [|r post]; simpl.
    + by rewrite <- app_assoc.
    + replace (pre ++ i :: r :: post)%list with ((pre ++ [i]) ++ r :: post)%list
        by (by rewrite <- app_assoc).
      rewrite (putBefore_at s r (pre ++ [i]) post); [by rewrite <- !app_assoc|].
      intros [?|Hr]%elem_of_app; [|apply list_elem_of_singleton in Hr as ->].
      * pose proof (W3 p) as Hnd'. unfold kids in Hnd'. rewrite Hk in Hnd'.
        apply NoDup_app in Hnd' as (_ & N2 & _). apply (N2 r); [done|].
        apply list_elem_of_further, list_elem_of_here.
      * apply Hpost, list_elem_of_here.
  - rewrite !dom_alter_L. unfold d2. by rewrite dom_insert_L.
  - intros n. assert (is_Some (d2 !! s)) as Hs by (unfold d2; by rewrite lookup_insert_eq).
    assert (is_Some (d2 !! p)) as Hp2.
    { unfold d2. rewrite lookup_insert_ne by done. by eapply kids_held. }
    rewrite node_alter by (by rewrite lookup_alter_ne).
    destruct (decide (n = s)) as [->|Hns].
    + rewrite node_alter_ne by done. unfold d2. by rewrite node_insert, decide_True.
    + rewrite node_alter by done. destruct (decide (n = p)) as [->|Hnp].
      * by rewrite Ep.
      * unfold d2. by rewrite node_insert, decide_False.
Qed.

Lemma find_isElement_ext (d d' : gmap nat Node) (l : list nat) :
  (∀ k, k ∈ l → isElement (node d' k) = isElement (node d k)) →
  List.find (fun k => isElement (node d' k)) l
  = List.find (fun k => isElement (node d k)) l.
Proof. intros H. by apply find_ext_in. Qed.

Section AfterInsert.
Variables (d d' : gmap nat Node) (i p s : nat) (pre post : list nat).
Hypothesis Hins : inserted d d' i p s pre post.

Lemma ins_s_not_child q : s ∉ kids d q.
Proof.
  pose proof Hins as (W & Hp & Hi & Hk & Hfresh & Hnd & Hnode).
  destruct W as (W1 & _). intros H%W1. unfold parent in H. by rewrite Hfresh in H.
Qed.

Lemma ins_sp : s ≠ p.
Proof.
  pose proof Hins as (W & Hp & Hi & Hk & Hfresh & Hnd & Hnode).
  intros <-. unfold kids in Hk. rewrite Hfresh in Hk. by destruct pre.
Qed.

Lemma ins_si : s ≠ i.
Proof.
  pose proof Hins as (W & Hp & Hi & Hk & Hfresh & Hnd & Hnode).
  intros <-. by rewrite Hfresh in Hi.
Qed.

Lemma ins_kids n :
  kids d' n = if decide (n = s) then []
              else if decide (n = p) then (pre ++ i :: s :: post)%list
              else kids d n.
Proof.
  pose proof Hins as (W & Hp & Hi & Hk & Hfresh & Hnd & Hnode).
  unfold kids. rewrite Hnode. by repeat case_decide.
Qed.

Lemma ins_parent n :
  parent d' n = if decide (n = s) then Some p else parent d n.
Proof.
  pose proof Hins as (W & Hp & Hi & Hk & Hfresh & Hnd & Hnode).
  unfold parent. rewrite Hnode. by repeat case_decide; subst.
Qed.

Lemma ins_isElement n :
  isElement (node d' n) = if decide (n = s) then true else isElement (node d n).
Proof.
  pose proof Hins as (W & Hp & Hi & Hk & Hfresh & Hnd & Hnode).
  rewrite Hnode. by repeat case_decide; subst.
Qed.

Lemma ins_isField n : isField d' n = isField d n.
Proof.
  pose proof Hins as (W & Hp & Hi & Hk & Hfresh & Hnd & Hnode).
  unfold isField. rewrite Hnode. repeat case_decide; subst; try done.
  by rewrite Hfresh.
Qed.

Lemma ins_value n : value (node d' n) = value (node d n).
Proof.
  pose proof Hins as (W & Hp & Hi & Hk & Hfresh & Hnd & Hnode).
  rewrite Hnode. repeat case_decide; subst; try done. by rewrite Hfresh.
Qed.

Lemma ins_contains c n : n ≠ s → contains c d' n = contains c d n.
Proof.
  pose proof Hins as (W & Hp & Hi & Hk & Hfresh & Hnd & Hnode).
  intros. unfold contains. rewrite Hnode, decide_False by done.
  by destruct (decide (n = p)) as [->|].
Qed.

Lemma ins_isErrorMessage n :
  isErrorMessage d' n = if decide (n = s) then true else isErrorMessage d n.
Proof.
  pose proof Hins as (W & Hp & Hi & Hk & Hfresh & Hnd & Hnode).
  unfold isErrorMessage, contains. rewrite Hnode.
  destruct (decide (n = s)); [done|]. by destruct (decide (n = p)) as [->|].
Qed.

Lemma ins_kids_mono q k : k ∈ kids d q → k ∈ kids d' q.
Proof.
  pose proof Hins as (W & Hp & Hi & Hk & Hfresh & Hnd & Hnode).
  intros H. rewrite ins_kids. case_decide as E1; subst.
  - unfold kids in H. rewrite Hfresh in H. by apply elem_of_nil in H.
  - case_decide as E2; subst; [|done]. rewrite Hk in H.
    apply elem_of_app in H as [?|H]; apply elem_of_app; [by left | right].
    apply elem_of_cons in H as [->|H]; [apply list_elem_of_here|].
    by do 2 apply list_elem_of_further.
Qed.

Lemma ins_wellFormed : wellFormed d'.
Proof.
  pose proof Hins as (W & Hp & Hi & Hk & Hfresh & Hnd & Hnode).
  destruct W as (W1 & W2 & W3). split_and!.
  - intros q k. rewrite ins_kids, ins_parent.
    destruct (decide (q = s)) as [->|Hqs]; [by intros ?%elem_of_nil|].
    destruct (decide (q = p)) as [->|Hqp].
    + intros H. case_decide; [done|]. apply W1. rewrite Hk.
      apply elem_of_app in H as [?|H]; apply elem_of_app; [by left | right].
      apply elem_of_cons in H as [->|H]; [apply list_elem_of_here|].
      apply elem_of_cons in H as [->|H]; [done|]. by apply list_elem_of_further.
    + intros H. case_decide as E; [subst; by apply ins_s_not_child in H|]. by apply W1.
  - intros k q. rewrite ins_parent. case_decide as E; subst.
    + intros [= <-]. rewrite ins_kids, decide_False, decide_True by (done || apply not_eq_sym, ins_sp).
      apply elem_of_app. right. apply list_elem_of_further, list_elem_of_here.
    + intros H. by apply ins_kids_mono, W2.
  - intros q. rewrite ins_kids. repeat case_decide; [constructor | done | apply W3].
Qed.

Lemma ins_followingSiblings_i : followingSiblings d' i = s :: post.
Proof.
  pose proof Hins as (W & Hp & Hi & Hk & Hfresh & Hnd & Hnode).
  unfold followingSiblings. fold (parent d' i). rewrite ins_parent.
  rewrite decide_False by (apply not_eq_sym, ins_si). rewrite Hp.
  fold (kids d' p). rewrite ins_kids, decide_False, decide_True
    by (done || apply not_eq_sym, ins_sp).
  pose proof Hnd as HndC; apply NoDup_app in HndC as (_ & N & _).
  rewrite after_app_notin, after_cons_eq; [done|].
  intros H. apply (N _ H), list_elem_of_here.
Qed.

Lemma ins_followingSiblings_old_i : followingSiblings d i = post.
Proof.
  pose proof Hins as (W & Hp & Hi & Hk & Hfresh & Hnd & Hnode).
  unfold followingSiblings. fold (parent d i). rewrite Hp. fold (kids d p). rewrite Hk.
  pose proof Hnd as HndC; apply NoDup_app in HndC as (_ & N & _).
  rewrite after_app_notin, after_cons_eq; [done|].
  intros H. apply (N _ H), list_elem_of_here.
Qed.

Lemma ins_followingSiblings_s : followingSiblings d' s = post.
Proof.
  pose proof Hins as (W & Hp & Hi & Hk & Hfresh & Hnd & Hnode).
  unfold followingSiblings. fold (parent d' s). rewrite ins_parent, decide_True by done.
  fold (kids d' p). rewrite ins_kids, decide_False, decide_True
    by (done || apply not_eq_sym, ins_sp).
  pose proof Hnd as HndC; apply NoDup_app in HndC as (_ & N & N').
  apply NoDup_cons in N' as [_ N'].
  rewrite after_app_notin.
  - rewrite after_cons_ne by (apply not_eq_sym, ins_si). by rewrite after_cons_eq.
  - intros H. apply (N _ H), list_elem_of_further, list_elem_of_here.
Qed.

Lemma ins_post_old k : k ∈ post → k ≠ s.
Proof.
  pose proof Hins as (W & Hp & Hi & Hk & Hfresh & Hnd & Hnode).
  intros H ->. pose proof Hnd as HndC; apply NoDup_app in HndC as (_ & _ & N).
  apply NoDup_cons in N as [_ N]. apply NoDup_cons in N as [N _]. done.
Qed.

Lemma ins_nextElementSibling_i : nextElementSibling d' i = Some s.
Proof.
  pose proof Hins as (W & Hp & Hi & Hk & Hfresh & Hnd & Hnode).
  unfold nextElementSibling. rewrite ins_followingSiblings_i. simpl.
  by rewrite ins_isElement, decide_True.
Qed.

Lemma ins_nextElementSibling_s : nextElementSibling d' s = nextElementSibling d i.
Proof.
  pose proof Hins as (W & Hp & Hi & Hk & Hfresh & Hnd & Hnode).
  unfold nextElementSibling. rewrite ins_followingSiblings_s, ins_followingSiblings_old_i.
  apply find_isElement_ext. intros k Hk'. rewrite ins_isElement.
  by rewrite decide_False by (by apply ins_post_old).
Qed.

Lemma ins_nextElementSibling_other n :
  n ≠ i → n ≠ s → nextElementSibling d' n = nextElementSibling d n.
Proof.
  pose proof Hins as (W & Hp & Hi & Hk & Hfresh & Hnd & Hnode).
  intros Hni Hns. destruct W as (W1 & W2 & W3).
  unfold nextElementSibling, followingSiblings.
  fold (parent d' n) (parent d n). rewrite ins_parent, decide_False by done.
  destruct (parent d n) as [q|] eqn:Hq; [|done].
  fold (kids d' q) (kids d q). rewrite ins_kids.
  destruct (decide (q = s)) as [->|Hqs].
  { apply W2 in Hq. unfold kids in Hq. rewrite Hfresh in Hq.
    by apply elem_of_nil in Hq. }
  destruct (decide (q = p)) as [->|Hqp].
  - apply W2 in Hq. rewrite Hk in Hq |- *.
    assert (NoDup (pre ++ i :: post)) as Hnd0 by (rewrite <- Hk; apply W3).
    apply NoDup_app in Hnd0 as (_ & N & _).
    apply elem_of_app in Hq as [Hq|Hq].
    + rewrite !after_app_in by done. rewrite !find_app_first.
      rewrite (find_isElement_ext d d' (after n pre)).
      2:{ intros k Hk'. rewrite ins_isElement, decide_False; [done|].
          intros ->. apply after_subseteq in Hk'.
          pose proof Hnd as HndC; apply NoDup_app in HndC as (_ & N' & _). apply (N' _ Hk').
          apply list_elem_of_further, list_elem_of_here. }
      destruct (List.find _ (after n pre)); [done|]. simpl.
      by rewrite ins_isElement, decide_False, Hi by (apply not_eq_sym, ins_si).
    + apply elem_of_cons in Hq as [->|Hq]; [done|].
      assert (n ∉ pre) by (intros H; apply (N _ H); by apply list_elem_of_further).
      rewrite !after_app_notin by done.
      rewrite !after_cons_ne by (done || by apply not_eq_sym).
      apply find_isElement_ext. intros k Hk'. apply after_subseteq in Hk'.
      by rewrite ins_isElement, decide_False by (by apply ins_post_old).
  - apply find_isElement_ext. intros k Hk'. apply after_subseteq in Hk'.
    rewrite ins_isElement, decide_False; [done|].
    intros ->. by apply ins_s_not_child in Hk'.
Qed.

End AfterInsert.

(** *** Removing a message *)

Lemma remove_node d e p :
  parent d e = Some p → e ≠ p → is_Some (d !! p) →
  dom (remove e d) = dom d
  ∧ ∀ n, node (remove e d) n
         = if decide (n = e) then set_parentNode None (node d e)
           else if decide (n = p)
                then set_childNodes (filter (fun k => k ≠ e) (kids d p)) (node d p)
                else node d n.
Proof.
  intros Hp Hne Hheld. unfold remove. unfold parent in Hp. rewrite Hp.
  split; [by rewrite !dom_alter_L|]. intros n.
  assert (is_Some (d !! e)) as He by (by eapply parent_held).
  rewrite node_alter by (by rewrite lookup_alter_ne).
  destruct (decide (n = e)) as [->|]; [by rewrite node_alter_ne|].
  rewrite node_alter by done. by destruct (decide (n = p)) as [->|].
Qed.

Section AfterRemove.
Variables (d d' : gmap nat Node) (i p e : nat) (pre texts post : list nat).
Hypothesis Hrem : removed d d' i p e pre texts post.

Lemma rem_NoDup : NoDup (pre ++ i :: texts ++ e :: post).
Proof.
  pose proof Hrem as (W & Hp & Hi & He & Hke & Hk & Htexts & Hnode).
  rewrite <- Hk. apply W.
Qed.

Lemma rem_facts :
  (i ∉ pre) ∧ (e ∉ pre) ∧ (e ∉ texts) ∧ (e ∉ post) ∧ e ≠ i ∧ (i ∉ texts)
  ∧ (i ∉ post) ∧ e ≠ p.
Proof.
  pose proof Hrem as (W & Hp & Hi & He & Hke & Hk & Htexts & Hnode).
  pose proof rem_NoDup as N. apply NoDup_app in N as (_ & N1 & N2).
  apply NoDup_cons in N2 as [N2 N3]. apply NoDup_app in N3 as (_ & N4 & N5).
  apply NoDup_cons in N5 as [N5 _].
  rewrite not_elem_of_app, not_elem_of_cons in N2. destruct N2 as (F1 & F2 & F3).
  split_and!; try done.
  - intros F. apply (N1 _ F), list_elem_of_here.
  - intros F. apply (N1 _ F), list_elem_of_further, elem_of_app. right.
    apply list_elem_of_here.
  - intros F. apply (N4 _ F), list_elem_of_here.
Qed.

Lemma rem_parent_e : parent d e = Some p.
Proof.
  pose proof Hrem as (W & Hp & Hi & He & Hke & Hk & Htexts & Hnode).
  destruct W as (W1 & _). apply W1. rewrite Hk. apply elem_of_app. right.
  apply list_elem_of_further, elem_of_app. right. apply list_elem_of_here.
Qed.

Lemma rem_filter :
  filter (fun k => k ≠ e) (kids d p) = (pre ++ i :: texts ++ post)%list.
Proof.
  pose proof Hrem as (W & Hp & Hi & He & Hke & Hk & Htexts & Hnode).
  destruct rem_facts as (F1 & F2 & F3 & F4 & F5 & _).
  rewrite Hk, filter_app. rewrite filter_cons_True by (by apply not_eq_sym).
  rewrite filter_app. rewrite filter_cons_False by (intros F; by apply F).
  by rewrite !filter_ne_notin.
Qed.

Lemma rem_kids n :
  kids d' n = if decide (n = p) then (pre ++ i :: texts ++ post)%list else kids d n.
Proof.
  pose proof Hrem as (W & Hp & Hi & He & Hke & Hk & Htexts & Hnode).
  unfold kids. rewrite Hnode. destruct rem_facts as (_ & _ & _ & _ & _ & _ & _ & F8).
  destruct (decide (n = e)) as [->|]; [by rewrite decide_False|].
  destruct (decide (n = p)) as [->|]; [|done]. simpl. apply rem_filter.
Qed.

Lemma rem_parent n : parent d' n = if decide (n = e) then None else parent d n.
Proof.
  pose proof Hrem as (W & Hp & Hi & He & Hke & Hk & Htexts & Hnode).
  unfold parent. rewrite Hnode. destruct (decide (n = e)); [done|].
  by destruct (decide (n = p)) as [->|].
Qed.

Lemma rem_isElement n : isElement (node d' n) = isElement (node d n).
Proof.
  pose proof Hrem as (W & Hp & Hi & He & Hke & Hk & Htexts & Hnode).
  rewrite Hnode. destruct (decide (n = e)) as [->|]; [done|].
  by destruct (decide (n = p)) as [->|].
Qed.

Lemma rem_isField n : isField d' n = isField d n.
Proof.
  pose proof Hrem as (W & Hp & Hi & He & Hke & Hk & Htexts & Hnode).
  unfold isField. rewrite Hnode. destruct (decide (n = e)) as [->|]; [done|].
  by destruct (decide (n = p)) as [->|].
Qed.

Lemma rem_value n : value (node d' n) = value (node d n).
Proof.
  pose proof Hrem as (W & Hp & Hi & He & Hke & Hk & Htexts & Hnode).
  rewrite Hnode. destruct (decide (n = e)) as [->|]; [done|].
  by destruct (decide (n = p)) as [->|].
Qed.

Lemma rem_contains c n : contains c d' n = contains c d n.
Proof.
  pose proof Hrem as (W & Hp & Hi & He & Hke & Hk & Htexts & Hnode).
  unfold contains. rewrite Hnode. destruct (decide (n = e)) as [->|]; [done|].
  by destruct (decide (n = p)) as [->|].
Qed.

Lemma rem_isErrorMessage n : isErrorMessage d' n = isErrorMessage d n.
Proof.
  pose proof Hrem as (W & Hp & Hi & He & Hke & Hk & Htexts & Hnode).
  unfold isErrorMessage. by rewrite rem_isElement, rem_contains.
Qed.

Lemma rem_kids_mono q k : k ∈ kids d q → k ≠ e → k ∈ kids d' q.
Proof.
  pose proof Hrem as (W & Hp & Hi & He & Hke & Hk & Htexts & Hnode).
  intros H Hne. rewrite rem_kids. destruct (decide (q = p)) as [->|]; [|done].
  rewrite Hk in H.
  apply elem_of_app in H as [H|H]; apply elem_of_app; [by left | right].
  apply elem_of_cons in H as [->|H]; [apply list_elem_of_here|].
  apply list_elem_of_further.
  apply elem_of_app in H as [H|H]; apply elem_of_app; [by left | right].
  by apply elem_of_cons in H as [->|H].
Qed.

Lemma rem_kids_sub q k : k ∈ kids d' q → k ∈ kids d q ∧ k ≠ e.
Proof.
  pose proof Hrem as (W & Hp & Hi & He & Hke & Hk & Htexts & Hnode).
  rewrite rem_kids. destruct rem_facts as (F1 & F2 & F3 & F4 & F5 & _).
  destruct (decide (q = p)) as [->|].
  - rewrite Hk. intros H. split.
    + apply elem_of_app in H as [H|H]; apply elem_of_app; [by left | right].
      apply elem_of_cons in H as [->|H]; [apply list_elem_of_here|].
      apply list_elem_of_further.
      apply elem_of_app in H as [H|H]; apply elem_of_app; [by left | right].
      by apply list_elem_of_further.
    + intros ->. apply elem_of_app in H as [H|H]; [done|].
      apply elem_of_cons in H as [H|H]; [done|].
      by apply elem_of_app in H as [H|H].
  - intros H. split; [done|]. intros ->.
    destruct W as (W1 & _). apply W1 in H. rewrite rem_parent_e in H. congruence.
Qed.

Lemma rem_detached : parent d' e = None ∧ ∀ q, e ∉ kids d' q.
Proof.
  pose proof Hrem as (W & Hp & Hi & He & Hke & Hk & Htexts & Hnode).
  split; [by rewrite rem_parent, decide_True|].
  intros q H. by apply rem_kids_sub in H as [_ ?].
Qed.

Lemma rem_wellFormed : wellFormed d'.
Proof.
  pose proof Hrem as (W & Hp & Hi & He & Hke & Hk & Htexts & Hnode).
  destruct W as (W1 & W2 & W3). split_and!.
  - intros q k H. apply rem_kids_sub in H as [H Hne].
    rewrite rem_parent, decide_False by done. by apply W1.
  - intros k q. rewrite rem_parent. destruct (decide (k = e)); [done|].
    intros H. apply rem_kids_mono; [|done]. by apply W2.
  - intros q. rewrite rem_kids. destruct (decide (q = p)); [|apply W3].
    rewrite <- rem_filter. apply NoDup_filter, W3.
Qed.

Lemma rem_find_texts l :
  List.find (fun k => isElement (node d k)) (texts ++ l)
  = List.find (fun k => isElement (node d k)) l.
Proof.
  pose proof Hrem as (W & Hp & Hi & He & Hke & Hk & Htexts & Hnode).
  by rewrite find_app_first, Htexts.
Qed.

Lemma rem_nextElementSibling_e :
  nextElementSibling d e = List.find (fun k => isElement (node d k)) post.
Proof.
  pose proof Hrem as (W & Hp & Hi & He & Hke & Hk & Htexts & Hnode).
  destruct rem_facts as (F1 & F2 & F3 & F4 & F5 & _).
  unfold nextElementSibling, followingSiblings. fold (parent d e).
  rewrite rem_parent_e. fold (kids d p). rewrite Hk.
  rewrite after_app_notin, after_cons_ne, after_app_notin, after_cons_eq
    by (done || by apply not_eq_sym). done.
Qed.

Lemma rem_nextElementSibling_old_i : nextElementSibling d i = Some e.
Proof.
  pose proof Hrem as (W & Hp & Hi & He & Hke & Hk & Htexts & Hnode).
  destruct rem_facts as (F1 & _).
  unfold nextElementSibling, followingSiblings. fold (parent d i).
  rewrite Hp. fold (kids d p). rewrite Hk.
  rewrite after_app_notin, after_cons_eq by done.
  rewrite find_app_first, Htexts. simpl. by rewrite He.
Qed.

Lemma rem_nextElementSibling_i : nextElementSibling d' i = nextElementSibling d e.
Proof.
  pose proof Hrem as (W & Hp & Hi & He & Hke & Hk & Htexts & Hnode).
  destruct rem_facts as (F1 & F2 & F3 & F4 & F5 & _).
  rewrite rem_nextElementSibling_e.
  unfold nextElementSibling, followingSiblings. fold (parent d' i).
  rewrite rem_parent, decide_False, Hp by (by apply not_eq_sym).
  fold (kids d' p). rewrite rem_kids, decide_True by done.
  rewrite after_app_notin, after_cons_eq by done.
  rewrite (find_ext_in _ (fun k => isElement (node d k)))
    by (intros; apply rem_isElement).
  apply rem_find_texts.
Qed.

Lemma rem_nextElementSibling_other n :
  n ≠ i → n ≠ e → isElement (node d n) = true →
  nextElementSibling d' n = nextElementSibling d n.
Proof.
  pose proof Hrem as (W & Hp & Hi & He & Hke & Hk & Htexts & Hnode).
  intros Hni Hne Hn. destruct W as (W1 & W2 & W3).
  destruct rem_facts as (F1 & F2 & F3 & F4 & F5 & F6 & F7 & F8).
  unfold nextElementSibling.
  rewrite (find_ext_in _ (fun k => isElement (node d k)))
    by (intros; apply rem_isElement).
  unfold followingSiblings. fold (parent d' n) (parent d n).
  rewrite rem_parent, decide_False by done.
  destruct (parent d n) as [q|] eqn:Hq; [|done].
  fold (kids d' q) (kids d q). rewrite rem_kids.
  destruct (decide (q = p)) as [->|]; [|done].
  apply W2 in Hq. rewrite Hk in Hq |- *.
  pose proof rem_NoDup as N. apply NoDup_app in N as (_ & N1 & _).
  assert (n ∉ texts) as Hnt.
  { intros F. apply (find_None_elem _ _ _ Htexts) in F. congruence. }
  apply elem_of_app in Hq as [Hq|Hq].
  - rewrite !after_app_in by done. rewrite !find_app_first.
    destruct (List.find _ (after n pre)); [done|]. simpl. by rewrite Hi.
  - assert (n ∉ pre) as Hnp by (intros F; apply (N1 _ F); done).
    rewrite !after_app_notin by done.
    rewrite !after_cons_ne by (by apply not_eq_sym).
    rewrite !after_app_notin by done.
    by rewrite after_cons_ne by (by apply not_eq_sym).
Qed.

End AfterRemove.

(** *** What a run keeps *)

Lemma keeps_isErrorMessage d d' n :
  keeps d d' → n ∈ dom d → isErrorMessage d' n = isErrorMessage d n.
Proof.
  intros (_ & _ & _ & K4 & K5 & _) Hn. unfold isErrorMessage.
  by rewrite K4, K5.
Qed.

Lemma keeps_refl d : keeps d d.
Proof. by split_and!. Qed.

Lemma child_held d q k : wellFormed d → k ∈ kids d q → k ∈ dom d.
Proof.
  intros (W1 & _) H. apply elem_of_dom. eapply parent_held. by apply W1.
Qed.

Lemma keeps_trans d1 d2 d3 :
  wellFormed d1 → keeps d1 d2 → keeps d2 d3 → keeps d1 d3.
Proof.
  intros W K12 K23.
  pose proof (fun n => keeps_isErrorMessage _ _ n K12) as E12.
  destruct K12 as (A1 & A2 & A3 & A4 & A5 & A6 & A7 & A8).
  destruct K23 as (B1 & B2 & B3 & B4 & B5 & B6 & B7 & B8).
  split_and!.
  - by etrans.
  - intros n. by rewrite B2.
  - intros n. by rewrite B3.
  - intros n Hn. rewrite B4 by (by apply A1). by apply A4.
  - intros n Hn. rewrite B5 by (by apply A1). by apply A5.
  - intros q k Hk Hm. apply B6; [by apply A6|].
    rewrite E12; [done|]. by eapply child_held.
  - intros n Hn Hm. rewrite B7; [by apply A7 | by apply A1 |].
    by rewrite E12.
  - intros n Hn Hp. apply B8; [by apply A1 | by apply A8].
Qed.

Lemma sameTree_keeps d d' :
  sameTree d d' → (∀ n, value (node d' n) = value (node d n)) → keeps d d'.
Proof.
  intros H Hv. pose proof H as [Hd H']. split_and!; try done.
  - by rewrite Hd.
  - intros n. by apply sameTree_isField.
  - intros n _. by destruct (H' n) as (_ & _ & -> & _).
  - intros n _. by destruct (H' n) as (_ & _ & _ & _ & ->).
  - intros q k. by rewrite (sameTree_kids _ _ _ H).
  - intros n _ _. by apply sameTree_parent.
  - intros n _. by rewrite (sameTree_parent _ _ _ H).
Qed.

(** The next element sibling is an element among the children of the same
    parent. *)
Lemma nextElementSibling_child d n k :
  nextElementSibling d n = Some k →
  ∃ q, parent d n = Some q ∧ k ∈ kids d q ∧ isElement (node d k) = true.
Proof.
  unfold nextElementSibling, followingSiblings. fold (parent d n).
  destruct (parent d n) as [q|]; [|done]. intros H.
  apply List.find_some in H as [H1 H2]. exists q. split_and!; try done.
  apply list_elem_of_In in H1. by eapply after_subseteq.
Qed.

Lemma hasErrorMessage_transfer d d' n n' :
  nextElementSibling d' n' = nextElementSibling d n →
  (∀ k, nextElementSibling d n = Some k →
        contains "error-message" d' k = contains "error-message" d k) →
  hasErrorMessage d' n' = hasErrorMessage d n.
Proof.
  intros E H. unfold hasErrorMessage, lacks. rewrite E.
  destruct (nextElementSibling d n) as [k|]; [|done]. by rewrite H.
Qed.

Lemma field_is_element d n : isField d n = true → isElement (node d n) = true.
Proof.
  unfold isField, isRequiredField. by intros [[? _]%andb_true_iff _]%andb_true_iff.
Qed.

(** The branch that inserts a message. *)
Lemma step_insert d i :
  wellFormed d → tidy d → isField d i = true → is_Some (parent d i) →
  hasErrorMessage d i = false →
  ∃ d', (createErrorMessage ≫= insertAfter i) d = Normal tt d'
    ∧ stepped d d' i ∧ hasErrorMessage d' i = true.
Proof.
  intros W T Hf [p Hp] Hno.
  destruct (insertMessage_spec d i p W Hp)
    as (d' & pre & post & Hrun & Hk & _ & _ & _ & _ & Hsi & Hsp & Hnd & Hdom & Hnode).
  set (s := fresh (dom d)) in *.
  pose proof (node_fresh d) as Hfresh. fold s in Hfresh.
  pose proof (field_is_element _ _ Hf) as Hi.
  assert (inserted d d' i p s pre post) as Hins by (by split_and!).
  pose proof (ins_kids _ _ _ _ _ _ _ Hins) as Ekids.
  pose proof (ins_parent _ _ _ _ _ _ _ Hins) as Eparent.
  pose proof (ins_isElement _ _ _ _ _ _ _ Hins) as Eelem.
  pose proof (ins_isField _ _ _ _ _ _ _ Hins) as Efield.
  pose proof (ins_value _ _ _ _ _ _ _ Hins) as Evalue.
  pose proof (ins_contains _ _ _ _ _ _ _ Hins) as Econt.
  pose proof (ins_isErrorMessage _ _ _ _ _ _ _ Hins) as Emsg.
  pose proof (ins_nextElementSibling_i _ _ _ _ _ _ _ Hins) as Ei.
  pose proof (ins_nextElementSibling_s _ _ _ _ _ _ _ Hins) as Es.
  pose proof (ins_nextElementSibling_other _ _ _ _ _ _ _ Hins) as Eother.
  assert (∀ n, n ∈ dom d → n ≠ s) as Hold.
  { intros n Hn ->. by apply is_fresh in Hn. }
  assert (∀ n k, nextElementSibling d n = Some k → k ≠ s) as Hsib.
  { intros n k (q & _ & Hq & _)%nextElementSibling_child.
    apply Hold. by eapply child_held. }
  exists d'. split; [done|]. split; [split_and!|].
  - by eapply ins_wellFormed.
  - assert (isField d s = false) as Hfs by (by unfold isField; rewrite Hfresh).
    assert (kids d' s = []) as Hks by (by rewrite Ekids, decide_True).
    intros e. rewrite Emsg, Efield.
    destruct (decide (e = s)) as [->|Hes].
    + intros _. split_and!; [done| |].
      * intros depth k. rewrite (descendants_leaf _ _ _ Hks).
        by intros ?%elem_of_nil.
      * rewrite <- Hno. apply hasErrorMessage_transfer; [done|].
        intros k Hk'. apply Econt. by eapply Hsib.
    + intros He. destruct (T e He) as (T1 & T2 & T3). split_and!; [done| |].
      * intros depth k Hk'. rewrite Efield.
        apply (descendants_grown d d' s) in Hk' as [->|Hk']; [done | by eapply T2 | | done].
        intros m c. rewrite Ekids. destruct (decide (m = s)); [by intros ?%elem_of_nil|].
        destruct (decide (m = p)) as [->|]; [|by right]. rewrite Hk.
        intros [?|Hc]%elem_of_app; [right; apply elem_of_app; by left|].
        apply elem_of_cons in Hc as [->|Hc];
          [right; apply elem_of_app; right; apply list_elem_of_here|].
        apply elem_of_cons in Hc as [->|Hc]; [by left|].
        right. apply elem_of_app. right. by apply list_elem_of_further.
      * rewrite <- T3. apply hasErrorMessage_transfer.
        -- apply Eother; [|done]. intros ->. congruence.
        -- intros k Hk'. apply Econt. by eapply Hsib.
  - split_and!.
    + rewrite Hdom. apply union_subseteq_r.
    + done.
    + done.
    + intros n Hn. by rewrite Eelem, decide_False by (by apply Hold).
    + intros n Hn. apply Econt. by apply Hold.
    + intros q k Hq _. by eapply (ins_kids_mono _ _ _ _ _ _ _ Hins).
    + intros n Hn _. by rewrite Eparent, decide_False by (by apply Hold).
    + intros n Hn Hpn. by rewrite Eparent, decide_False by (by apply Hold).
  - intros n c Hn. apply Econt. by apply Hold.
  - intros j Hj Hji. apply Eother; [done|]. apply Hold, elem_of_dom.
    by apply isField_held.
  - unfold hasErrorMessage, lacks. rewrite Ei.
    unfold contains. rewrite Hnode, decide_True by done. done.
Qed.

(** The branch that removes a message. *)
Lemma step_remove d i e :
  wellFormed d → tidy d → isField d i = true →
  nextElementSibling d i = Some e → contains "error-message" d e = true →
  stepped d (remove e d) i
  ∧ hasErrorMessage (remove e d) i = false
  ∧ parent (remove e d) e = None.
Proof.
  intros W T Hf Hnext Hcls.
  pose proof (field_is_element _ _ Hf) as Hi.
  destruct (nextElementSibling_child _ _ _ Hnext) as (p & Hp & Hin & He).
  assert (isErrorMessage d e = true) as Hmsg
    by (unfold isErrorMessage; by rewrite He, Hcls).
  destruct (T e Hmsg) as (T1 & T2 & T3).
  pose proof W as (W1 & W2 & W3).
  assert (e ≠ p) as Hep.
  { intros ->. apply W2, child_descendant, T2 in Hp. congruence. }
  assert (parent d e = Some p) as Hpe by (by apply W1).
  destruct (remove_node d e p Hpe Hep (kids_held _ _ _ Hin)) as [Hdom Hnode].
  destruct (split_at i _ (W3 p) (W2 _ _ Hp)) as (pre & rest & Hk & _ & _ & Haft).
  assert (List.find (fun k => isElement (node d k)) rest = Some e) as Hfind.
  { revert Hnext. unfold nextElementSibling, followingSiblings.
    fold (parent d i). rewrite Hp. fold (kids d p). by rewrite Haft. }
  apply find_Some_split in Hfind as (texts & post & -> & _ & Htexts).
  set (d' := remove e d) in *.
  assert (removed d d' i p e pre texts post) as Hrem by (by split_and!).
  pose proof (rem_facts _ _ _ _ _ _ _ _ Hrem) as (_ & _ & _ & _ & Hei & _).
  pose proof (rem_isField _ _ _ _ _ _ _ _ Hrem) as Efield.
  pose proof (rem_isElement _ _ _ _ _ _ _ _ Hrem) as Eelem.
  pose proof (rem_contains _ _ _ _ _ _ _ _ Hrem) as Econt.
  pose proof (rem_isErrorMessage _ _ _ _ _ _ _ _ Hrem) as Emsg.
  pose proof (rem_kids _ _ _ _ _ _ _ _ Hrem) as Ekids.
  pose proof (rem_parent _ _ _ _ _ _ _ _ Hrem) as Eparent.
  pose proof (rem_nextElementSibling_i _ _ _ _ _ _ _ _ Hrem) as Ei.
  pose proof (rem_nextElementSibling_other _ _ _ _ _ _ _ _ Hrem) as Eother.
  split; [split_and!|split].
  - by eapply rem_wellFormed.
  - intros x. rewrite Emsg, Efield. intros Hx.
    destruct (T x Hx) as (X1 & X2 & X3). split_and!; [done| |].
    + intros depth k Hk'. rewrite Efield. apply (X2 depth).
      eapply descendants_shrunk; [|done].
      intros m c Hc. by apply (rem_kids_sub _ _ _ _ _ _ _ _ Hrem) in Hc as [? _].
    + destruct (decide (x = e)) as [->|Hxe].
      * unfold hasErrorMessage, nextElementSibling, followingSiblings.
        fold (parent d' e). by rewrite Eparent, decide_True.
      * rewrite <- X3. apply hasErrorMessage_transfer; [|done].
        apply Eother; [by intros ->; congruence | done |].
        unfold isErrorMessage in Hx. by apply andb_true_iff in Hx as [? _].
  - split_and!.
    + by rewrite Hdom.
    + done.
    + apply (rem_value _ _ _ _ _ _ _ _ Hrem).
    + intros n _. apply Eelem.
    + intros n _. apply Econt.
    + intros q k Hq Hk'. eapply (rem_kids_mono _ _ _ _ _ _ _ _ Hrem); [done|].
      intros ->. congruence.
    + intros n _ Hn. rewrite Eparent, decide_False; [done|]. intros ->. congruence.
    + intros n _ Hn. rewrite Eparent. by destruct (decide (n = e)).
  - intros n c _. apply Econt.
  - intros j Hj Hji. apply Eother; [done| |by apply field_is_element].
    intros ->. congruence.
  - rewrite <- T3. by apply hasErrorMessage_transfer.
  - by rewrite Eparent, decide_True.
Qed.

(** *** One field *)

Lemma visited_from_step d d1 d' i :
  wellFormed d → isField d i = true →
  sameTree d d1 → (∀ n, value (node d1 n) = value (node d n)) →
  (∀ n c, n ≠ i → contains c d1 n = contains c d n) →
  stepped d1 d' i →
  contains "error" d1 i = negb (filled d i) →
  hasErrorMessage d' i = negb (filled d i) →
  (filled d i = true → ∀ e, nextElementSibling d1 i = Some e →
     isErrorMessage d1 e = true → parent d' e = None) →
  visited d d' i.
Proof.
  intros W Hf Hsame Hval Hcls (S1 & S2 & S3 & S4 & S5) Herr Hmsg Hdet.
  assert (∀ n, n ∈ dom d → n ∈ dom d1) as Hdom
    by (intros n; destruct Hsame as [-> _]; done).
  split_and!; [done | done | | | done | | ].
  - eapply keeps_trans; [done | by apply sameTree_keeps | done].
  - rewrite S4; [done|]. by apply Hdom, elem_of_dom, isField_held.
  - intros j Hj Hji. split.
    + rewrite S4 by (by apply Hdom, elem_of_dom, isField_held). by apply Hcls.
    + rewrite S5; [by apply sameTree_nextElementSibling| |done].
      by rewrite (sameTree_isField _ _ _ Hsame).
  - intros Hfill e He Hm. apply Hdet; [done| |].
    + by rewrite (sameTree_nextElementSibling _ _ _ Hsame).
    + by rewrite (sameTree_isErrorMessage _ _ _ Hsame).
Qed.

Lemma stepped_refl d i : wellFormed d → tidy d → stepped d d i.
Proof. intros. split_and!; try done. Qed.

(** The loop body, with its monadic plumbing carried out. *)
Lemma validateField_eq i d v :
  validateField i (mkState d v)
  = if isEmpty (trim (value (node d i))) then
      let d1 := classList_add "error" i d in
      if lacks "error-message" d1 (nextElementSibling d1 i) then
        match (createErrorMessage ≫= insertAfter i) d1 with
        | Normal a d' => Normal a (mkState d' false)
        | Throw e d' => Throw e (mkState d' false)
        end
      else Normal tt (mkState d1 false)
    else
      let d1 := classList_remove "error" i d in
      match nextElementSibling d1 i with
      | Some e =>
          if contains "error-message" d1 e
          then Normal tt (mkState (remove e d1) v)
          else Normal tt (mkState d1 v)
      | None => Normal tt (mkState d1 v)
      end.
Proof.
  unfold validateField, onDocument, inDocument, mbind, M_bind, gets, modify,
    mret, M_ret.
  cbn [document isValid].
  destruct (isEmpty (trim (value (node d i)))); cbn [document isValid]; cbv zeta.
  - destruct (lacks _ _ _); [|done]. rewrite !createErrorMessage_eq.
    cbn [document isValid]. by destruct (insertAfter _ _ _).
  - unfold lacks. destruct (nextElementSibling _ i); [|done].
    by destruct (contains _ _ _).
Qed.

Lemma validateField_step d v i :
  wellFormed d → tidy d → isField d i = true → is_Some (parent d i) →
  ∃ d', validateField i (mkState d v) = Normal tt (mkState d' (v && filled d i))
    ∧ visited d d' i.
Proof.
  intros W T Hf Hp. rewrite validateField_eq. unfold filled.
  destruct (isEmpty (trim (value (node d i)))) eqn:Hempty; cbn [negb];
    cbv zeta.
  - set (d1 := classList_add "error" i d).
    pose proof (sameTree_classList_add d i) as Hsame. fold d1 in Hsame.
    pose proof (sameTree_wellFormed _ _ Hsame W) as W1.
    pose proof (sameTree_tidy _ _ Hsame T) as T1.
    assert (isField d1 i = true) as Hf1 by (by rewrite (sameTree_isField _ _ _ Hsame)).
    assert (is_Some (parent d1 i)) as Hp1 by (by rewrite (sameTree_parent _ _ _ Hsame)).
    assert (contains "error" d1 i = true) as Herr
      by (by apply classList_add_contains, isField_held).
    assert (filled d i = false) as Hfilled by (unfold filled; by rewrite Hempty).
    rewrite andb_false_r.
    destruct (lacks "error-message" d1 (nextElementSibling d1 i)) eqn:Hlacks.
    + assert (hasErrorMessage d1 i = false) as Hno
        by (unfold hasErrorMessage; by rewrite Hlacks).
      destruct (step_insert d1 i W1 T1 Hf1 Hp1 Hno) as (d' & Hrun & Hst & Hhas).
      exists d'. split; [by rewrite Hrun|].
      apply (visited_from_step d d1 d' i W Hf Hsame).
      * intros n. apply value_classList_add.
      * intros n c Hn. by apply contains_classList_add_ne.
      * done.
      * by rewrite Hfilled.
      * by rewrite Hfilled.
      * by rewrite Hfilled.
    + exists d1. split; [done|].
      apply (visited_from_step d d1 d1 i W Hf Hsame).
      * intros n. apply value_classList_add.
      * intros n c Hn. by apply contains_classList_add_ne.
      * by apply stepped_refl.
      * by rewrite Hfilled.
      * unfold hasErrorMessage. by rewrite Hfilled, Hlacks.
      * by rewrite Hfilled.
  - set (d1 := classList_remove "error" i d).
    pose proof (sameTree_classList_remove d i) as Hsame. fold d1 in Hsame.
    pose proof (sameTree_wellFormed _ _ Hsame W) as W1.
    pose proof (sameTree_tidy _ _ Hsame T) as T1.
    assert (isField d1 i = true) as Hf1 by (by rewrite (sameTree_isField _ _ _ Hsame)).
    assert (contains "error" d1 i = false) as Herr
      by apply classList_remove_contains.
    assert (filled d i = true) as Hfilled by (unfold filled; by rewrite Hempty).
    rewrite andb_true_r.
    destruct (nextElementSibling d1 i) as [e|] eqn:He;
      [destruct (contains "error-message" d1 e) eqn:Hcls|].
    + destruct (step_remove d1 i e W1 T1 Hf1 He Hcls) as (Hst & Hhas & Hdet).
      exists (remove e d1). split; [done|].
      apply (visited_from_step d d1 (remove e d1) i W Hf Hsame).
      * intros n. apply value_classList_remove.
      * intros n c Hn. by apply contains_classList_remove_ne.
      * done.
      * by rewrite Hfilled.
      * by rewrite Hfilled.
      * intros _ e' He' _. congruence.
    + exists d1. split; [done|].
      apply (visited_from_step d d1 d1 i W Hf Hsame).
      * intros n. apply value_classList_remove.
      * intros n c Hn. by apply contains_classList_remove_ne.
      * by apply stepped_refl.
      * by rewrite Hfilled.
      * unfold hasErrorMessage, lacks. by rewrite Hfilled, He, Hcls.
      * intros _ e' He' Hm. exfalso. assert (e' = e) as -> by congruence.
        unfold isErrorMessage in Hm. apply andb_true_iff in Hm as [_ Hm]. congruence.
    + exists d1. split; [done|].
      apply (visited_from_step d d1 d1 i W Hf Hsame).
      * intros n. apply value_classList_remove.
      * intros n c Hn. by apply contains_classList_remove_ne.
      * by apply stepped_refl.
      * by rewrite Hfilled.
      * unfold hasErrorMessage, lacks. by rewrite Hfilled, He.
      * intros _ e' He' _. congruence.
Qed.

(** *** The loop *)

Lemma keeps_filled d d' n : keeps d d' → filled d' n = filled d n.
Proof. intros (_ & _ & K3 & _). unfold filled. by rewrite K3. Qed.

Lemma keeps_hasErrorMessage d d' n :
  wellFormed d → keeps d d' →
  nextElementSibling d' n = nextElementSibling d n →
  hasErrorMessage d' n = hasErrorMessage d n.
Proof.
  intros W K E. apply hasErrorMessage_transfer; [done|].
  intros k (q & _ & Hq & _)%nextElementSibling_child.
  destruct K as (_ & _ & _ & _ & K5 & _). apply K5. by eapply child_held.
Qed.

Lemma field_not_message d n : tidy d → isField d n = true → isErrorMessage d n = false.
Proof.
  intros T Hf. destruct (isErrorMessage d n) eqn:E; [|done].
  destruct (T n E) as (? & _). congruence.
Qed.

Lemma forallb_agree {A} (f g : A → bool) l :
  (∀ x, f x = g x) → forallb f l = forallb g l.
Proof. intros H. induction l as [|x l IH]; simpl; [done|]. by rewrite H, IH. Qed.

Lemma forEach_validateField l : ∀ d v,
  wellFormed d → tidy d →
  (∀ i, i ∈ l → isField d i = true ∧ is_Some (parent d i)) →
  ∃ d', forEach l validateField (mkState d v)
        = Normal tt (mkState d' (v && forallb (filled d) l))
    ∧ validated d d' l.
Proof.
  induction l as [|i l IH]; intros d v W T Hl.
  - exists d. cbn. rewrite andb_true_r. split; [done|].
    split_and!; [done | done | apply keeps_refl | | | ].
    + by intros i ?%elem_of_nil.
    + by intros j _ _.
    + by intros i e ?%elem_of_nil.
  - destruct (Hl i (list_elem_of_here _ _)) as [Hf Hp].
    destruct (validateField_step d v i W T Hf Hp)
      as (d1 & Hrun1 & W1 & T1 & K1 & Herr & Hmsg & Hframe & Hdet).
    destruct (IH d1 (v && filled d i) W1 T1) as (d' & Hrun & W' & T' & K' & Hin & Hout & Hdet').
    { intros x Hx. destruct (Hl x (list_elem_of_further _ _ _ Hx)) as [Hfx Hpx].
      pose proof K1 as (_ & K12 & _ & _ & _ & _ & K17 & _).
      split; [by rewrite K12|]. rewrite K17; [done | by apply elem_of_dom, isField_held |].
      by apply field_not_message. }
    exists d'. split.
    + cbn [forEach]. unfold mbind, M_bind. rewrite Hrun1. fold (@mbind (M State) _).
      rewrite Hrun. do 2 f_equal. cbn [forallb]. rewrite andb_assoc. f_equal.
      apply forallb_agree. intros x. by apply keeps_filled.
    + split_and!; [done | done | by eapply keeps_trans | | | ].
      * intros x Hx. destruct (decide (x ∈ l)) as [Hxl|Hxl].
        -- rewrite <- (keeps_filled _ _ x K1). by apply Hin.
        -- apply elem_of_cons in Hx as [->|?]; [|done].
           destruct (Hout i) as [E1 E2]; [by destruct K1 as (_ & -> & _) | done |].
           rewrite E1. split; [done|].
           rewrite <- Hmsg. by apply keeps_hasErrorMessage.
      * intros j Hj [Hji Hjl]%not_elem_of_cons.
        destruct (Hframe j Hj Hji) as [F1 F2].
        destruct (Hout j) as [E1 E2]; [by destruct K1 as (_ & -> & _) | done |].
        split; congruence.
      * intros x e Hx Hfill Hnext He.
        assert (e ∈ dom d) as Hed by (by apply elem_of_dom, isErrorMessage_held).
        destruct (decide (x = i)) as [->|Hxi].
        -- destruct K' as (_ & _ & _ & _ & _ & _ & _ & K8). apply K8.
           ++ destruct K1 as (K11 & _). by apply K11.
           ++ by apply Hdet.
        -- apply elem_of_cons in Hx as [->|Hx]; [done|].
           destruct (Hl x (list_elem_of_further _ _ _ Hx)) as [Hfx _].
           destruct (Hframe x Hfx Hxi) as [_ F2]. apply (Hdet' x e Hx).
           ++ by rewrite (keeps_filled _ _ x K1).
           ++ congruence.
           ++ by rewrite (keeps_isErrorMessage _ _ _ K1).
Qed.

(** *** The fields of a form *)

Lemma descendants_child depth d n k :
  k ∈ descendants depth d n → ∃ q, k ∈ kids d q.
Proof.
  revert n. induction depth as [|depth IH]; intros n; simpl.
  - by intros ?%elem_of_nil.
  - intros H. apply list_elem_of_In, in_flat_map in H as (c & Hc & Hk).
    apply list_elem_of_In in Hc. destruct Hk as [->|Hk].
    + by exists n.
    + apply list_elem_of_In in Hk. by eapply IH.
Qed.

Lemma querySelectorAll_field d form i :
  wellFormed d → i ∈ querySelectorAll d form →
  isField d i = true ∧ is_Some (parent d i).
Proof.
  intros (W1 & _) [Hf Hi]%list_elem_of_filter. split; [done|].
  apply descendants_child in Hi as [q Hq]. exists q. by apply W1.
Qed.

(** A field found to some depth is found to any greater depth once the
    validator has run. *)
Lemma descendants_kept d d' depth depth' n k :
  tidy d → keeps d d' → (depth ≤ depth')%nat →
  isField d k = true →
  k ∈ descendants depth d n → k ∈ descendants depth' d' n.
Proof.
  intros T K. revert depth' n. induction depth as [|depth IH]; intros depth' n Hle Hf.
  { by intros ?%elem_of_nil. }
  destruct depth' as [|depth']; [lia|]. simpl.
  intros H. apply list_elem_of_In, in_flat_map in H as (c & Hc & Hk).
  apply list_elem_of_In in Hc.
  assert (isErrorMessage d c = false) as Hc'.
  { destruct (isErrorMessage d c) eqn:E; [|done]. destruct (T c E) as (T1 & T2 & _).
    destruct Hk as [->|Hk]; [congruence|].
    apply list_elem_of_In, T2 in Hk. congruence. }
  apply list_elem_of_In, in_flat_map. exists c. split.
  - apply list_elem_of_In. destruct K as (_ & _ & _ & _ & _ & K6 & _). by apply K6.
  - destruct Hk as [->|Hk]; [by left|]. right.
    apply list_elem_of_In, IH; [lia | done | by apply list_elem_of_In].
Qed.

Lemma querySelectorAll_kept d d' form i :
  tidy d → keeps d d' →
  i ∈ querySelectorAll d form → i ∈ querySelectorAll d' form.
Proof.
  intros T K [Hf Hi]%list_elem_of_filter. apply list_elem_of_filter. split.
  - change (isField d' i = true). by destruct K as (_ & -> & _).
  - apply (descendants_kept d d' (size d) (size d') form i T K); [|done|done].
    destruct K as (K1 & _). rewrite <- !size_dom. by apply subseteq_size.
Qed.

(** *** Checking a given document *)

Lemma forallb_map_to_list (d : gmap nat Node) (f : nat * Node → bool) n x :
  forallb f (map_to_list d) = true → d !! n = Some x → f (n, x) = true.
Proof.
  intros H Hx. rewrite forallb_forall in H. apply H, list_elem_of_In.
  by apply elem_of_map_to_list.
Qed.

Lemma wellFormedb_sound d : wellFormedb d = true → wellFormed d.
Proof.
  intros H.
  assert (∀ p x, d !! p = Some x →
    (∀ k, k ∈ childNodes x → parent d k = Some p)
    ∧ (∀ q, parentNode x = Some q → p ∈ kids d q)
    ∧ NoDup (childNodes x)) as Hall.
  { intros p x Hx. pose proof (forallb_map_to_list _ _ _ _ H Hx) as Hp.
    cbn beta iota in Hp. apply andb_true_iff in Hp as [Hp H3].
    apply andb_true_iff in Hp as [H1 H2]. split_and!.
    - intros k Hk. rewrite forallb_forall in H1.
      apply list_elem_of_In, H1 in Hk. by apply bool_decide_eq_true in Hk.
    - intros q Hq. rewrite Hq in H2. by apply bool_decide_eq_true in H2.
    - by apply bool_decide_eq_true in H3. }
  split_and!.
  - intros p k Hk. destruct (kids_held _ _ _ Hk) as [x Hx].
    destruct (Hall p x Hx) as (H1 & _). apply H1.
    unfold kids in Hk. by rewrite (node_lookup _ _ _ Hx) in Hk.
  - intros k p Hp. destruct (parent_held _ _ _ Hp) as [x Hx].
    destruct (Hall k x Hx) as (_ & H2 & _). apply H2.
    unfold parent in Hp. by rewrite (node_lookup _ _ _ Hx) in Hp.
  - intros p. unfold kids. destruct (d !! p) as [x|] eqn:Hx.
    + rewrite (node_lookup _ _ _ Hx). by destruct (Hall p x Hx) as (_ & _ & ?).
    + rewrite (node_None _ _ Hx). constructor.
Qed.

Lemma tidyb_sound d : tidyb d = true → tidy d.
Proof.
  intros H e He. destruct (isErrorMessage_held _ _ He) as [x Hx].
  pose proof (forallb_map_to_list _ _ _ _ H Hx) as Hp. cbn beta iota in Hp.
  rewrite He in Hp. cbn in Hp.
  apply andb_true_iff in Hp as [Hp H3]. apply andb_true_iff in Hp as [H1 H2].
  apply negb_true_iff in H1, H3. apply bool_decide_eq_true in H2.
  split_and!; [done| |done]. intros depth k.
  rewrite descendants_leaf; [by intros ?%elem_of_nil|].
  unfold kids. by rewrite (node_lookup _ _ _ Hx).
Qed.

(** *** The validator *)

Lemma forallb_elem_of {A} (f : A → bool) l :
  forallb f l = true ↔ ∀ x, x ∈ l → f x = true.
Proof.
  rewrite forallb_forall. split; intros H x Hx; apply H; by apply list_elem_of_In.
Qed.

(** A document without any 'error-message' element is tidy. *)
Lemma clean_tidy d : (∀ n, isErrorMessage d n = false) → tidy d.
Proof. intros H e He. by rewrite H in He. Qed.

Lemma validateForm_run d form :
  wellFormed d → tidy d →
  let inputs := querySelectorAll d form in
  ∃ d', validateForm form d
        = Normal (forallb (filled d) inputs)
            (mkState d' (forallb (filled d) inputs))
    ∧ validated d d' inputs.
Proof.
  intros W T inputs.
  destruct (forEach_validateField inputs d true W T) as (d' & Hrun & Hv).
  { intros i Hi. by eapply querySelectorAll_field. }
  exists d'. split; [|done]. unfold validateForm. fold inputs.
  unfold mbind, M_bind. by rewrite Hrun.
Qed.

(** The validator leaves a well-formed, tidy document well formed and tidy:
    what it requires of the class 'error-message' it also maintains. *)
Lemma validateForm_keeps_tidy d form :
  wellFormed d → tidy d →
  let d' := document (final (validateForm form d)) in
  wellFormed d' ∧ tidy d'.
Proof.
  intros W T. destruct (validateForm_run d form W T) as (d' & Hrun & W' & T' & _).
  cbv zeta. by rewrite Hrun.
Qed.

(** C2, for a form in which the class 'error-message' is used as the
    validator uses it ([tidy]): the call returns normally, and returns true
    exactly when every required field has a non-empty trimmed value; every
    empty required field ends with the class 'error' and an 'error-message'
    element as its next element sibling; every filled one ends without the
    class and without such a sibling; and when the visitor then fills the
    fields, a second call returns true, leaves no field with the class or
    with a message, and has detached the messages that stood beside the
    fields. *)
Theorem validateForm_marks_empty_required_fields
  (d : gmap nat Node) (form : nat) (edits : list (nat * list N)) :
  wellFormed d → tidy d →
  let inputs := querySelectorAll d form in
  ∃ valid d1,
    validateForm form d = Normal valid (mkState d1 valid)
    ∧ (valid = true ↔ ∀ i, i ∈ inputs → filled d i = true)
    ∧ (∀ i, i ∈ inputs → filled d i = false →
         contains "error" d1 i = true
         ∧ ∃ e, nextElementSibling d1 i = Some e ∧ isErrorMessage d1 e = true)
    ∧ (∀ i, i ∈ inputs → filled d i = true →
         contains "error" d1 i = false ∧ hasErrorMessage d1 i = false)
    ∧ (let d1' := fill edits d1 in
       (∀ i, i ∈ querySelectorAll d1' form → filled d1' i = true) →
       ∃ d2, validateForm form d1' = Normal true (mkState d2 true)
         ∧ ∀ i, i ∈ inputs →
             contains "error" d2 i = false
             ∧ hasErrorMessage d2 i = false
             ∧ ∀ e, nextElementSibling d1 i = Some e →
                 isErrorMessage d1 e = true →
                 parent d2 e = None ∧ ∀ q, e ∉ kids d2 q).
Proof.
  intros W T inputs.
  destruct (validateForm_run d form W T) as (d1 & Hrun & W1 & T1 & K1 & Hin & _ & _).
  fold inputs in Hrun, Hin.
  exists (forallb (filled d) inputs), d1. split_and!; [done | apply forallb_elem_of | | | ].
  - intros i Hi Hfill. destruct (Hin i Hi) as [E1 E2]. rewrite Hfill in E1, E2.
    split; [done|]. revert E2. unfold hasErrorMessage, lacks.
    destruct (nextElementSibling d1 i) as [e|] eqn:He; [|done].
    intros Hc. apply negb_true_iff, negb_false_iff in Hc. exists e. split; [done|].
    apply nextElementSibling_child in He as (_ & _ & _ & He).
    unfold isErrorMessage. by rewrite He, Hc.
  - intros i Hi Hfill. destruct (Hin i Hi) as [E1 E2]. by rewrite Hfill in E1, E2.
  - intros d1' Hfilled.
    pose proof (sameTree_fill edits d1) as Hsame. fold d1' in Hsame.
    pose proof (sameTree_wellFormed _ _ Hsame W1) as W1'.
    pose proof (sameTree_tidy _ _ Hsame T1) as T1'.
    destruct (validateForm_run d1' form W1' T1')
      as (d2 & Hrun2 & W2 & T2 & K2 & Hin2 & _ & Hdet2).
    assert (forallb (filled d1') (querySelectorAll d1' form) = true) as Hall
      by (by apply forallb_elem_of).
    rewrite Hall in Hrun2. exists d2. split; [done|].
    intros i Hi.
    assert (i ∈ querySelectorAll d1' form) as Hi2.
    { rewrite (sameTree_querySelectorAll _ _ _ Hsame).
      exact (querySelectorAll_kept d d1 form i T K1 Hi). }
    destruct (Hin2 i Hi2) as [E1 E2]. rewrite (Hfilled i Hi2) in E1, E2.
    split_and!; [done | done |]. intros e He Hm.
    assert (parent d2 e = None) as Hp.
    { apply (Hdet2 i e Hi2 (Hfilled i Hi2)).
      - by rewrite (sameTree_nextElementSibling _ _ _ Hsame).
      - by rewrite (sameTree_isErrorMessage _ _ _ Hsame). }
    split; [done|]. intros q Hq. destruct W2 as (W21 & _).
    apply W21 in Hq. congruence.
Qed.

Lemma validateForm_marks_empty_required_fields_witness :
  let d := Samples.contactForm in
  let inputs := querySelectorAll d 0 in
  ∃ valid d1,
    validateForm 0 d = Normal valid (mkState d1 valid)
    ∧ (valid = true ↔ ∀ i, i ∈ inputs → filled d i = true)
    ∧ (∀ i, i ∈ inputs → filled d i = false →
         contains "error" d1 i = true
         ∧ ∃ e, nextElementSibling d1 i = Some e ∧ isErrorMessage d1 e = true)
    ∧ (∀ i, i ∈ inputs → filled d i = true →
         contains "error" d1 i = false ∧ hasErrorMessage d1 i = false)
    ∧ (let d1' := fill [(1%nat, [97%N])] d1 in
       (∀ i, i ∈ querySelectorAll d1' 0 → filled d1' i = true) →
       ∃ d2, validateForm 0 d1' = Normal true (mkState d2 true)
         ∧ ∀ i, i ∈ inputs →
             contains "error" d2 i = false
             ∧ hasErrorMessage d2 i = false
             ∧ ∀ e, nextElementSibling d1 i = Some e →
                 isErrorMessage d1 e = true →
                 parent d2 e = None ∧ ∀ q, e ∉ kids d2 q).
Proof.
  apply (validateForm_marks_empty_required_fields Samples.contactForm 0
           [(1%nat, [97%N])]).
  - apply wellFormedb_sound. by vm_compute.
  - apply tidyb_sound. by vm_compute.
Defined.

(** The two calls on the sample form, run: the first returns false and puts
    one message (node 4) after the empty input; after the visitor has typed
    'a' the second returns true, and the message is detached. *)
Example validateForm_on_contactForm :
  let r1 := validateForm 0 Samples.contactForm in
  let d1 := document (final r1) in
  let r2 := validateForm 0 (fill [(1%nat, [97%N])] d1) in
  let d2 := document (final r2) in
  querySelectorAll Samples.contactForm 0 = [1; 3]%nat
  ∧ r1 = Normal false (final r1)
  ∧ kids d1 0 = [1; 4; 2; 3]%nat
  ∧ classList (node d1 1) = ["error"] ∧ classList (node d1 3) = []
  ∧ node d1 4 = messageNode (Some 0%nat)
  ∧ r2 = Normal true (final r2)
  ∧ kids d2 0 = [1; 2; 3]%nat
  ∧ classList (node d2 1) = [] ∧ parent d2 4 = None.
Proof. by vm_compute. Qed.

(** C2 as the specification words it, for every form, does not hold: a
    filled required field followed by two 'error-message' elements keeps the
    second one as its next element sibling. *)
Lemma stale_message_survives :
  let d := Samples.staleMessages in
  let r := validateForm 0 d in
  wellFormedb d = true
  ∧ querySelectorAll d 0 = [1%nat]
  ∧ filled d 1 = true
  ∧ r = Normal true (final r)
  ∧ kids (document (final r)) 0 = [1; 3]%nat
  ∧ hasErrorMessage (document (final r)) 1 = true.
Proof. by vm_compute. Qed.

(** A required field that itself carries the class is taken out of the
    document by the field before it, and the call then throws where it asks
    for the field's parent. *)
Example classed_field_throws :
  let d := Samples.classedField in
  wellFormedb d = true
  ∧ querySelectorAll d 0 = [1; 2]%nat
  ∧ threw (validateForm 0 d) = true.
Proof. by vm_compute. Qed.

(** A required field inside an 'error-message' element leaves the form with
    that element: the first call marks it there, and a second call, after
    the visitor has typed 'a' into it, returns true without visiting it, so
    it keeps its class and its message. *)
Example wrapped_field_left_behind :
  let d := Samples.wrappedField in
  let r1 := validateForm 0 d in
  let d1' := fill [(3%nat, [97%N])] (document (final r1)) in
  let r2 := validateForm 0 d1' in
  let d2 := document (final r2) in
  wellFormedb d = true
  ∧ querySelectorAll d 0 = [1; 3]%nat
  ∧ r1 = Normal false (final r1)
  ∧ querySelectorAll d1' 0 = [1%nat]
  ∧ r2 = Normal true (final r2)
  ∧ contains "error" d2 3 = true
  ∧ hasErrorMessage d2 3 = true.
Proof. by vm_compute. Qed.

End FormValidation.

(** ** More on the sticky header *)

Section StickyHeaderEvents.
Import StickyHeader.

(** The header after a run of scroll events, each handled to its end. *)
Lemma onScroll_eq (h : Style) (y : Q) :
  onScroll y (mkState (Some h))
  = Normal tt (mkState (Some
      (if Qgtb y (100 # 1)
       then set_boxShadow "0 5px 20px rgba(0, 0, 0, 0.1)" (set_padding "10px 0" h)
       else set_boxShadow "0 2px 10px rgba(0, 0, 0, 0.1)" (set_padding "20px 0" h)))).
Proof. unfold onScroll. by destruct (Qgtb y _). Qed.

(** X1: the listener writes the padding and the shadow and nothing else: the
    shadow is the stronger one exactly when the offset exceeds 100, and the
    other inline style properties of the header stay as they were. *)
Theorem sticky_header_shadow_by_offset (h : Style) (y : Q) :
  ∃ h', onScroll y (mkState (Some h)) = Normal tt (mkState (Some h'))
    ∧ ((100 # 1 < y)%Q → boxShadow h' = "0 5px 20px rgba(0, 0, 0, 0.1)")
    ∧ ((y <= 100 # 1)%Q → boxShadow h' = "0 2px 10px rgba(0, 0, 0, 0.1)")
    ∧ display h' = display h ∧ opacity h' = opacity h
    ∧ transform h' = transform h ∧ transition h' = transition h.
Proof.
  eexists. split; [apply onScroll_eq|].
  destruct (Qgtb y (100 # 1)) eqn:E.
  - apply Qgtb_true in E. split_and!; try done.
    intros L. exfalso. by apply (Qlt_not_le _ _ E).
  - apply Qgtb_false in E. split_and!; try done.
    intros L. exfalso. by apply (Qlt_not_le _ _ L).
Qed.

(** X2: no hysteresis: after any run of scroll events the state a further event
    leaves is the one it would have left at once, so the header's look
    depends on the last offset only. *)
Theorem sticky_header_last_event_wins (st : State) (earlier : list Q) (y : Q) :
  final (onScroll y (foldl (fun st y' => final (onScroll y' st)) st earlier))
  = final (onScroll y st).
Proof.
  revert st. induction earlier as [|y' ys IH]; intros st; simpl; [done|].
  rewrite IH. destruct st as [[h|]].
  - rewrite (onScroll_eq h y'). simpl. rewrite !onScroll_eq. simpl.
    by destruct (Qgtb y _), (Qgtb y' _).
  - by rewrite sticky_header_absent.
Qed.

(** X3: without a header element every scroll event throws a TypeError at its
    first assignment and changes nothing, however many events came before:
    the listener throws on each scroll of such a page. *)
Theorem sticky_header_missing_throws (earlier : list Q) (y : Q) :
  let st := foldl (fun st y' => final (onScroll y' st)) (mkState None) earlier in
  st = mkState None ∧ onScroll y st = Throw TypeError (mkState None).
Proof.
  assert (foldl (fun st y' => final (onScroll y' st)) (mkState None) earlier
          = mkState None) as E.
  { induction earlier as [|y' ys IH]; [done|]. cbn [foldl].
    by rewrite sticky_header_absent. }
  cbv zeta. rewrite E. split; [done | apply sticky_header_absent].
Qed.

End StickyHeaderEvents.

(** ** More on the mobile menu *)

Section MenuEvents.
Import MobileMenu.

(** X4: nothing but a click in the toggle shows the panel: when the panel's
    display is 'flex' after an event, it was 'flex' before or the event was a
    click whose target lies in the toggle. *)
Theorem menu_opened_by_toggle_only (e : Event) (st : State) :
  navDisplay (dispatch e st) = "flex" →
  navDisplay st = "flex" ∨ ∃ n, e = Click (mkTarget n true).
Proof.
  destruct e as [[n t]|key]; simpl.
  - destruct t; [intros _; right; by exists n|].
    unfold onDocumentClick. simpl. destruct n; simpl; [by left | done].
  - unfold onKeyDown. destruct (_ && _); simpl; [done | by left].
Qed.

Lemma menu_opened_by_toggle_only_witness :
  let e := Click (mkTarget false true) in
  let st := mkState "none" (Some "false") None true in
  navDisplay (dispatch e st) = "flex"
  ∧ (navDisplay st = "flex" ∨ ∃ n, e = Click (mkTarget n true)).
Proof.
  split; [reflexivity|].
  apply (menu_opened_by_toggle_only (Click (mkTarget false true))
           (mkState "none" (Some "false") None true)).
  reflexivity.
Defined.

(** X5: the events that are no click on the toggle: a click outside the
    toggle and the panel closes the menu from any state and leaves the focus
    where it was; Escape closes a shown panel and calls [focus()] on the
    toggle, so the focus moves to the toggle when the toggle takes the focus
    and stays where it was when it does not; a click inside the panel, a key
    other than Escape, and Escape while the panel's display is not 'flex'
    leave the display, [aria-expanded] and the focus as they were. *)
Theorem menu_closing_events (st : State) :
  dispatch (Click (mkTarget false false)) st
  = mkState "none" (Some "false") (activeElement st) (toggleFocusable st)
  ∧ (navDisplay st = "flex" →
     dispatch (KeyDown "Escape") st
     = mkState "none" (Some "false")
         (if toggleFocusable st then Some Toggle else activeElement st)
         (toggleFocusable st))
  ∧ dispatch (Click (mkTarget true false)) st = st
  ∧ (∀ key, key ≠ "Escape" ∨ navDisplay st ≠ "flex" → dispatch (KeyDown key) st = st).
Proof.
  split_and!; [done | | done |].
  - intros H. simpl. unfold onKeyDown. by rewrite H.
  - intros key. simpl. unfold onKeyDown. intros [H|H].
    + apply String.eqb_neq in H. by rewrite H.
    + apply String.eqb_neq in H. rewrite H. by rewrite andb_false_r.
Qed.

(** X6: the inline script's listener on the toggle writes the display and never
    [aria-expanded]: one click of it turns a state in which the two agree
    into one in which they do not. *)
Theorem inline_toggle_breaks_agreement (st : State) :
  consistent st → ¬ consistent (InlineMenu.onToggleClick st).
Proof.
  unfold consistent, InlineMenu.onToggleClick. destruct st as [d a f t]. simpl.
  destruct (String.eqb d "flex") eqn:E; intros [H1 H2] [H3 H4].
  - apply String.eqb_eq in E. specialize (H3 (H2 E)). discriminate.
  - apply String.eqb_neq in E. apply E, H1, H4. reflexivity.
Qed.

Lemma inline_toggle_breaks_agreement_witness :
  let st := mkState "none" (Some "false") None true in
  consistent st ∧ ¬ consistent (InlineMenu.onToggleClick st).
Proof.
  assert (consistent (mkState "none" (Some "false") None true)) as H
    by (split; discriminate).
  split; [exact H|].
  exact (inline_toggle_breaks_agreement (mkState "none" (Some "false") None true) H).
Defined.

End MenuEvents.

(** ** More on smooth scrolling *)

Section AnchorClicks.
Import SmoothScroll.

(** The three statements that move the focus to the target. *)
Lemma focus_target_spec (t : nat) (s : State) :
  ∃ s', (setAttribute t "tabindex" "-1" ;; focus t ;; removeAttribute t "tabindex") s
        = Normal tt s'
    ∧ scrollRequests s' = scrollRequests s ∧ history s' = history s
    ∧ activeElement s' = Some t ∧ defaultPrevented s' = defaultPrevented s
    ∧ ∀ k, style (element s' k) = style (element s k)
         ∧ attributes (element s' k)
           = (if bool_decide (k = t) then delete "tabindex" (attributes (element s k))
              else attributes (element s k)).
Proof.
  eexists. split; [reflexivity|].
  cbn [scrollRequests history activeElement defaultPrevented].
  split_and!; [done | done | done | done |]. intros k.
  unfold element. cbn [elements]. rewrite !lookup_insert.
  destruct (decide (t = t)) as [_|]; [|done]. cbn [default from_option id style attributes].
  case_bool_decide as Hk.
  - subst k. destruct (decide (t = t)) as [_|]; [|done]. cbn [default from_option id style attributes].
    split; [done|]. by rewrite delete_insert_eq.
  - destruct (decide (t = k)) as [->|]; done.
Qed.

(** The two statements that close the menu. *)
Lemma close_menu_spec (nav m : nat) (s : State) :
  ∃ s', (setDisplay nav "none" ;; setAttribute m "aria-expanded" "false") s
        = Normal tt s'
    ∧ scrollRequests s' = scrollRequests s ∧ history s' = history s
    ∧ activeElement s' = activeElement s ∧ defaultPrevented s' = defaultPrevented s
    ∧ ∀ k, style (element s' k)
           = (if bool_decide (k = nav) then set_display "none" (style (element s k))
              else style (element s k))
         ∧ attributes (element s' k)
           = (if bool_decide (k = m)
              then <["aria-expanded" := "false"]> (attributes (element s k))
              else attributes (element s k)).
Proof.
  eexists. split; [reflexivity|].
  cbn [scrollRequests history activeElement defaultPrevented].
  split_and!; [done | done | done | done |]. intros k.
  unfold element. cbn [elements]. rewrite !lookup_insert.
  destruct (decide (m = k)) as [->|Hm], (decide (nav = k)) as [->|Hn];
    cbn [default from_option id style attributes].
  - rewrite !bool_decide_eq_true_2 by done.
    destruct (decide (k = k)) as [_|]; done.
  - rewrite bool_decide_eq_false_2, bool_decide_eq_true_2 by done.
    destruct (decide (nav = k)); done.
  - rewrite bool_decide_eq_true_2, bool_decide_eq_false_2 by done. done.
  - rewrite !bool_decide_eq_false_2 by done. done.
Qed.

Lemma bool_decide_ext_if {A} (P Q : Prop) `{Decision P, Decision Q} (x y : A) :
  (P ↔ Q) → (if bool_decide P then x else y) = (if bool_decide Q then x else y).
Proof. intros HPQ. by rewrite (bool_decide_ext P Q HPQ). Qed.

(** The step that closes the menu, as the handler guards it. *)
Lemma close_step_spec (env : Env) (s : State) :
  ∃ s', (if (innerWidth env <=? 768)%Z then
           match navLinks env, mobileMenu env with
           | Some navLinks, Some mobileMenu =>
               setDisplay navLinks "none" ;;
               setAttribute mobileMenu "aria-expanded" "false"
           | _, _ => mret tt
           end
         else mret tt) s = Normal tt s'
    ∧ scrollRequests s' = scrollRequests s ∧ history s' = history s
    ∧ activeElement s' = activeElement s ∧ defaultPrevented s' = defaultPrevented s
    ∧ ∀ k, style (element s' k)
           = (if bool_decide ((innerWidth env ≤ 768)%Z ∧ navLinks env = Some k
                              ∧ is_Some (mobileMenu env))
              then set_display "none" (style (element s k))
              else style (element s k))
         ∧ attributes (element s' k)
           = (if bool_decide ((innerWidth env ≤ 768)%Z ∧ mobileMenu env = Some k
                              ∧ is_Some (navLinks env))
              then <["aria-expanded" := "false"]> (attributes (element s k))
              else attributes (element s k)).
Proof.
  destruct (Z.leb_spec (innerWidth env) 768) as [Hw|Hw];
    [destruct (navLinks env) as [nav|] eqn:Hnav;
       [destruct (mobileMenu env) as [m|] eqn:Hm|]|].
  - destruct (close_menu_spec nav m s) as (s' & Hrun & R & H & A & P & E).
    exists s'. split_and!; [done | done | done | done | done |]. intros k.
    destruct (E k) as [-> ->]. split; apply bool_decide_ext_if.
    + split; [intros ->; eauto | intros (_ & ? & _); congruence].
    + split; [intros ->; eauto | intros (_ & ? & _); congruence].
  - exists s. split_and!; [done | done | done | done | done |]. intros k.
    rewrite !bool_decide_eq_false_2; [done | |].
    + intros (_ & ? & _). done.
    + intros (_ & _ & [? ?]). done.
  - exists s. split_and!; [done | done | done | done | done |]. intros k.
    rewrite !bool_decide_eq_false_2; [done | |].
    + intros (_ & _ & [? ?]). done.
    + intros (_ & ? & _). done.
  - exists s. split_and!; [done | done | done | done | done |]. intros k.
    rewrite !bool_decide_eq_false_2; [done | |]; intros (? & _); lia.
Qed.

(** A click on an anchor whose target exists, on a page with a header. *)
Lemma onAnchorClick_found (env : Env) (st : State) (href : string) (target h : nat) :
  href ≠ "#" → query env href = Found target → header env = Some h →
  ∃ st', onAnchorClick env href st = Normal tt st'
    ∧ scrollRequests st'
      = (scrollRequests st
           ++ [mkScrollTo (offsetTop env target - offsetHeight env h) "smooth"])%list
    ∧ history st' = href :: history st
    ∧ activeElement st' = Some target
    ∧ defaultPrevented st' = true
    ∧ ∀ k,
        style (element st' k)
        = (if bool_decide ((innerWidth env ≤ 768)%Z ∧ navLinks env = Some k
                           ∧ is_Some (mobileMenu env))
           then set_display "none" (style (element st k))
           else style (element st k))
        ∧ attributes (element st' k)
          = (if bool_decide (k = target) then delete "tabindex" else id)
              ((if bool_decide ((innerWidth env ≤ 768)%Z ∧ mobileMenu env = Some k
                                ∧ is_Some (navLinks env))
                then <["aria-expanded" := "false"]> else id)
                 (attributes (element st k))).
Proof.
  intros Hne Hq Hh.
  pose (s0 := mkState (elements st)
               (scrollRequests st
                  ++ [mkScrollTo (offsetTop env target - offsetHeight env h) "smooth"])%list
               (href :: history st) (activeElement st) true).
  destruct (close_step_spec env s0) as (s1 & Hrun1 & R1 & H1 & A1 & P1 & E1).
  destruct (focus_target_spec target s1) as (s2 & Hrun2 & R2 & H2 & A2 & P2 & E2).
  exists s2. split.
  - unfold onAnchorClick, querySelector, offsetHeightOf.
    cbn -[String.eqb Z.leb insert delete element setDisplay setAttribute focus
            removeAttribute].
    rewrite (eqb_hash_false _ Hne), Hq, Hh.
    unfold mbind in Hrun1, Hrun2 |- *. unfold M_bind in Hrun1, Hrun2 |- *.
    cbn -[String.eqb Z.leb insert delete element setDisplay setAttribute focus
            removeAttribute] in Hrun1, Hrun2 |- *.
    fold s0. rewrite Hrun1. exact Hrun2.
  - split_and!; [by rewrite R2, R1 | by rewrite H2, H1 | done | by rewrite P2, P1 |].
    intros k. destruct (E2 k) as [-> ->], (E1 k) as [-> ->].
    change (element s0 k) with (element st k).
    split; [done|]. by repeat case_bool_decide.
Qed.



(** X8: the handler removes the [tabindex] attribute it has just set, and
    so the target ends without one even when it had a [tabindex] of its own
    before the click; its other attributes, [aria-expanded] apart, are
    kept. *)
Theorem anchor_click_drops_tabindex
  (env : Env) (st : State) (href : string) (target h : nat) :
  href ≠ "#" → query env href = Found target → header env = Some h →
  ∃ st', onAnchorClick env href st = Normal tt st'
    ∧ attributes (element st' target) !! "tabindex" = None
    ∧ ∀ name, name ≠ "tabindex" → name ≠ "aria-expanded" →
        attributes (element st' target) !! name
        = attributes (element st target) !! name.
Proof.
  intros Hne Hq Hh.
  destruct (onAnchorClick_found env st href target h Hne Hq Hh)
    as (st' & Hrun & _ & _ & _ & _ & He).
  exists st'. split; [done|]. destruct (He target) as [_ ->].
  rewrite bool_decide_eq_true_2 by done. split.
  - apply lookup_delete_eq.
  - intros name H1 H2. rewrite lookup_delete_ne by done.
    case_bool_decide; [|done]. by rewrite lookup_insert_ne.
Qed.

Lemma anchor_click_drops_tabindex_witness :
  let st := mkState {[3%nat := mkElement noStyle {["tabindex" := "0"]}]}
              [] [] None false in
  attributes (element st 3) !! "tabindex" = Some "0"
  ∧ ∃ st', onAnchorClick (Samples.pricingPage 60) "#pricing" st = Normal tt st'
      ∧ attributes (element st' 3) !! "tabindex" = None
      ∧ ∀ name, name ≠ "tabindex" → name ≠ "aria-expanded" →
          attributes (element st' 3) !! name = attributes (element st 3) !! name.
Proof.
  split; [reflexivity|].
  apply (anchor_click_drops_tabindex (Samples.pricingPage 60)
           (mkState {[3%nat := mkElement noStyle {["tabindex" := "0"]}]}
              [] [] None false)
           "#pricing" 3 0); [done | reflexivity | reflexivity].
Defined.



(** X10: both anchor listeners prevent the default navigation before
    anything else, so it stays prevented however the click ends: for the bare
    '#', for a target that is missing, and when the handler throws. *)
Theorem anchor_click_always_prevents_default
  (env : Env) (nav : option nat) (href : string) (st : State) :
  defaultPrevented (final (onAnchorClick env href st)) = true
  ∧ defaultPrevented (final (InlineScript.onAnchorClick env nav href st)) = true.
Proof.
  split.
  - destruct (decide (href = "#")) as [->|Hne]; [done|].
    destruct (query env href) as [| |target] eqn:Hq.
    + by rewrite bad_selector_throws.
    + unfold onAnchorClick, querySelector. cbn -[String.eqb].
      by rewrite (eqb_hash_false _ Hne), Hq.
    + destruct (header env) as [h|] eqn:Hh.
      * destruct (onAnchorClick_found env st href target h Hne Hq Hh)
          as (st' & -> & _ & _ & _ & ? & _). done.
      * unfold onAnchorClick, querySelector. cbn -[String.eqb].
        by rewrite (eqb_hash_false _ Hne), Hq, Hh.
  - unfold InlineScript.onAnchorClick, querySelector.
    cbn -[String.eqb Z.leb insert delete element].
    destruct (String.eqb href "#"); [done|].
    destruct (query env href); [done | done |].
    destruct (innerWidth env <=? 768)%Z, nav; done.
Qed.

(** X11: a href that is no selector (as '#/pricing' is none) makes either
    listener throw the lookup's SyntaxError, with the default navigation
    prevented and nothing else done. *)
Theorem anchor_with_bad_selector_throws
  (env : Env) (nav : option nat) (st : State) (href : string) :
  href ≠ "#" → query env href = BadSelector →
  onAnchorClick env href st = Throw SyntaxError (onlyPrevented st)
  ∧ InlineScript.onAnchorClick env nav href st = Throw SyntaxError (onlyPrevented st).
Proof.
  intros Hne Hq. split.
  - unfold onAnchorClick, querySelector. cbn -[String.eqb].
    by rewrite (eqb_hash_false _ Hne), Hq.
  - unfold InlineScript.onAnchorClick, querySelector. cbn -[String.eqb].
    by rewrite (eqb_hash_false _ Hne), Hq.
Qed.

Lemma anchor_with_bad_selector_throws_witness :
  onAnchorClick MoreSamples.routedPage "#/pricing" Samples.untouched
  = Throw SyntaxError (onlyPrevented Samples.untouched)
  ∧ InlineScript.onAnchorClick MoreSamples.routedPage (Some 1%nat) "#/pricing"
      Samples.untouched
    = Throw SyntaxError (onlyPrevented Samples.untouched).
Proof.
  apply (anchor_with_bad_selector_throws MoreSamples.routedPage (Some 1%nat)
           Samples.untouched "#/pricing"); [done | reflexivity].
Defined.

(** X12: the inline script's listener, on a target that exists: it asks for
    a smooth scroll to [offsetTop - 80], never pushes onto the history, never
    moves the focus and never writes an attribute.  In a window wider than
    768 pixels it returns with every element as it was; in a narrower one it
    sets the captured panel's display to 'none', and throws a TypeError,
    after the scroll request, when the script found no panel. *)
Theorem inline_anchor_click
  (env : Env) (nav : option nat) (st : State) (href : string) (target : nat) :
  href ≠ "#" → query env href = Found target →
  let r := InlineScript.onAnchorClick env nav href st in
  scrollRequests (final r)
  = (scrollRequests st ++ [mkScrollTo (offsetTop env target - 80) "smooth"])%list
  ∧ history (final r) = history st
  ∧ activeElement (final r) = activeElement st
  ∧ (∀ k, attributes (element (final r) k) = attributes (element st k))
  ∧ ((768 < innerWidth env)%Z →
     threw r = false ∧ ∀ k, element (final r) k = element st k)
  ∧ ((innerWidth env ≤ 768)%Z →
     match nav with
     | Some n => threw r = false ∧ display (style (element (final r) n)) = "none"
     | None => r = Throw TypeError (final r) ∧ ∀ k, element (final r) k = element st k
     end).
Proof.
  intros Hne Hq r. subst r.
  unfold InlineScript.onAnchorClick, InlineScript.setNavDisplay, querySelector.
  cbn -[String.eqb Z.leb insert delete element].
  rewrite (eqb_hash_false _ Hne), Hq.
  destruct (Z.leb_spec (innerWidth env) 768) as [Hw|Hw], nav as [n|];
    unfold mbind, M_bind, mret, M_ret, preventDefault, scrollTo, setDisplay,
      update, modify, throw;
    cbn -[insert delete element]; (split_and!; [done | done | done | | | ]);
    try (intros; lia); try done.
  - intros k. unfold element at 1. cbn [elements]. rewrite lookup_insert.
    destruct (decide (n = k)) as [->|]; done.
  - intros _. split; [done|]. unfold element at 1. cbn [elements].
    by rewrite lookup_insert_eq.
Qed.

Lemma inline_anchor_click_witness :
  let r := InlineScript.onAnchorClick MoreSamples.narrowPage None "#pricing"
             Samples.untouched in
  scrollRequests (final r) = [mkScrollTo 420 "smooth"]
  ∧ history (final r) = []
  ∧ r = Throw TypeError (final r).
Proof.
  pose proof (inline_anchor_click MoreSamples.narrowPage None Samples.untouched
                "#pricing" 3 ltac:(done) eq_refl) as (H1 & H2 & _ & _ & _ & H6).
  split_and!; [exact H1 | exact H2 |].
  exact (proj1 (H6 ltac:(by vm_compute))).
Defined.

End AnchorClicks.

(** ** More on the testimonial rotator *)

Section RotatorState.
Import Cards.

(** What [showTestimonial] writes on the card at position [j]. *)
Lemma showTestimonial_lookup index c ts d :
  NoDup ts →
  (showTestimonial index (mkSlider ts c) d).1 = mkSlider ts index
  ∧ (∀ j id, ts !! j = Some id →
       (showTestimonial index (mkSlider ts c) d).2 !! id
       = (fun e => set_ariaHidden (boolString (negb (Nat.eqb j index)))
                     (set_style (set_display
                        (if Nat.eqb j index then "block" else "none")) e))
           <$> d !! id)
  ∧ (∀ id, id ∉ ts → (showTestimonial index (mkSlider ts c) d).2 !! id = d !! id).
Proof.
  intros Hnd. unfold showTestimonial, forEach. cbn [fst snd testimonials].
  set (g := fun (_ : nat) (i : nat) =>
    set_ariaHidden (boolString (negb (Nat.eqb i index)))
    ∘ set_style (set_display (if Nat.eqb i index then "block" else "none"))).
  rewrite (forEachFrom_ext _ _ _ (fun node j => alter (g node j) node))
    by (intros; unfold g; by rewrite list_alter_alter_eq).
  split_and!; [done | |].
  - intros j id Hj. by rewrite (forEachFrom_alter_at _ _ g _ j).
  - intros id Hid. by apply forEachFrom_alter_other.
Qed.

Lemma length_by_lookup {A B} (l1 : list A) (l2 : list B) :
  (∀ i, is_Some (l1 !! i) ↔ is_Some (l2 !! i)) → length l1 = length l2.
Proof.
  intros H. apply Nat.le_antisymm; apply Nat.nlt_ge; intros Hlt.
  - apply lookup_lt_is_Some_2, H, lookup_lt_is_Some_1 in Hlt. lia.
  - apply lookup_lt_is_Some_2, H, lookup_lt_is_Some_1 in Hlt. lia.
Qed.

Lemma tick_eq (p : Page) (ts : list nat) (c : nat) :
  NoDup ts → slider p = Some (mkSlider ts c) →
  tick p
  = mkPage (showTestimonial ((c + 1) mod length ts) (mkSlider ts c) (doc p)).2
      (Some (mkSlider ts ((c + 1) mod length ts))) (timers p) (scrollListeners p).
Proof.
  intros Hnd Hs. unfold tick. rewrite Hs. cbn [testimonials currentTestimonial].
  destruct (showTestimonial_lookup ((c + 1) mod length ts) c ts (doc p) Hnd)
    as (Hs' & _).
  destruct (showTestimonial _ _ _) as [s' d']. cbn [fst snd] in *. by subst s'.
Qed.

(** The page after the initial call and [k] ticks, card by card, from the
    page the rotator found. *)
Lemma rotation_lookup (p0 : Page) (k : nat) :
  let ts := querySelectorAll ["testimonial-card"] (doc p0) in
  let N := length ts in
  (2 ≤ N)%nat →
  let p := Nat.iter k tick (initTestimonialsSlider p0) in
  slider p = Some (mkSlider ts (k mod N))
  ∧ timers p = (timers p0 ++ [mkTimer RotateTestimonials 5000])%list
  ∧ scrollListeners p = scrollListeners p0
  ∧ (∀ j id, ts !! j = Some id →
       doc p !! id
       = (fun e => set_ariaHidden (boolString (negb (Nat.eqb j (k mod N))))
                     (set_style (set_display
                        (if Nat.eqb j (k mod N) then "block" else "none")) e))
           <$> doc p0 !! id)
  ∧ (∀ id, id ∉ ts → doc p !! id = doc p0 !! id).
Proof.
  intros ts N HN p. subst p.
  assert (NoDup ts) as Hnd by apply querySelectorAll_NoDup.
  induction k as [|k IH].
  - cbn [Nat.iter]. unfold initTestimonialsSlider. fold ts. fold N.
    destruct (Nat.leb_spec N 1) as [|_]; [lia|].
    destruct (showTestimonial_lookup 0 0 ts (doc p0) Hnd) as (Hs & Hin & Hout).
    destruct (showTestimonial 0 (mkSlider ts 0) (doc p0)) as [s' d'].
    cbn [fst snd] in *. cbn. rewrite Nat.Div0.mod_0_l. subst s'. split_and!; try done.
  - rewrite Nat.iter_succ. destruct IH as (Hs & Ht & Hl & Hin & Hout).
    rewrite (tick_eq _ _ _ Hnd Hs). cbn [slider timers scrollListeners doc]. fold N.
    replace (S k mod N)%nat with ((k mod N + 1) mod N)%nat
      by (rewrite Nat.Div0.add_mod_idemp_l; f_equal; lia).
    destruct (showTestimonial_lookup ((k mod N + 1) mod N) (k mod N) ts
                (doc (Nat.iter k tick (initTestimonialsSlider p0))) Hnd)
      as (_ & Hin' & Hout').
    split_and!; [done | done | done | |].
    + intros j id Hj. rewrite (Hin' j id Hj), (Hin j id Hj).
      by destruct (doc p0 !! id).
    + intros id Hid. by rewrite (Hout' id Hid), (Hout id Hid).
Qed.

(** X13: after the initial call and any number of ticks the shown card has
    display 'block' and [aria-hidden] 'false' and every other testimonial
    card has display 'none' and [aria-hidden] 'true': the attribute follows
    the display. *)
Theorem rotation_sets_aria_hidden (p0 : Page) (k : nat) :
  let ts := querySelectorAll ["testimonial-card"] (doc p0) in
  let N := length ts in
  (2 ≤ N)%nat →
  let p := Nat.iter k tick (initTestimonialsSlider p0) in
  ∀ j id, ts !! j = Some id →
    ∃ e, doc p !! id = Some e
      ∧ (display (style e), ariaHidden e)
        = (if Nat.eqb j (k mod N) then ("block", Some "false")
           else ("none", Some "true")).
Proof.
  intros ts N HN p j id Hj.
  destruct (rotation_lookup p0 k HN) as (_ & _ & _ & Hin & _).
  fold ts N p in Hin. rewrite (Hin j id Hj).
  assert (id ∈ ts) as Hid by (by eapply list_elem_of_lookup_2).
  apply elem_of_querySelectorAll in Hid as (e0 & -> & _).
  eexists. split; [reflexivity|]. cbn. by destruct (Nat.eqb j (k mod N)).
Qed.

Lemma rotation_sets_aria_hidden_witness :
  ∃ e, doc (Nat.iter 4 tick (initTestimonialsSlider Samples.threeTestimonials))
         !! 3%nat = Some e
    ∧ (display (style e), ariaHidden e) = ("none", Some "true").
Proof.
  assert (2 ≤ length (querySelectorAll ["testimonial-card"]
                        (doc Samples.threeTestimonials)))%nat as H
    by (vm_compute; lia).
  exact (rotation_sets_aria_hidden Samples.threeTestimonials 4 H 2 3 eq_refl).
Defined.

(** X14: the rotator writes the display and [aria-hidden] of the testimonial
    cards and nothing else: every other element of the page is left exactly
    as it was, and a testimonial card keeps its classes and the other
    properties of its inline style. *)
Theorem rotation_changes_nothing_else (p0 : Page) (k : nat) :
  let ts := querySelectorAll ["testimonial-card"] (doc p0) in
  (2 ≤ length ts)%nat →
  let p := Nat.iter k tick (initTestimonialsSlider p0) in
  length (doc p) = length (doc p0)
  ∧ scrollListeners p = scrollListeners p0
  ∧ ∀ id e0, doc p0 !! id = Some e0 →
      ∃ e, doc p !! id = Some e
        ∧ (id ∉ ts → e = e0)
        ∧ classList e = classList e0
        ∧ opacity (style e) = opacity (style e0)
        ∧ transform (style e) = transform (style e0)
        ∧ transition (style e) = transition (style e0)
        ∧ padding (style e) = padding (style e0)
        ∧ boxShadow (style e) = boxShadow (style e0).
Proof.
  intros ts HN p.
  destruct (rotation_lookup p0 k HN) as (_ & _ & Hl & Hin & Hout).
  fold ts p in Hin, Hout.
  assert (∀ id e0, doc p0 !! id = Some e0 →
    ∃ e, doc p !! id = Some e
      ∧ (id ∉ ts → e = e0)
      ∧ classList e = classList e0
      ∧ opacity (style e) = opacity (style e0)
      ∧ transform (style e) = transform (style e0)
      ∧ transition (style e) = transition (style e0)
      ∧ padding (style e) = padding (style e0)
      ∧ boxShadow (style e) = boxShadow (style e0)) as Hall.
  { intros id e0 He0. destruct (decide (id ∈ ts)) as [Hid|Hid].
    - apply list_elem_of_lookup_1 in Hid as Hj. destruct Hj as [j Hj].
      rewrite (Hin j id Hj), He0. eexists. split; [reflexivity|].
      split_and!; try done.
    - rewrite (Hout id Hid), He0. by exists e0. }
  split_and!; [ | done | done].
  apply length_by_lookup. intros id.
  destruct (decide (id ∈ ts)) as [Hid|Hid].
  - apply list_elem_of_lookup_1 in Hid as [j Hj].
    by rewrite (Hin j id Hj), fmap_is_Some.
  - by rewrite (Hout id Hid).
Qed.

Lemma rotation_changes_nothing_else_witness :
  let p := Nat.iter 4 tick (initTestimonialsSlider Samples.threeTestimonials) in
  (2 ≤ 3)%nat ∧ length (doc p) = 4%nat.
Proof.
  split; [lia|].
  assert (2 ≤ length (querySelectorAll ["testimonial-card"]
                        (doc Samples.threeTestimonials)))%nat as H
    by (vm_compute; lia).
  exact (proj1 (rotation_changes_nothing_else Samples.threeTestimonials 4 H)).
Defined.

(** X15: the rotation has period N: [N] further ticks bring back the very
    same page, cards, slider and timers. *)
Theorem rotation_is_periodic (p0 : Page) (k : nat) :
  let N := length (querySelectorAll ["testimonial-card"] (doc p0)) in
  (2 ≤ N)%nat →
  Nat.iter (k + N) tick (initTestimonialsSlider p0)
  = Nat.iter k tick (initTestimonialsSlider p0).
Proof.
  intros N HN.
  destruct (rotation_lookup p0 k HN) as (Hs & Ht & Hl & Hin & Hout).
  destruct (rotation_lookup p0 (k + N) HN) as (Hs' & Ht' & Hl' & Hin' & Hout').
  fold N in Hs, Hs', Hin, Hin'.
  replace ((k + N) mod N)%nat with (k mod N)%nat in Hs', Hin'
    by (rewrite <- Nat.Div0.add_mod_idemp_r, Nat.Div0.mod_same, Nat.add_0_r; done).
  destruct (Nat.iter (k + N) tick _) as [d' s' t' l'],
    (Nat.iter k tick _) as [d s t l]. cbn [doc slider timers scrollListeners] in *.
  f_equal; [|congruence..].
  apply list_eq. intros id.
  destruct (decide (id ∈ querySelectorAll ["testimonial-card"] (doc p0))) as [Hid|Hid].
  - apply list_elem_of_lookup_1 in Hid as [j Hj]. by rewrite (Hin j id Hj), (Hin' j id Hj).
  - by rewrite (Hout id Hid), (Hout' id Hid).
Qed.

Lemma rotation_is_periodic_witness :
  (2 ≤ 3)%nat
  ∧ Nat.iter (1 + 3) tick (initTestimonialsSlider Samples.threeTestimonials)
    = Nat.iter 1 tick (initTestimonialsSlider Samples.threeTestimonials).
Proof.
  split; [lia|].
  assert (2 ≤ length (querySelectorAll ["testimonial-card"]
                        (doc Samples.threeTestimonials)))%nat as H
    by (vm_compute; lia).
  exact (rotation_is_periodic Samples.threeTestimonials 1 H).
Defined.

End RotatorState.

(** ** More on the scroll animations *)

Section ScrollAnimationState.
Import Cards.

(** X16: a card is revealed once it has been seen.  After any run of scroll
    events an animated element has opacity '1' and transform 'translateY(0)'
    if at one of the events its top edge was less than the window height
    minus 150, and is as it was otherwise; the order of the events and their
    number make no difference, and an element whose top edge is exactly at
    that line is not revealed. *)
Theorem card_revealed_once_seen (p : Page) (events : list Viewport) (id : nat) :
  doc (foldl (fun p v => onScroll v p) p events) !! id
  = (fun e =>
       if matches animated e
          && existsb (fun v => Qltb (rectTop v id) (inject_Z (innerHeight v - 150)))
               events
       then set_style (set_transform "translateY(0)") (set_style (set_opacity "1") e)
       else e) <$> doc p !! id.
Proof.
  destruct (doc_onScroll_events p events) as (-> & _).
  apply animateOnScroll_events_lookup.
Qed.

(** X17: start-up hides every feature, pricing and testimonial card, also one
    that was shown or revealed before: it gets the transition, and opacity
    '1' with no offset only if its top edge is less than the window height
    minus 150 at that moment, opacity '0' and an offset of 20 pixels
    otherwise.  Every other element is left as it was, and one scroll
    listener is added. *)
Theorem animated_cards_start_hidden (v : Viewport) (p : Page) (id : nat) :
  doc (initScrollAnimations v p) !! id
  = (fun e =>
       if matches animated e then
         let seen := Qltb (rectTop v id) (inject_Z (innerHeight v - 150)) in
         set_style (fun s =>
           mkStyle (display s) (if seen then "1" else "0")
             (if seen then "translateY(0)" else "translateY(20px)")
             "opacity 0.6s ease, transform 0.6s ease" (padding s) (boxShadow s)) e
       else e) <$> doc p !! id
  ∧ scrollListeners (initScrollAnimations v p)
    = (scrollListeners p ++ [AnimateOnScroll])%list
  ∧ timers (initScrollAnimations v p) = timers p.
Proof. split; [apply initScrollAnimations_lookup | done]. Qed.

(** X18: the scroll animations never write what the rotator writes.  After
    start-up and any run of scroll events every element has the display, the
    [aria-hidden] attribute and the classes it had, the slider and the timers
    are the same, and no element is added or removed. *)
Theorem scroll_animations_keep_display
  (v : Viewport) (p : Page) (events : list Viewport) (id : nat) :
  let p' := foldl (fun p v => onScroll v p) (initScrollAnimations v p) events in
  (display ∘ style <$> doc p' !! id) = (display ∘ style <$> doc p !! id)
  ∧ (ariaHidden <$> doc p' !! id) = (ariaHidden <$> doc p !! id)
  ∧ (classList <$> doc p' !! id) = (classList <$> doc p !! id)
  ∧ length (doc p') = length (doc p)
  ∧ slider p' = slider p ∧ timers p' = timers p.
Proof.
  intros p'.
  assert (∀ k, doc p' !! k
    = (fun e =>
         mkElement (classList e)
           (mkStyle (display (style e))
              (opacity (style (default e (doc p' !! k))))
              (transform (style (default e (doc p' !! k))))
              (transition (style (default e (doc p' !! k))))
              (padding (style e)) (boxShadow (style e)))
           (ariaHidden e)) <$> doc p !! k) as Hshape.
  { intros k. subst p'.
    destruct (doc_onScroll_events (initScrollAnimations v p) events) as (-> & _).
    rewrite !animateOnScroll_events_lookup, !initScrollAnimations_lookup.
    destruct (doc p !! k) as [e|]; [|done]. cbn -[matches animated Qltb]. f_equal.
    destruct (matches animated e) eqn:Hm.
    - rewrite !matches_set_style, Hm. cbn -[matches animated Qltb].
      destruct (existsb _ _), (Qltb _ _), e as [c [] a]; done.
    - rewrite Hm. cbn. by destruct e as [c [] a]. }
  destruct (doc_onScroll_events (initScrollAnimations v p) events) as (_ & Hs & Ht & _).
  split_and!; [ | | | | done | done].
  - rewrite Hshape. by destruct (doc p !! id).
  - rewrite Hshape. by destruct (doc p !! id).
  - rewrite Hshape. by destruct (doc p !! id).
  - apply length_by_lookup. intros k. by rewrite Hshape, fmap_is_Some.
Qed.

End ScrollAnimationState.

(** ** The inline script's [showTestimonial] *)

Section InlineShowTestimonial.
Import Cards.

(** X19: the inline script's [showTestimonial(index)] gives the card at
    position [index] display 'block' and every other testimonial card display
    'none', and writes nothing else; so an index that is no position hides
    every testimonial.  It leaves the cards with the displays the rotator's
    function of the same name leaves them with. *)
Theorem inline_showTestimonial_displays (d : list Element) (index c : nat) :
  let ts := querySelectorAll ["testimonial-card"] d in
  let d' := InlineTestimonials.showTestimonial ts index d in
  (∀ j id, ts !! j = Some id →
     d' !! id
     = set_style (set_display (if Nat.eqb j index then "block" else "none"))
         <$> d !! id)
  ∧ (∀ id, id ∉ ts → d' !! id = d !! id)
  ∧ ((length ts ≤ index)%nat →
     ∀ id, id ∈ ts → display ∘ style <$> d' !! id = Some "none")
  ∧ (∀ id, display ∘ style <$> d' !! id
           = (display ∘ style <$> (showTestimonial index (mkSlider ts c) d).2 !! id)).
Proof.
  intros ts d'.
  assert (NoDup ts) as Hnd by apply querySelectorAll_NoDup.
  assert (∀ j id, ts !! j = Some id →
     d' !! id
     = set_style (set_display (if Nat.eqb j index then "block" else "none"))
         <$> d !! id) as Hin.
  { intros j id Hj. unfold d', InlineTestimonials.showTestimonial, forEach.
    by rewrite (forEachFrom_alter_at _ _
      (fun _ i => set_style (set_display (if Nat.eqb i index then "block" else "none")))
      _ j). }
  assert (∀ id, id ∉ ts → d' !! id = d !! id) as Hout.
  { intros id Hid. unfold d', InlineTestimonials.showTestimonial, forEach.
    by apply (forEachFrom_alter_other _ _
      (fun _ i => set_style (set_display (if Nat.eqb i index then "block" else "none")))). }
  split_and!; [done | done | |].
  - intros Hle id Hid. pose proof Hid as (e & He & _)%elem_of_querySelectorAll.
    apply list_elem_of_lookup_1 in Hid as [j Hj]. rewrite (Hin j id Hj), He.
    apply lookup_lt_Some in Hj.
    destruct (Nat.eqb_spec j index) as [->|]; [lia | done].
  - intros id.
    destruct (showTestimonial_lookup index c ts d Hnd) as (_ & Hin' & Hout').
    destruct (decide (id ∈ ts)) as [Hid|Hid].
    + apply list_elem_of_lookup_1 in Hid as [j Hj].
      rewrite (Hin j id Hj), (Hin' j id Hj). by destruct (d !! id).
    + by rewrite (Hout id Hid), (Hout' id Hid).
Qed.

End InlineShowTestimonial.

(** ** Lazy loading *)

Section LazyLoading.
Import LazyLoad.

Lemma loaded_idemp img : loaded (loaded img) = loaded img.
Proof.
  unfold loaded, classList_remove, set_src. cbn. f_equal.
  apply list_filter_filter_l. done.
Qed.

Lemma swap_eq st i :
  swap st i = mkState (alter loaded i (images st)) (observed st ∖ {[i]}).
Proof. unfold swap. cbn zeta. by rewrite list_alter_alter_eq. Qed.

(** What a batch of entries leaves of the images and of the observed set. *)
Lemma onIntersection_lookup entries st i :
  images (onIntersection entries st) !! i
  = (if bool_decide (i ∈ intersecting entries) then loaded else id) <$> images st !! i
  ∧ (i ∈ observed (onIntersection entries st)
     ↔ i ∈ observed st ∧ i ∉ intersecting entries).
Proof.
  unfold onIntersection, intersecting. revert st.
  induction entries as [|[t b] entries IH]; intros st; cbn [foldl].
  - rewrite bool_decide_eq_false_2 by apply not_elem_of_nil.
    split; [by destruct (images st !! i)|]. split; [|by intros [? _]].
    intros H. split; [done | apply not_elem_of_nil].
  - destruct b; cbn [isIntersecting target].
    + rewrite filter_cons_True by done. cbn [fmap list_fmap target].
      destruct (IH (swap st t)) as [-> Hobs]. rewrite Hobs, swap_eq.
      cbn [images observed]. split.
      * destruct (decide (i = t)) as [->|Hne].
        -- rewrite list_lookup_alter_eq.
           rewrite (bool_decide_eq_true_2 (t ∈ t :: _)) by apply list_elem_of_here.
           destruct (images st !! t) as [img|]; [|done]. cbn.
           case_bool_decide; [by rewrite loaded_idemp | done].
        -- rewrite list_lookup_alter_ne by done.
           rewrite (bool_decide_ext (i ∈ t :: _) (i ∈ target <$> filter (λ e : Entry, isIntersecting e = true) entries)); [done|].
           rewrite elem_of_cons. split; [by intros [?|?] | by right].
      * rewrite elem_of_difference, elem_of_singleton, elem_of_cons.
        split; [intros [[? ?] ?]; split; [done | by intros [?|?]]|].
        intros [? Hn]. split_and!; [done | intros ?; apply Hn; by left
                                           | intros ?; apply Hn; by right].
    + rewrite filter_cons_False by done. apply IH.
Qed.

(** X20: an image named by an intersecting entry of a batch ends with its
    [src] set to what its [data-src] holds (the string 'undefined' when the
    attribute is gone), without the class 'lazy', with its other classes, and
    no longer observed. *)
Theorem lazy_image_loaded_on_intersection
  (entries : list Entry) (st : State) (i : nat) (img : Image) :
  mkEntry i true ∈ entries → images st !! i = Some img →
  ∃ img', images (onIntersection entries st) !! i = Some img'
    ∧ src img' = Some (default "undefined" (dataSrc img))
    ∧ dataSrc img' = dataSrc img
    ∧ (∀ c, c ∈ classList img' ↔ c ∈ classList img ∧ c ≠ "lazy")
    ∧ i ∉ observed (onIntersection entries st).
Proof.
  intros Hin Himg. destruct (onIntersection_lookup entries st i) as [-> Hobs].
  assert (i ∈ intersecting entries) as Hi.
  { unfold intersecting. apply (list_elem_of_fmap_2 target _ (mkEntry i true)).
    by apply list_elem_of_filter. }
  rewrite bool_decide_eq_true_2, Himg by done. eexists. split; [reflexivity|].
  split_and!; [done | done | | ].
  - intros c. cbn. by rewrite list_elem_of_filter, (comm and).
  - rewrite Hobs. by intros [_ ?].
Qed.

Lemma lazy_image_loaded_on_intersection_witness :
  let st := initPerformanceOptimizations true MoreSamples.gallery in
  ∃ img', images (onIntersection [mkEntry 1 false; mkEntry 2 true] st) !! 2%nat
          = Some img'
    ∧ src img' = Some "team.jpg"
    ∧ dataSrc img' = Some "team.jpg"
    ∧ (∀ c, c ∈ classList img' ↔ c ∈ ["lazy"; "wide"] ∧ c ≠ "lazy")
    ∧ 2%nat ∉ observed (onIntersection [mkEntry 1 false; mkEntry 2 true] st).
Proof.
  apply (lazy_image_loaded_on_intersection [mkEntry 1 false; mkEntry 2 true]
           (initPerformanceOptimizations true MoreSamples.gallery) 2
           (mkImage None (Some "team.jpg") ["lazy"; "wide"])).
  - apply list_elem_of_further, list_elem_of_here.
  - reflexivity.
Defined.

(** X21: an image's [src] changes only through an intersection: an image no
    intersecting entry of the batch names is left exactly as it was, and
    stays observed if it was. *)
Theorem lazy_image_untouched_until_seen
  (entries : list Entry) (st : State) (i : nat) :
  mkEntry i true ∉ entries →
  images (onIntersection entries st) !! i = images st !! i
  ∧ (i ∈ observed (onIntersection entries st) ↔ i ∈ observed st).
Proof.
  intros Hin. destruct (onIntersection_lookup entries st i) as [-> Hobs].
  assert (i ∉ intersecting entries) as Hi.
  { unfold intersecting. intros ([t b] & Ht & [Hb He]%list_elem_of_filter)%list_elem_of_fmap.
    cbn in *. by subst. }
  rewrite bool_decide_eq_false_2 by done. split.
  - by destruct (images st !! i).
  - rewrite Hobs. split; [by intros [? _] | done].
Qed.

Lemma lazy_image_untouched_until_seen_witness :
  let st := initPerformanceOptimizations true MoreSamples.gallery in
  images (onIntersection [mkEntry 1 false; mkEntry 2 true] st) !! 1%nat
  = images st !! 1%nat
  ∧ (1%nat ∈ observed (onIntersection [mkEntry 1 false; mkEntry 2 true] st)
     ↔ 1%nat ∈ observed st).
Proof.
  apply (lazy_image_untouched_until_seen [mkEntry 1 false; mkEntry 2 true]
           (initPerformanceOptimizations true MoreSamples.gallery) 1).
  intros [H|[H|H%elem_of_nil]%elem_of_cons]%elem_of_cons; [discriminate | discriminate | done].
Defined.

Lemma elem_of_lazy_queryFrom (i : nat) (imgs : list Image) (k : nat) :
  k ∈ queryFrom i imgs
  ↔ (i ≤ k)%nat ∧ ∃ img, imgs !! (k - i)%nat = Some img ∧ is_Some (dataSrc img).
Proof.
  revert i. induction imgs as [|img imgs IH]; intros i; cbn [queryFrom].
  - split; [by intros ?%elem_of_nil | by intros (_ & ? & ? & _)].
  - rewrite elem_of_app, IH. split.
    + intros [H | (Hle & img' & Hl & Hd)].
      * destruct (dataSrc img) as [u|] eqn:E; [|by apply elem_of_nil in H].
        apply list_elem_of_singleton in H as ->. split; [lia|].
        exists img. rewrite Nat.sub_diag. split; [done|]. by rewrite E.
      * split; [lia|]. exists img'. split; [|done].
        by replace (k - i)%nat with (S (k - S i)) by lia.
    + intros (Hle & img' & Hl & Hd).
      destruct (decide (k = i)) as [->|Hne].
      * left. rewrite Nat.sub_diag in Hl. cbn in Hl. simplify_eq.
        destruct Hd as [u ->]. apply list_elem_of_here.
      * right. split; [lia|]. exists img'. split; [|done].
        by replace (k - i)%nat with (S (k - S i)) in Hl by lia.
Qed.

Lemma observe_all (l : list nat) (st : State) :
  images (foldl (fun st img => mkState (images st) (observed st ∪ {[img]})) st l)
  = images st
  ∧ ∀ k, k ∈ observed (foldl (fun st img => mkState (images st) (observed st ∪ {[img]}))
                         st l)
         ↔ k ∈ observed st ∨ k ∈ l.
Proof.
  revert st. induction l as [|x l IH]; intros st; cbn [foldl].
  - split; [done|]. intros k. split; [by left | by intros [?|?%elem_of_nil]].
  - destruct (IH (mkState (images st) (observed st ∪ {[x]}))) as [-> Hobs].
    split; [done|]. intros k. rewrite Hobs. cbn [observed].
    rewrite elem_of_union, elem_of_singleton, elem_of_cons. tauto.
Qed.

(** X22: start-up touches no image, so no [src] changes before an
    intersection is reported; it observes exactly the images that have a
    [data-src] attribute, and none at all in a browser without
    IntersectionObserver, where the deferred images therefore never load. *)
Theorem lazy_load_observes_deferred_images
  (hasIntersectionObserver : bool) (imgs : list Image) (i : nat) :
  images (initPerformanceOptimizations hasIntersectionObserver imgs) = imgs
  ∧ (i ∈ observed (initPerformanceOptimizations hasIntersectionObserver imgs)
     ↔ hasIntersectionObserver = true
       ∧ ∃ img, imgs !! i = Some img ∧ is_Some (dataSrc img)).
Proof.
  unfold initPerformanceOptimizations. destruct hasIntersectionObserver.
  - destruct (observe_all (querySelectorAll imgs) (mkState imgs ∅)) as [-> Hobs].
    split; [done|]. rewrite Hobs. cbn [observed]. unfold querySelectorAll.
    rewrite elem_of_lazy_queryFrom, Nat.sub_0_r. split.
    + intros [?%elem_of_empty|[_ ?]]; done.
    + intros [_ ?]. right. split; [lia | done].
  - split; [done|]. cbn [observed]. split; [by intros ?%elem_of_empty | by intros [? _]].
Qed.

End LazyLoading.

(** ** Keyboard and pointer modes *)

Section KeyboardMode.
Import Accessibility.

Lemma handle_spec (e : Event) (classes : list string) (c : string) :
  (c ∈ handle e classes
   ↔ if bool_decide (c = "keyboard-navigation")
     then keyboardMode (bool_decide (c ∈ classes)) [e] = true
     else c ∈ classes)
  ∧ (NoDup classes → NoDup (handle e classes)).
Proof.
  destruct e as [key|]; cbn [handle keyboardMode foldl].
  - destruct (String.eqb key "Tab").
    + unfold classList_add. case_bool_decide as Hin.
      * split; [|done]. case_bool_decide as Hc; [by subst|done].
      * split.
        -- rewrite elem_of_app, list_elem_of_singleton.
           case_bool_decide as Hc; [by subst; split; [|right] |].
           split; [by intros [?|?] | by left].
        -- intros Hnd. apply NoDup_app. split_and!; [done | | apply NoDup_singleton].
           by intros x Hx ->%list_elem_of_singleton.
    + split; [|done]. case_bool_decide as Hc; [|done]. by rewrite bool_decide_eq_true.
  - unfold classList_remove. split.
    + rewrite list_elem_of_filter. case_bool_decide as Hc.
      * split; [by intros [? _] | done].
      * split; [by intros [_ ?] | done].
    + apply NoDup_filter.
Qed.

Lemma handle_mode (e : Event) (classes : list string) :
  bool_decide ("keyboard-navigation" ∈ handle e classes)
  = keyboardMode (bool_decide ("keyboard-navigation" ∈ classes)) [e].
Proof.
  destruct (handle_spec e classes "keyboard-navigation") as [H _].
  rewrite bool_decide_eq_true_2 in H by done.
  destruct (keyboardMode _ _) eqn:E.
  - by apply bool_decide_eq_true_2, H.
  - apply bool_decide_eq_false_2. intros Hc. apply H in Hc. congruence.
Qed.

(** X23: the root's class 'keyboard-navigation' follows the last input: after
    any run of keyup and mousedown events it is present exactly when the
    last Tab keyup or mousedown of the run was a Tab keyup (and as it was
    when the run has neither).  The listeners leave every other class of the
    root element alone and add no class twice. *)
Theorem keyboard_navigation_follows_last_input
  (events : list Event) (classes : list string) :
  let classes' := foldl (fun l e => handle e l) classes events in
  ("keyboard-navigation" ∈ classes'
   ↔ keyboardMode (bool_decide ("keyboard-navigation" ∈ classes)) events = true)
  ∧ (∀ c, c ≠ "keyboard-navigation" → c ∈ classes' ↔ c ∈ classes)
  ∧ (NoDup classes → NoDup classes').
Proof.
  revert classes. induction events as [|e events IH]; intros classes; cbn [foldl].
  - split_and!; [unfold keyboardMode; cbn [foldl]; by rewrite bool_decide_eq_true | done | done].
  - destruct (IH (handle e classes)) as (IH1 & IH2 & IH3).
    split_and!.
    + rewrite IH1, handle_mode. unfold keyboardMode. by cbn [foldl].
    + intros c Hc. rewrite (IH2 c Hc).
      destruct (handle_spec e classes c) as [H _].
      by rewrite bool_decide_eq_false_2 in H.
    + intros Hnd. apply IH3.
      destruct (handle_spec e classes "keyboard-navigation") as [_ H]. by apply H.
Qed.

End KeyboardMode.

(** ** The focus trap *)

Section FocusTrap.
Import Accessibility.



End FocusTrap.


(** ** More on the form validator *)

Section ValidatorRuns.
Import Form.

Lemma filter_class_absent (c : string) (l : list string) :
  c ∉ l → filter (fun c' => c' ≠ c) l = l.
Proof.
  induction l as [|x l IH]; [done|]. intros [Hx Hl]%not_elem_of_cons.
  rewrite filter_cons_True by congruence. by rewrite IH.
Qed.

Lemma classList_remove_absent (c : string) (i : nat) (d : gmap nat Node) :
  contains c d i = false → classList_remove c i d = d.
Proof.
  unfold contains, classList_remove, node. intros H%bool_decide_eq_false.
  apply map_eq. intros k. destruct (decide (k = i)) as [->|Hne].
  - rewrite lookup_alter_eq. destruct (d !! i) as [x|]; [|done]. cbn in *.
    f_equal. destruct x as [a b r l v t s p ch]. unfold set_classList. cbn in *.
    f_equal. by apply filter_class_absent.
  - by rewrite lookup_alter_ne.
Qed.

Lemma classList_add_present (c : string) (i : nat) (d : gmap nat Node) :
  contains c d i = true → classList_add c i d = d.
Proof.
  unfold contains, classList_add, node. intros H.
  apply map_eq. intros k. destruct (decide (k = i)) as [->|Hne].
  - rewrite lookup_alter_eq. destruct (d !! i) as [x|]; [|done]. cbn in *.
    by rewrite H.
  - by rewrite lookup_alter_ne.
Qed.

(** A field whose class and message already say what its value says is left
    as it is. *)
Lemma validateField_settled (d : gmap nat Node) (v : bool) (i : nat) :
  contains "error" d i = negb (filled d i) →
  hasErrorMessage d i = negb (filled d i) →
  validateField i (mkState d v) = Normal tt (mkState d (v && filled d i)).
Proof.
  intros Hc Hm. rewrite validateField_eq. unfold filled in *.
  destruct (isEmpty (trim (value (node d i)))); cbn [negb] in *; cbv zeta.
  - rewrite (classList_add_present _ _ _ Hc). unfold hasErrorMessage in Hm.
    apply negb_true_iff in Hm. rewrite Hm. by rewrite andb_false_r.
  - rewrite (classList_remove_absent _ _ _ Hc). unfold hasErrorMessage, lacks in Hm.
    rewrite andb_true_r.
    destruct (nextElementSibling d i) as [e|]; [|done].
    apply negb_false_iff, negb_true_iff in Hm. by rewrite Hm.
Qed.

Lemma forEach_settled (d : gmap nat Node) (l : list nat) (v : bool) :
  (∀ i, i ∈ l → contains "error" d i = negb (filled d i)
               ∧ hasErrorMessage d i = negb (filled d i)) →
  forEach l validateField (mkState d v)
  = Normal tt (mkState d (v && forallb (filled d) l)).
Proof.
  revert v. induction l as [|i l IH]; intros v H.
  - cbn. by rewrite andb_true_r.
  - cbn [forEach forallb]. unfold mbind, M_bind.
    destruct (H i (list_elem_of_here _ _)) as [Hc Hm].
    rewrite (validateField_settled d v i Hc Hm). fold (@mbind (M State) _).
    rewrite IH by (intros x Hx; apply H; by apply list_elem_of_further).
    by rewrite andb_assoc.
Qed.

(** X25: a form whose required fields are all filled, none of them with the
    class 'error' or with a message beside it, passes: the call returns
    true, and the document is left exactly as it was, whatever its shape. *)
Theorem valid_form_left_untouched (d : gmap nat Node) (form : nat) :
  (∀ i, i ∈ querySelectorAll d form →
     filled d i = true ∧ contains "error" d i = false ∧ hasErrorMessage d i = false) →
  validateForm form d = Normal true (mkState d true).
Proof.
  intros H. unfold validateForm, mbind, M_bind.
  rewrite forEach_settled.
  - cbn. replace (forallb _ _) with true; [done|]. symmetry.
    apply forallb_elem_of. intros i Hi. by destruct (H i Hi).
  - intros i Hi. destruct (H i Hi) as (-> & -> & ->). done.
Qed.

Lemma valid_form_left_untouched_witness :
  let d := fill [(1%nat, [97%N])] Samples.contactForm in
  validateForm 0 d = Normal true (mkState d true).
Proof.
  apply (valid_form_left_untouched (fill [(1%nat, [97%N])] Samples.contactForm) 0).
  intros i Hi.
  assert (querySelectorAll (fill [(1%nat, [97%N])] Samples.contactForm) 0
          = [1; 3]%nat) as E by (by vm_compute).
  rewrite E in Hi.
  apply elem_of_cons in Hi as [->|Hi]; [by vm_compute|].
  apply list_elem_of_singleton in Hi as ->. by vm_compute.
Defined.

(** X26: what the validator preserves.  On a well-formed document that uses
    the class 'error-message' as the validator does, the call never throws,
    and it leaves the document well formed and using the class in that way,
    so it can be run again.  It never edits a value and never adds, removes
    or moves a required field: every node has the value it had, the same
    nodes are required fields, each of them has the parent it had, the form
    has the fields it had, and no node has left the document's heap. *)
Theorem validator_preserves_the_document (d : gmap nat Node) (form : nat) :
  wellFormed d → tidy d →
  ∃ valid d', validateForm form d = Normal valid (mkState d' valid)
    ∧ wellFormed d' ∧ tidy d'
    ∧ (∀ n, value (node d' n) = value (node d n))
    ∧ (∀ n, isField d' n = isField d n)
    ∧ (∀ n, isField d n = true → parent d' n = parent d n)
    ∧ (∀ i, i ∈ querySelectorAll d form → i ∈ querySelectorAll d' form)
    ∧ dom d ⊆ dom d'.
Proof.
  intros W T. destruct (validateForm_run d form W T) as (d' & Hrun & W' & T' & K & _).
  eexists _, d'. split; [exact Hrun|].
  pose proof K as (K1 & K2 & K3 & _ & _ & _ & K7 & _).
  split_and!; [done | done | done | done | | | done].
  - intros n Hn. apply K7; [by apply elem_of_dom, isField_held|].
    by apply field_not_message.
  - intros i Hi. by apply (querySelectorAll_kept d d' form i T K).
Qed.

Lemma validator_preserves_the_document_witness :
  let d := Samples.contactForm in
  ∃ valid d', validateForm 0 d = Normal valid (mkState d' valid)
    ∧ wellFormed d' ∧ tidy d'
    ∧ (∀ n, value (node d' n) = value (node d n))
    ∧ (∀ n, isField d' n = isField d n)
    ∧ (∀ n, isField d n = true → parent d' n = parent d n)
    ∧ (∀ i, i ∈ querySelectorAll d 0 → i ∈ querySelectorAll d' 0)
    ∧ dom d ⊆ dom d'.
Proof.
  apply (validator_preserves_the_document Samples.contactForm 0).
  - apply wellFormedb_sound. by vm_compute.
  - apply tidyb_sound. by vm_compute.
Defined.

Lemma forallb_false_elem_of {A} (f : A → bool) (l : list A) :
  forallb f l = false ↔ ∃ x, x ∈ l ∧ f x = false.
Proof.
  induction l as [|x l IH]; cbn [forallb].
  - split; [done | by intros (? & ?%elem_of_nil & _)].
  - rewrite andb_false_iff, IH. split.
    + intros [H|(y & Hy & H)]; [exists x | exists y]; split; try done.
      * apply list_elem_of_here.
      * by apply list_elem_of_further.
    + intros (y & [->|Hy]%elem_of_cons & H); [by left | right; eauto].
Qed.

(** X27: a value of white space only counts as missing.  The call returns
    false exactly when the form has a required field whose value consists of
    white space and line terminators only, the empty value included. *)
Theorem validator_rejects_blank_values (d : gmap nat Node) (form : nat) :
  wellFormed d → tidy d →
  (∃ d', validateForm form d = Normal false (mkState d' false))
  ↔ ∃ i, i ∈ querySelectorAll d form
      ∧ forallb isWhiteSpace (value (node d i)) = true.
Proof.
  intros W T. destruct (validateForm_run d form W T) as (d' & Hrun & _).
  cbv zeta in Hrun. rewrite Hrun.
  assert (forallb (filled d) (querySelectorAll d form) = false
          ↔ ∃ i, i ∈ querySelectorAll d form
              ∧ forallb isWhiteSpace (value (node d i)) = true) as Hiff.
  { rewrite forallb_false_elem_of. apply exist_proper. intros i.
    unfold filled. by rewrite negb_false_iff, trim_empty. }
  rewrite <- Hiff. split.
  - intros (d'' & [= H _]). done.
  - intros ->. by exists d'.
Qed.

Lemma validator_rejects_blank_values_witness :
  (∃ d', validateForm 0 Samples.contactForm = Normal false (mkState d' false))
  ↔ ∃ i, i ∈ querySelectorAll Samples.contactForm 0
      ∧ forallb isWhiteSpace (value (node Samples.contactForm i)) = true.
Proof.
  apply (validator_rejects_blank_values Samples.contactForm 0).
  - apply wellFormedb_sound. by vm_compute.
  - apply tidyb_sound. by vm_compute.
Defined.

End ValidatorRuns.

(** ** The fields below a form, at any depth *)

Section Descendants.
Import Form.

Lemma descendants_cons (d : gmap nat Node) (n q k : nat) :
  k ∈ descendants (S n) d q
  ↔ ∃ c, c ∈ kids d q ∧ (k = c ∨ k ∈ descendants n d c).
Proof.
  cbn [descendants]. rewrite list_elem_of_In, in_flat_map. unfold kids.
  split; intros (c & Hc & Hk); exists c.
  - apply list_elem_of_In in Hc. split; [done|].
    destruct Hk as [->|Hk]; [by left | right; by apply list_elem_of_In].
  - split; [by apply list_elem_of_In|].
    destruct Hk as [->|Hk]; [by left | right; by apply list_elem_of_In].
Qed.

Lemma descendants_mono (d : gmap nat Node) (n m q k : nat) :
  (n ≤ m)%nat → k ∈ descendants n d q → k ∈ descendants m d q.
Proof.
  revert m q. induction n as [|n IH]; intros m q Hle; [by intros ?%elem_of_nil|].
  destruct m as [|m]; [lia|]. rewrite !descendants_cons.
  intros (c & Hc & [->|Hk]); exists c; (split; [done|]); [by left | right].
  apply IH; [lia | done].
Qed.

(** The nodes found to depth [n + 1] are the children of the nodes found to
    depth [n], and the children of the node itself. *)
Lemma descendants_snoc (d : gmap nat Node) (n q k : nat) :
  k ∈ descendants (S n) d q
  ↔ k ∈ kids d q ∨ ∃ c, c ∈ descendants n d q ∧ k ∈ kids d c.
Proof.
  revert q. induction n as [|n IH]; intros q.
  - rewrite descendants_cons. split.
    + intros (c & Hc & [->|?%elem_of_nil]); [by left | done].
    + intros [H|(c & ?%elem_of_nil & _)]; [|done]. exists k. split; [done | by left].
  - rewrite descendants_cons. split.
    + intros (c & Hc & [->|Hk]); [by left|].
      apply IH in Hk as [Hk|(c' & Hc' & Hk)]; right.
      * exists c. split; [|done]. apply descendants_cons. exists c. split; [done | by left].
      * exists c'. split; [|done]. apply descendants_cons. exists c. split; [done | by right].
    + intros [H|(c' & Hc' & Hk)]; [exists k; split; [done | by left]|].
      apply descendants_cons in Hc' as (c & Hc & [->|Hc']); exists c; (split; [done|]); right.
      * apply IH. by left.
      * apply IH. right. by exists c'.
Qed.

(** Once a level adds nothing, no deeper level does. *)
Lemma descendants_stable (d : gmap nat Node) (n q : nat) :
  (∀ k, k ∈ descendants (S n) d q → k ∈ descendants n d q) →
  ∀ m k, k ∈ descendants (n + m) d q → k ∈ descendants n d q.
Proof.
  intros Hst m. induction m as [|m IH]; intros k.
  - by rewrite Nat.add_0_r.
  - replace (n + S m)%nat with (S (n + m)) by lia.
    intros [Hk|(c & Hc & Hk)]%descendants_snoc; apply Hst, descendants_snoc.
    + by left.
    + right. exists c. split; [by apply IH | done].
Qed.

Lemma descendants_held (d : gmap nat Node) (n q k : nat) :
  wellFormed d → k ∈ descendants n d q → k ∈ dom d.
Proof.
  intros W [p Hp]%descendants_child. by eapply child_held.
Qed.

(** Each level either adds nothing or adds a node. *)
Lemma descendants_growth (d : gmap nat Node) (q n : nat) :
  (∃ s, (s ≤ n)%nat ∧ ∀ k, k ∈ descendants (S s) d q → k ∈ descendants s d q)
  ∨ (n ≤ size (list_to_set (descendants n d q) : gset nat))%nat.
Proof.
  induction n as [|n [(s & Hs & Hst)|Hsize]]; [right; lia | left | ].
  { exists s. split; [lia | done]. }
  destruct (decide (Forall (fun k => k ∈ descendants n d q) (descendants (S n) d q)))
    as [Hall|Hnot].
  - left. exists n. split; [lia|]. intros k Hk.
    rewrite Forall_forall in Hall. by apply Hall.
  - right. apply not_Forall_Exists in Hnot; [|apply _].
    apply Exists_exists in Hnot as (k & Hk & Hnk).
    assert ((list_to_set (descendants n d q) : gset nat)
            ⊂ list_to_set (descendants (S n) d q)) as Hsub.
    { split.
      - intros x Hx%elem_of_list_to_set. apply elem_of_list_to_set.
        apply (descendants_mono d n (S n)); [lia | done].
      - intros Hsup. apply Hnk.
        apply (proj1 (elem_of_list_to_set (C:=gset nat) _ _)).
        apply Hsup. by apply elem_of_list_to_set. }
    apply subset_size in Hsub. lia.
Qed.

(** No path of a tree is longer than the tree has nodes: what is found at
    any depth is found to the depth of the heap's size. *)
Lemma descendants_saturated (d : gmap nat Node) (n q k : nat) :
  wellFormed d → k ∈ descendants n d q → k ∈ descendants (size d) d q.
Proof.
  intros W Hk.
  destruct (descendants_growth d q (size d)) as [(s & Hs & Hst)|Hsize].
  - destruct (Nat.le_gt_cases n s) as [Hle|Hgt].
    + apply (descendants_mono d n); [lia | done].
    + apply (descendants_mono d s); [done|].
      apply (descendants_stable d s q Hst (n - s)).
      by replace (s + (n - s))%nat with n by lia.
  - assert ((list_to_set (descendants (size d) d q) : gset nat) = dom d) as E.
    { apply set_subseteq_size_eq.
      - intros x Hx%elem_of_list_to_set. by eapply descendants_held.
      - by rewrite size_dom. }
    apply (proj1 (elem_of_list_to_set (C:=gset nat) _ _)).
    rewrite E. by eapply descendants_held.
Qed.

(** X28: the validator's selection reaches every depth: a node is among the
    fields the call visits exactly when it is a required input or textarea
    that lies below the form, however deeply it is nested. *)
Theorem fields_found_at_every_depth (d : gmap nat Node) (form i : nat) :
  wellFormed d →
  i ∈ querySelectorAll d form
  ↔ isRequiredField (node d i) = true ∧ ∃ depth, i ∈ descendants depth d form.
Proof.
  intros W. unfold querySelectorAll. rewrite list_elem_of_filter. split.
  - intros [? ?]. eauto.
  - intros [? [depth Hi]]. split; [done|]. by eapply descendants_saturated.
Qed.

Lemma fields_found_at_every_depth_witness :
  1%nat ∈ querySelectorAll Samples.contactForm 0
  ↔ isRequiredField (node Samples.contactForm 1) = true
    ∧ ∃ depth, 1%nat ∈ descendants depth Samples.contactForm 0.
Proof.
  apply (fields_found_at_every_depth Samples.contactForm 0 1).
  apply wellFormedb_sound. by vm_compute.
Defined.

(** A field found below the form after the call was there before it. *)
Lemma descendants_before (d d' : gmap nat Node) (n q i : nat) :
  wellFormed d → tidy d → wellFormed d' → keeps d d' →
  isField d i = true →
  i ∈ descendants n d' q → i ∈ descendants n d q.
Proof.
  intros W T W' K Hf. revert q. induction n as [|n IH]; intros q; [done|].
  rewrite !descendants_cons. intros (c & Hc & Hi). exists c.
  assert (i = c ∨ i ∈ descendants n d c) as Hi' by (destruct Hi; [by left | right; eauto]).
  split; [|done].
  assert (c ∈ dom d) as Hheld.
  { destruct Hi' as [<-|Hi']; [by apply elem_of_dom, isField_held|].
    destruct n as [|n]; [by apply elem_of_nil in Hi'|].
    apply descendants_cons in Hi' as (c2 & Hc2 & _).
    apply elem_of_dom. by eapply kids_held. }
  assert (isErrorMessage d c = false) as Hnm.
  { destruct (isErrorMessage d c) eqn:E; [|done]. destruct (T c E) as (T1 & T2 & _).
    destruct Hi' as [<-|Hi']; [congruence|]. apply T2 in Hi'. congruence. }
  destruct W as (_ & W2 & _), W' as (W1' & _).
  destruct K as (_ & _ & _ & _ & _ & _ & K7 & _).
  apply W2. rewrite <- (K7 c Hheld Hnm). by apply W1'.
Qed.

Lemma querySelectorAll_before (d d' : gmap nat Node) (form i : nat) :
  wellFormed d → tidy d → wellFormed d' → keeps d d' →
  i ∈ querySelectorAll d' form → i ∈ querySelectorAll d form.
Proof.
  intros W T W' K [Hf Hi]%list_elem_of_filter.
  assert (isField d i = true) as Hf'.
  { destruct K as (_ & K2 & _). by rewrite <- K2. }
  apply list_elem_of_filter. split; [done|].
  apply (descendants_saturated d (size d')); [done|].
  by apply (descendants_before d d').
Qed.

(** X29: a second call right after the first changes nothing: it returns
    what the first call returned and leaves the document exactly as the first
    call left it, so no field gets a second message and no message is
    lost. *)
Theorem validateForm_twice_changes_nothing (d : gmap nat Node) (form : nat) :
  wellFormed d → tidy d →
  ∃ valid d1,
    validateForm form d = Normal valid (mkState d1 valid)
    ∧ validateForm form d1 = Normal valid (mkState d1 valid).
Proof.
  intros W T.
  destruct (validateForm_run d form W T) as (d1 & Hrun & W1 & T1 & K & Hin & _).
  cbv zeta in Hrun.
  exists (forallb (filled d) (querySelectorAll d form)), d1. split; [done|].
  assert (∀ i, i ∈ querySelectorAll d1 form ↔ i ∈ querySelectorAll d form) as Hsame.
  { intros i. split; [by apply querySelectorAll_before | by apply querySelectorAll_kept]. }
  assert (forallb (filled d1) (querySelectorAll d1 form)
          = forallb (filled d) (querySelectorAll d form)) as Hvalid.
  { apply eq_true_iff_eq. rewrite !forallb_elem_of.
    split; intros H i Hi.
    - rewrite <- (keeps_filled d d1 i K). apply H. by apply Hsame.
    - rewrite (keeps_filled d d1 i K). apply H. by apply Hsame. }
  unfold validateForm, mbind, M_bind. rewrite forEach_settled.
  - cbn. by rewrite Hvalid.
  - intros i Hi. rewrite (keeps_filled d d1 i K). apply Hin. by apply Hsame.
Qed.

Lemma validateForm_twice_changes_nothing_witness :
  ∃ valid d1,
    validateForm 0 Samples.contactForm = Normal valid (mkState d1 valid)
    ∧ validateForm 0 d1 = Normal valid (mkState d1 valid).
Proof.
  apply (validateForm_twice_changes_nothing Samples.contactForm 0).
  - apply wellFormedb_sound. by vm_compute.
  - apply tidyb_sound. by vm_compute.
Defined.

End Descendants.

(** ** Layout-shift monitoring *)

Section LayoutShifts.
Import Monitoring.

(** X30: the value the layout-shift observer logs for a list of entries is
    the sum, taken from 0 and from the first entry on, of the values of the
    entries without recent input; an entry with [hadRecentInput] contributes
    nothing, wherever it stands in the list. *)
Theorem clsValue_ignores_recent_input
  (number : Type) (plus : number → number → number) (zero : number)
  (entries : list (LayoutShift number)) :
  clsValue number plus zero entries
  = fold_left plus
      (value number <$> filter (fun e => hadRecentInput number e = false) entries)
      zero.
Proof.
  unfold clsValue. generalize zero. clear zero.
  induction entries as [|e entries IH]; intros acc; [done|].
  cbn [fold_left]. rewrite IH. destruct (hadRecentInput number e) eqn:E; cbn [negb].
  - by rewrite filter_cons_False by congruence.
  - by rewrite filter_cons_True by done.
Qed.

End LayoutShifts.
